(** * EmployWise user-management front end: the client-side logic

    A shallow embedding of the TypeScript sources
      - [src/utils/api.ts]    (axios client, bearer interceptor, login),
      - [src/pages/Login.tsx] (form validation and submit handler),
      - [src/App.tsx]         (route table and [PrivateRoute]),
      - [src/pages/Users.tsx] (filter, sort, edit and delete of a page of users).

    JavaScript strings are modelled as [string]; the characters stand for
    code units below 256.  [localStorage] is a finite map from keys to
    strings, a [Set] is a [gset] of the values it can hold at run time, an
    array is a [list].  A promise that has settled is a value of [Promise]:
    the outcome of the external service is an input of every handler that
    awaits one.  A handler that awaits the service is given twice: as the
    whole call, for a press that is answered before anything else happens on
    the page, and as the part after the [await], which runs on the state of
    that later moment with the values the handler closed over when it was
    called. *)

From Stdlib Require Import ZArith Ascii String List Permutation Sorted Bool Lia.
From stdpp Require Import base option list sorting gmap strings pretty.

Local Open Scope string_scope.
Local Open Scope list_scope.

(** ** JavaScript string primitives used by the sources *)

Module Js.

(** Truthiness of a string value: only the empty string is falsy. *)
Definition truthy (s : string) : bool :=
  match s with
  | EmptyString => false
  | String _ _ => true
  end.

(** Truthiness of a value that may be [null] or [undefined]. *)
Definition truthy_opt (o : option string) : bool :=
  match o with
  | Some s => truthy s
  | None => false
  end.

(** [s.charAt(0)]: the first code unit as a string, or the empty string. *)
Definition charAt0 (s : string) : string :=
  match s with
  | EmptyString => EmptyString
  | String c _ => String c EmptyString
  end.

(** [s.startsWith(t)], the helper of [includes]. *)
Fixpoint startsWith (s t : string) : bool :=
  match t, s with
  | EmptyString, _ => true
  | String _ _, EmptyString => false
  | String b t', String a s' => if Ascii.eqb a b then startsWith s' t' else false
  end.

(** [s.includes(t)]: [t] occurs in [s] as a contiguous substring. *)
Fixpoint includes (s t : string) : bool :=
  startsWith s t
  || match s with
     | EmptyString => false
     | String _ s' => includes s' t
     end.

(** [s.split(sep)] for a one-character separator.  The result is never
    empty: a string without the separator yields itself. *)
Fixpoint split (sep : ascii) (s : string) : list string :=
  match s with
  | EmptyString => [EmptyString]
  | String c s' =>
      if Ascii.eqb c sep then EmptyString :: split sep s'
      else match split sep s' with
           | piece :: rest => String c piece :: rest
           | [] => [String c EmptyString]
           end
  end.

(** Lower-casing of one code unit: the Latin capital letters A-Z. *)
Definition lower_ascii (c : ascii) : ascii :=
  let n := nat_of_ascii c in
  if (65 <=? n)%nat && (n <=? 90)%nat then ascii_of_nat (n + 32) else c.

(** A reference [toLowerCase] on the code units this model carries. *)
Fixpoint lower_string (s : string) : string :=
  match s with
  | EmptyString => EmptyString
  | String c s' => String (lower_ascii c) (lower_string s')
  end.

(** A reference comparator: code units compared left to right, with the
    sign convention of [localeCompare] (negative, zero, positive). *)
Fixpoint compare_units (a b : string) : Z :=
  match a, b with
  | EmptyString, EmptyString => 0
  | EmptyString, String _ _ => -1
  | String _ _, EmptyString => 1
  | String x a', String y b' =>
      match Nat.compare (nat_of_ascii x) (nat_of_ascii y) with
      | Lt => -1
      | Gt => 1
      | Eq => compare_units a' b'
      end
  end.

(** [Array.prototype.sort(cmp)].  The language sorts stably, so for a
    consistent comparator the outcome is the one stable rearrangement; it is
    computed here by insertion from the right, an element going before the
    first later element it does not compare greater than. *)
Section Sort.
Context {A : Type} (cmp : A → A → Z).

Fixpoint sort_insert (x : A) (l : list A) : list A :=
  match l with
  | [] => [x]
  | y :: l' => if (cmp x y <=? 0)%Z then x :: y :: l' else y :: sort_insert x l'
  end.

Definition sort (l : list A) : list A := foldr sort_insert [] l.

End Sort.

(** A promise once settled: the awaited value, or the rejection reason. *)
Inductive Promise (A : Type) : Type :=
| Resolved (value : A)
| Rejected (reason : string).
Arguments Resolved {A} value.
Arguments Rejected {A} reason.

(** *** Regular expressions, as far as the login form uses them *)

Inductive regex : Type :=
| re_none
| re_eps
| re_class (p : ascii → bool)
| re_cat (r1 r2 : regex)
| re_alt (r1 r2 : regex)
| re_star (r : regex).

(** The strings a pattern matches as a whole. *)
Inductive re_in : regex → string → Prop :=
| in_eps : re_in re_eps EmptyString
| in_class p c : p c = true → re_in (re_class p) (String c EmptyString)
| in_cat r1 r2 s1 s2 : re_in r1 s1 → re_in r2 s2 → re_in (re_cat r1 r2) (s1 +:+ s2)
| in_alt_l r1 r2 s : re_in r1 s → re_in (re_alt r1 r2) s
| in_alt_r r1 r2 s : re_in r2 s → re_in (re_alt r1 r2) s
| in_star_nil r : re_in (re_star r) EmptyString
| in_star_cons r s1 s2 :
    re_in r s1 → re_in (re_star r) s2 → re_in (re_star r) (s1 +:+ s2).

Fixpoint nullable (r : regex) : bool :=
  match r with
  | re_none => false
  | re_eps => true
  | re_class _ => false
  | re_cat r1 r2 => nullable r1 && nullable r2
  | re_alt r1 r2 => nullable r1 || nullable r2
  | re_star _ => true
  end.

(** The pattern that matches what is left after reading [c]. *)
Fixpoint deriv (c : ascii) (r : regex) : regex :=
  match r with
  | re_none => re_none
  | re_eps => re_none
  | re_class p => if p c then re_eps else re_none
  | re_cat r1 r2 =>
      if nullable r1
      then re_alt (re_cat (deriv c r1) r2) (deriv c r2)
      else re_cat (deriv c r1) r2
  | re_alt r1 r2 => re_alt (deriv c r1) (deriv c r2)
  | re_star r' => re_cat (deriv c r') (re_star r')
  end.

Fixpoint re_matches (r : regex) (s : string) : bool :=
  match s with
  | EmptyString => nullable r
  | String c s' => re_matches (deriv c r) s'
  end.

Definition re_any : regex := re_star (re_class (λ _, true)).
Definition re_plus (r : regex) : regex := re_cat r (re_star r).
Definition re_char (c : ascii) : regex := re_class (Ascii.eqb c).

(** [r.test(s)] for a pattern without anchors: some substring matches. *)
Definition re_test (r : regex) (s : string) : bool :=
  re_matches (re_cat re_any (re_cat r re_any)) s.

(** The class [\s] on code units below 256: tab, line feed, vertical tab,
    form feed, carriage return, space and no-break space. *)
Definition is_space (c : ascii) : bool :=
  let n := nat_of_ascii c in
  ((9 <=? n)%nat && (n <=? 13)%nat) || (n =? 32)%nat || (n =? 160)%nat.

(** The class [\S]. *)
Definition non_space (c : ascii) : bool := negb (is_space c).

End Js.

(** ** Browser storage *)

Module LocalStorage.

Abbreviation t := (gmap string string).

Definition getItem (key : string) (ls : t) : option string := ls !! key.
Definition setItem (key value : string) (ls : t) : t := <[key := value]> ls.
Definition removeItem (key : string) (ls : t) : t := delete key ls.

End LocalStorage.

(** ** [src/utils/api.ts] *)

Module Api.
Import Js.

(** What a request carries as its body. *)
Inductive Body : Type :=
| NoBody
| LoginBody (email password : string)
| UserBody (first_name last_name email : string).

(** The request configuration the HTTP client hands to its interceptors.
    [headers] holds the headers this repository sets; those the library adds
    by itself ([Accept] and the like) are not listed. *)
Record Config : Type := mkConfig {
  baseURL : string;
  method : string;
  url : string;
  headers : gmap string string;
  data : Body
}.

Definition with_headers (h : gmap string string) (config : Config) : Config :=
  {| baseURL := baseURL config; method := method config; url := url config;
     headers := h; data := data config |}.

(** [axios.create({ baseURL: 'https://reqres.in/api' })]: a request of the
    instance before any interceptor ran. *)
Definition create (method url : string) (data : Body) : Config :=
  {| baseURL := "https://reqres.in/api"; method := method; url := url;
     headers := ∅; data := data |}.

(** [api.interceptors.request.use(...)]. *)
Definition interceptor (ls : LocalStorage.t) (config : Config) : Config :=
  match LocalStorage.getItem "token" ls with
  | Some token =>
      if truthy token
      then with_headers (<["Authorization" := ("Bearer " +:+ token)]> (headers config)) config
      else config
  | None => config
  end.

(** A request as it leaves the [api] instance: the interceptor has run. *)
Definition send (ls : LocalStorage.t) (method url : string) (data : Body) : Config :=
  interceptor ls (create method url data).

(** The body of a login response, [response.data]. *)
Record LoginData : Type := { token : option string }.

(** The body of a list-users response, as far as the page reads it. *)
Record UsersData (User : Type) : Type := {
  page_data : list User;
  total_pages : Z
}.
Arguments page_data {User} _.
Arguments total_pages {User} _.

(** Every exported call yields the request it sent and the promise it
    returns, given how the service answered ([net]). *)

Definition login (ls : LocalStorage.t) (email password : string)
    (net : Promise LoginData) : Config * Promise LoginData :=
  (send ls "post" "/login" (LoginBody email password),
   match net with
   | Resolved response_data => Resolved response_data
   | Rejected _ => Rejected "Invalid credentials"
   end).

Definition getUsers {User} (ls : LocalStorage.t) (page : Z)
    (net : Promise (UsersData User)) : Config * Promise (UsersData User) :=
  (send ls "get" ("/users?page=" +:+ pretty page) NoBody, net).

Definition updateUser (ls : LocalStorage.t) (id : Z) (data : Body)
    (net : Promise unit) : Config * Promise unit :=
  (send ls "put" ("/users/" +:+ pretty id) data, net).

Definition deleteUser (ls : LocalStorage.t) (id : Z)
    (net : Promise unit) : Config * Promise unit :=
  (send ls "delete" ("/users/" +:+ pretty id) NoBody, net).

End Api.

(** What a handler does besides changing state and storage. *)
Inductive Effect : Type :=
| Request (config : Api.Config)
| ToastSuccess (message : string)
| ToastError (message : string)
| Navigate (path : string).

(** ** [src/pages/Login.tsx] *)

Module Login.
Import Js.

(** The messages under the two inputs, [errors.email] and [errors.password]. *)
Record Errors : Type := {
  errors_email : string;
  errors_password : string
}.

(** The component state: the four [useState] cells. *)
Record State : Type := {
  email : string;
  password : string;
  isLoading : bool;
  errors : Errors
}.

Definition initial : State :=
  {| email := ""; password := ""; isLoading := false;
     errors := {| errors_email := ""; errors_password := "" |} |}.

Definition setErrors (e : Errors) (st : State) : State :=
  {| email := email st; password := password st; isLoading := isLoading st;
     errors := e |}.

Definition setIsLoading (b : bool) (st : State) : State :=
  {| email := email st; password := password st; isLoading := b;
     errors := errors st |}.

(** The pattern [/\S+@\S+\.\S+/]. *)
Definition email_pattern : regex :=
  re_cat (re_plus (re_class non_space))
    (re_cat (re_char "@")
       (re_cat (re_plus (re_class non_space))
          (re_cat (re_char ".") (re_plus (re_class non_space))))).

(** [validateForm]: the verdict and the state with the new messages. *)
Definition validateForm (st : State) : bool * State :=
  let isValid := true in
  let '(isValid, newEmail) :=
    if negb (truthy (email st)) then (false, "Email is required")
    else if negb (re_test email_pattern (email st))
         then (false, "Please enter a valid email")
         else (isValid, "") in
  let '(isValid, newPassword) :=
    if negb (truthy (password st)) then (false, "Password is required")
    else if (String.length (password st) <? 4)%nat
         then (false, "Password must be at least 4 characters")
         else (isValid, "") in
  (isValid,
   setErrors {| errors_email := newEmail; errors_password := newPassword |} st).

(** What a submit leaves behind: component state, storage, and the effects
    in the order they happen. *)
Record Outcome : Type := {
  state : State;
  storage : LocalStorage.t;
  effects : list Effect
}.

(** [handleSubmit], with the answer of the login endpoint as [net]. *)
Definition handleSubmit (st : State) (ls : LocalStorage.t)
    (net : Promise Api.LoginData) : Outcome :=
  let '(isValid, st) := validateForm st in
  if negb isValid then {| state := st; storage := ls; effects := [] |}
  else
    let st := setIsLoading true st in
    let '(request, answer) := Api.login ls (email st) (password st) net in
    match answer with
    | Resolved response =>
        if truthy_opt (Api.token response) then
          let token := default "" (Api.token response) in
          {| state := setIsLoading false st;
             storage := LocalStorage.setItem "token" token ls;
             effects := [Request request; ToastSuccess "Login successful!";
                         Navigate "/users"] |}
        else
          {| state := setIsLoading false st;
             storage := ls;
             effects := [Request request; ToastError "Invalid credentials"] |}
    | Rejected _ =>
        {| state :=
             setIsLoading false
               (setErrors {| errors_email := "Invalid email or password";
                             errors_password := "Invalid email or password" |} st);
           storage := ls;
           effects := [Request request; ToastError "Invalid email or password"] |}
    end.

(** The two inputs: [onChange] stores the text and clears the message under
    that input, [setErrors(prev => ({ ...prev, email: '' }))]. *)
Definition changeEmail (value : string) (st : State) : State :=
  {| email := value; password := password st; isLoading := isLoading st;
     errors := {| errors_email := "";
                  errors_password := errors_password (errors st) |} |}.

Definition changePassword (value : string) (st : State) : State :=
  {| email := email st; password := value; isLoading := isLoading st;
     errors := {| errors_email := errors_email (errors st);
                  errors_password := "" |} |}.

End Login.

(** ** [src/App.tsx] *)

Module App.
Import Js.

(** What a route renders. *)
Inductive Element : Type :=
| LoginPage
| UsersPage (darkMode : bool)
| Redirect (to : string).

(** [PrivateRoute]: the children when a token is stored, a redirect to the
    login page otherwise. *)
Definition PrivateRoute (ls : LocalStorage.t) (children : Element) : Element :=
  let token := LocalStorage.getItem "token" ls in
  if truthy_opt token then children else Redirect "/login".

(** Any number of slashes, and nothing else. *)
Fixpoint slashes (s : string) : bool :=
  match s with
  | EmptyString => true
  | String c s' => Ascii.eqb c "/" && slashes s'
  end.

(** How the router matches the path of a [<Route>] against the path name of
    the location: the route path is read as the pattern [^path\/*$] with the
    flag [i], so the letters match in either case and any number of slashes
    may follow.  (The three route paths are plain lower-case texts.) *)
Fixpoint matchPath (path pathname : string) : bool :=
  match path, pathname with
  | EmptyString, rest => slashes rest
  | String p path', String c pathname' =>
      Ascii.eqb (lower_ascii c) (lower_ascii p) && matchPath path' pathname'
  | String _ _, EmptyString => false
  end.

(** The route table of [App] at a location, [location.pathname || "/"]
    with its percent-escapes decoded; [None] where no route matches.  No path
    name matches two of the routes, so their ranking does not matter. *)
Definition route (ls : LocalStorage.t) (darkMode : bool) (pathname : string)
  : option Element :=
  let pathname := if truthy pathname then pathname else "/" in
  if matchPath "/login" pathname then Some LoginPage
  else if matchPath "/users" pathname then Some (PrivateRoute ls (UsersPage darkMode))
  else if matchPath "/" pathname then Some (Redirect "/users")
  else None.

(** [handleLogout] of the navigation bar. *)
Definition handleLogout (ls : LocalStorage.t) : LocalStorage.t * list Effect :=
  (LocalStorage.removeItem "token" ls, [Navigate "/login"]).

(** Where a visit ends: on a page, on a path without route, or still being
    redirected when the count of followed redirects is used up. *)
Inductive Landing : Type :=
| Shows (path : string) (page : Element)
| NoRoute (path : string)
| Redirecting (to : string).

(** A visit of [path]: a rendered [<Navigate to=... />] takes the router to
    its target, at most [hops] times in a row. *)
Fixpoint visit (hops : nat) (ls : LocalStorage.t) (darkMode : bool)
    (path : string) : Landing :=
  match route ls darkMode path with
  | None => NoRoute path
  | Some (Redirect to) =>
      match hops with
      | O => Redirecting to
      | S hops => visit hops ls darkMode to
      end
  | Some page => Shows path page
  end.

End App.

(** ** [JSON.stringify] and [JSON.parse]

    The values the page stores are strings, arrays and objects; numbers do
    not occur and are left out.  [stringify] writes the compact text of the
    language standard.  [parse] reads such compact texts (no white space
    between tokens) and fails, as [JSON.parse] throws, on anything else. *)

Module Json.

#[local] Unset Elimination Schemes.
Inductive value : Type :=
| JNull
| JBool (b : bool)
| JString (s : string)
| JArray (items : list value)
| JObject (members : list (string * value)).
#[local] Set Elimination Schemes.

Definition dquote : ascii := "034"%char.
Definition backslash : ascii := "092"%char.

Definition hex_digit (n : nat) : ascii :=
  default "0"%char (list_ascii_of_string "0123456789abcdef" !! n).

Definition hex_value (c : ascii) : option nat :=
  let n := nat_of_ascii c in
  if (48 <=? n)%nat && (n <=? 57)%nat then Some (n - 48)%nat
  else if (97 <=? n)%nat && (n <=? 102)%nat then Some (n - 87)%nat
  else if (65 <=? n)%nat && (n <=? 70)%nat then Some (n - 55)%nat
  else None.

(** One code unit inside a quoted string, as [stringify] writes it. *)
Definition escape_char (c : ascii) : string :=
  let n := nat_of_ascii c in
  if Ascii.eqb c dquote then String backslash (String dquote "")
  else if Ascii.eqb c backslash then String backslash (String backslash "")
  else if (n =? 8)%nat then String backslash "b"
  else if (n =? 9)%nat then String backslash "t"
  else if (n =? 10)%nat then String backslash "n"
  else if (n =? 12)%nat then String backslash "f"
  else if (n =? 13)%nat then String backslash "r"
  else if (n <? 32)%nat
       then String backslash
              (String "u" (String "0" (String "0"
                 (String (hex_digit (n / 16)) (String (hex_digit (n mod 16)) "")))))
  else String c "".

Fixpoint escape (s : string) : string :=
  match s with
  | EmptyString => EmptyString
  | String c s' => escape_char c +:+ escape s'
  end.

Definition quote (s : string) : string :=
  String dquote (escape s +:+ String dquote "").

Fixpoint join (pieces : list string) : string :=
  match pieces with
  | [] => ""
  | [p] => p
  | p :: rest => p +:+ "," +:+ join rest
  end.

Fixpoint stringify (v : value) : string :=
  match v with
  | JNull => "null"
  | JBool true => "true"
  | JBool false => "false"
  | JString s => quote s
  | JArray items => "[" +:+ join (map stringify items) +:+ "]"
  | JObject members =>
      "{" +:+ join (map (λ m, quote (fst m) +:+ ":" +:+ stringify (snd m)) members)
      +:+ "}"
  end.

(** The inside of a quoted string up to its closing quote: the decoded
    text and what follows the quote. *)
Fixpoint parse_chars (s : string) : option (string * string) :=
  match s with
  | EmptyString => None
  | String c rest =>
      if Ascii.eqb c dquote then Some (EmptyString, rest)
      else if Ascii.eqb c backslash then
        match rest with
        | EmptyString => None
        | String e rest' =>
            let unit (d : ascii) :=
              prod_map (String d) Datatypes.id <$> parse_chars rest' in
            if Ascii.eqb e dquote then unit dquote
            else if Ascii.eqb e backslash then unit backslash
            else if Ascii.eqb e "/" then unit "/"%char
            else if Ascii.eqb e "b" then unit "008"%char
            else if Ascii.eqb e "t" then unit "009"%char
            else if Ascii.eqb e "n" then unit "010"%char
            else if Ascii.eqb e "f" then unit "012"%char
            else if Ascii.eqb e "r" then unit "013"%char
            else if Ascii.eqb e "u" then
              match rest' with
              | String h1 (String h2 (String h3 (String h4 rest''))) =>
                  match hex_value h1, hex_value h2, hex_value h3, hex_value h4 with
                  | Some a, Some b, Some c, Some d =>
                      let n := (((a * 16 + b) * 16 + c) * 16 + d)%nat in
                      if (n <? 256)%nat
                      then prod_map (String (ascii_of_nat n)) Datatypes.id
                             <$> parse_chars rest''
                      else None
                  | _, _, _, _ => None
                  end
              | _ => None
              end
            else None
        end
      else if (nat_of_ascii c <? 32)%nat then None
      else prod_map (String c) Datatypes.id <$> parse_chars rest
  end.

(** A value at the head of the text and what follows it.  [fuel] bounds
    the nesting of calls; [parse] supplies more than any text can use. *)
Fixpoint parse_value (fuel : nat) (s : string) : option (value * string) :=
  match fuel with
  | O => None
  | S fuel =>
      match s with
      | String "n" (String "u" (String "l" (String "l" rest))) => Some (JNull, rest)
      | String "t" (String "r" (String "u" (String "e" rest))) => Some (JBool true, rest)
      | String "f" (String "a" (String "l" (String "s" (String "e" rest)))) =>
          Some (JBool false, rest)
      | String "[" (String "]" rest) => Some (JArray [], rest)
      | String "[" rest =>
          prod_map JArray Datatypes.id <$> parse_items fuel rest
      | String "{" (String "}" rest) => Some (JObject [], rest)
      | String "{" rest =>
          prod_map JObject Datatypes.id <$> parse_members fuel rest
      | String c rest =>
          if Ascii.eqb c dquote
          then prod_map JString Datatypes.id <$> parse_chars rest
          else None
      | EmptyString => None
      end
  end
with parse_items (fuel : nat) (s : string) : option (list value * string) :=
  match fuel with
  | O => None
  | S fuel =>
      match parse_value fuel s with
      | Some (v, String "," rest) =>
          prod_map (cons v) Datatypes.id <$> parse_items fuel rest
      | Some (v, String "]" rest) => Some ([v], rest)
      | _ => None
      end
  end
with parse_members (fuel : nat) (s : string)
  : option (list (string * value) * string) :=
  match fuel with
  | O => None
  | S fuel =>
      match s with
      | String q rest =>
          if Ascii.eqb q dquote then
            match parse_chars rest with
            | Some (key, String ":" rest) =>
                match parse_value fuel rest with
                | Some (v, String "," rest) =>
                    prod_map (cons (key, v)) Datatypes.id <$> parse_members fuel rest
                | Some (v, String "}" rest) => Some ([(key, v)], rest)
                | _ => None
                end
            | _ => None
            end
          else None
      | EmptyString => None
      end
  end.

(** [JSON.parse]: [None] where the call throws. *)
Definition parse (s : string) : option value :=
  match parse_value (S (String.length s)) s with
  | Some (v, EmptyString) => Some v
  | _ => None
  end.

(** Reading a property of a parsed object: the last member of that name,
    [None] for [undefined]. *)
Fixpoint get (key : string) (members : list (string * value)) : option value :=
  match members with
  | [] => None
  | (k, v) :: rest =>
      match get key rest with
      | Some v' => Some v'
      | None => if String.eqb k key then Some v else None
      end
  end.

Section ValueInduction.
Variable P : value → Prop.
Hypothesis P_null : P JNull.
Hypothesis P_bool : ∀ b, P (JBool b).
Hypothesis P_string : ∀ s, P (JString s).
Hypothesis P_array : ∀ items, Forall P items → P (JArray items).
Hypothesis P_object : ∀ members, Forall (λ m, P (snd m)) members → P (JObject members).

(** Induction over a value, its items and its members. *)
Fixpoint value_induction (v : value) : P v :=
  match v with
  | JNull => P_null
  | JBool b => P_bool b
  | JString s => P_string s
  | JArray items =>
      P_array items
        ((fix each (l : list value) : Forall P l :=
            match l with
            | [] => List.Forall_nil _
            | x :: l' => List.Forall_cons _ x l' (value_induction x) (each l')
            end) items)
  | JObject members =>
      P_object members
        ((fix each (l : list (string * value)) : Forall (λ m, P (snd m)) l :=
            match l with
            | [] => List.Forall_nil _
            | m :: l' => List.Forall_cons _ m l' (value_induction (snd m)) (each l')
            end) members)
  end.

End ValueInduction.

(** The number of values and list cells of a value: fuel that suffices to
    read it back. *)
Fixpoint size (v : value) : nat :=
  match v with
  | JArray items => S (list_sum (map (λ item, S (size item)) items))
  | JObject members => S (list_sum (map (λ m, S (size (snd m))) members))
  | _ => 1%nat
  end.

End Json.

(** ** [src/pages/Users.tsx] *)

Module Users.
Import Js.

(** The [User] record of [src/types]: the fields the page reads. *)
Record User : Type := {
  id : Z;
  first_name : string;
  last_name : string;
  email : string;
  avatar : string
}.

Inductive SortDirection : Type := asc | desc.

(** What [selectedDomains] can hold.  The set is declared [Set<string>];
    the values put into it are the options of [emailDomains], among them
    [undefined] for an address without ['@'], and the items of the stored
    array that the load effect reads, where [JSON.stringify] has written
    [undefined] as [null]. *)
Inductive Domain : Type :=
| Named (domain : string)
| Undefined
| Null.

#[export] Instance User_eq_dec : EqDecision User.
Proof. solve_decision. Defined.

#[export] Instance SortDirection_eq_dec : EqDecision SortDirection.
Proof. solve_decision. Defined.

#[export] Instance Domain_eq_dec : EqDecision Domain.
Proof. solve_decision. Defined.

#[export] Instance Domain_countable : Countable Domain.
Proof.
  refine (inj_countable'
    (λ d, match d with
          | Named domain => inl domain
          | Undefined => inr true
          | Null => inr false
          end)
    (λ x, match x with
          | inl domain => Named domain
          | inr true => Undefined
          | inr false => Null
          end) _).
  by intros [].
Defined.

(** The template literal [`${user.first_name} ${user.last_name}`]. *)
Definition fullName (user : User) : string :=
  first_name user +:+ " " +:+ last_name user.

(** [user.email.split('@')[1]]: [None] stands for [undefined], the value
    of the index expression when the address holds no ['@']. *)
Definition emailDomain (user : User) : option string :=
  split "@" (email user) !! 1%nat.

(** The value of that expression as a member of a set. *)
Definition domainValue (domain : option string) : Domain :=
  match domain with
  | Some domain => Named domain
  | None => Undefined
  end.

(** [domains.add(domain)] on a [Set] kept in insertion order. *)
Definition set_add {A} `{EqDecision A} (x : A) (domains : list A) : list A :=
  if decide (x ∈ domains) then domains else domains ++ [x].

(** [emailDomains]: the memoised list of filter options, [Array.from] of
    the set the loop fills. *)
Definition emailDomains (users : list User) : list (option string) :=
  foldl (λ domains user, set_add (emailDomain user) domains) [] users.

(** The component state: the [useState] cells of [Users]. *)
Record State : Type := {
  users : list User;
  loading : bool;
  currentPage : Z;
  totalPages : Z;
  selectedUser : option User;
  isEditModalOpen : bool;
  searchTerm : string;
  isFilterOpen : bool;
  selectedLetter : string;
  sortDirection : SortDirection;
  selectedDomains : gset Domain
}.

Definition initial : State :=
  {| users := []; loading := true; currentPage := 1; totalPages := 1;
     selectedUser := None; isEditModalOpen := false; searchTerm := "";
     isFilterOpen := false; selectedLetter := ""; sortDirection := asc;
     selectedDomains := ∅ |}.

Definition setUsers (v : list User) (st : State) : State :=
  {| users := v; loading := loading st; currentPage := currentPage st;
     totalPages := totalPages st; selectedUser := selectedUser st;
     isEditModalOpen := isEditModalOpen st; searchTerm := searchTerm st;
     isFilterOpen := isFilterOpen st; selectedLetter := selectedLetter st;
     sortDirection := sortDirection st; selectedDomains := selectedDomains st |}.

Definition setLoading (v : bool) (st : State) : State :=
  {| users := users st; loading := v; currentPage := currentPage st;
     totalPages := totalPages st; selectedUser := selectedUser st;
     isEditModalOpen := isEditModalOpen st; searchTerm := searchTerm st;
     isFilterOpen := isFilterOpen st; selectedLetter := selectedLetter st;
     sortDirection := sortDirection st; selectedDomains := selectedDomains st |}.

Definition setCurrentPage (v : Z) (st : State) : State :=
  {| users := users st; loading := loading st; currentPage := v;
     totalPages := totalPages st; selectedUser := selectedUser st;
     isEditModalOpen := isEditModalOpen st; searchTerm := searchTerm st;
     isFilterOpen := isFilterOpen st; selectedLetter := selectedLetter st;
     sortDirection := sortDirection st; selectedDomains := selectedDomains st |}.

Definition setTotalPages (v : Z) (st : State) : State :=
  {| users := users st; loading := loading st; currentPage := currentPage st;
     totalPages := v; selectedUser := selectedUser st;
     isEditModalOpen := isEditModalOpen st; searchTerm := searchTerm st;
     isFilterOpen := isFilterOpen st; selectedLetter := selectedLetter st;
     sortDirection := sortDirection st; selectedDomains := selectedDomains st |}.

Definition setSelectedUser (v : option User) (st : State) : State :=
  {| users := users st; loading := loading st; currentPage := currentPage st;
     totalPages := totalPages st; selectedUser := v;
     isEditModalOpen := isEditModalOpen st; searchTerm := searchTerm st;
     isFilterOpen := isFilterOpen st; selectedLetter := selectedLetter st;
     sortDirection := sortDirection st; selectedDomains := selectedDomains st |}.

Definition setIsEditModalOpen (v : bool) (st : State) : State :=
  {| users := users st; loading := loading st; currentPage := currentPage st;
     totalPages := totalPages st; selectedUser := selectedUser st;
     isEditModalOpen := v; searchTerm := searchTerm st;
     isFilterOpen := isFilterOpen st; selectedLetter := selectedLetter st;
     sortDirection := sortDirection st; selectedDomains := selectedDomains st |}.

Definition setSearchTerm (v : string) (st : State) : State :=
  {| users := users st; loading := loading st; currentPage := currentPage st;
     totalPages := totalPages st; selectedUser := selectedUser st;
     isEditModalOpen := isEditModalOpen st; searchTerm := v;
     isFilterOpen := isFilterOpen st; selectedLetter := selectedLetter st;
     sortDirection := sortDirection st; selectedDomains := selectedDomains st |}.

Definition setIsFilterOpen (v : bool) (st : State) : State :=
  {| users := users st; loading := loading st; currentPage := currentPage st;
     totalPages := totalPages st; selectedUser := selectedUser st;
     isEditModalOpen := isEditModalOpen st; searchTerm := searchTerm st;
     isFilterOpen := v; selectedLetter := selectedLetter st;
     sortDirection := sortDirection st; selectedDomains := selectedDomains st |}.

Definition setSelectedLetter (v : string) (st : State) : State :=
  {| users := users st; loading := loading st; currentPage := currentPage st;
     totalPages := totalPages st; selectedUser := selectedUser st;
     isEditModalOpen := isEditModalOpen st; searchTerm := searchTerm st;
     isFilterOpen := isFilterOpen st; selectedLetter := v;
     sortDirection := sortDirection st; selectedDomains := selectedDomains st |}.

Definition setSortDirection (v : SortDirection) (st : State) : State :=
  {| users := users st; loading := loading st; currentPage := currentPage st;
     totalPages := totalPages st; selectedUser := selectedUser st;
     isEditModalOpen := isEditModalOpen st; searchTerm := searchTerm st;
     isFilterOpen := isFilterOpen st; selectedLetter := selectedLetter st;
     sortDirection := v; selectedDomains := selectedDomains st |}.

Definition setSelectedDomains (v : gset Domain) (st : State) : State :=
  {| users := users st; loading := loading st; currentPage := currentPage st;
     totalPages := totalPages st; selectedUser := selectedUser st;
     isEditModalOpen := isEditModalOpen st; searchTerm := searchTerm st;
     isFilterOpen := isFilterOpen st; selectedLetter := selectedLetter st;
     sortDirection := sortDirection st; selectedDomains := v |}.

(** [fetchUsers] after its [await], on the state of the moment the call
    settles; [finally] clears [loading] either way. *)
Definition fetchSettled (answer : Promise (Api.UsersData User)) (st : State)
  : State * list Effect :=
  match answer with
  | Resolved response =>
      (setLoading false
         (setTotalPages (Api.total_pages response)
            (setUsers (Api.page_data response) st)),
       [])
  | Rejected _ => (setLoading false st, [ToastError "Failed to fetch users"])
  end.

(** [fetchUsers] as a whole, with the answer of the list endpoint as [net]:
    the request is for the current page of the render that called it. *)
Definition fetchUsers (ls : LocalStorage.t) (net : Promise (Api.UsersData User))
    (st : State) : State * list Effect :=
  let '(request, answer) := Api.getUsers ls (currentPage st) net in
  let '(st, effects) := fetchSettled answer st in
  (st, Request request :: effects).

Definition handleEdit (user : User) (st : State) : State :=
  setIsEditModalOpen true (setSelectedUser (Some user) st).

(** [handleDelete] after its [await], on the state of the moment the call
    settles.  [users] is the array of the render in which the button was
    pressed: the handler closes over it, and it is this array that is
    filtered and put into the state. *)
Definition deleteSettled (userId : Z) (users : list User) (answer : Promise unit)
    (st : State) : State * list Effect :=
  match answer with
  | Resolved _ =>
      (setUsers (List.filter (λ user, negb (id user =? userId)%Z) users) st,
       [ToastSuccess "User deleted successfully"])
  | Rejected _ => (st, [ToastError "Failed to delete user"])
  end.

(** [handleDelete] as a whole, with the answer of the delete endpoint as
    [net], when nothing else changes the page before the answer. *)
Definition handleDelete (ls : LocalStorage.t) (userId : Z) (net : Promise unit)
    (st : State) : State * list Effect :=
  let '(request, answer) := Api.deleteUser ls userId net in
  let '(st, effects) := deleteSettled userId (users st) answer st in
  (st, Request request :: effects).

(** [handleUpdate] after its [await]: [selectedUser] and [users] are those
    of the render in which the form was submitted. *)
Definition updateSettled (selectedUser : User) (users : list User)
    (answer : Promise unit) (st : State) : State * list Effect :=
  match answer with
  | Resolved _ =>
      (setIsEditModalOpen false
         (setUsers
            (map (λ user, if (id user =? id selectedUser)%Z then selectedUser else user)
               users)
            st),
       [ToastSuccess "User updated successfully"])
  | Rejected _ => (st, [ToastError "Failed to update user"])
  end.

(** [handleUpdate] as a whole, with the answer of the update endpoint as
    [net], when nothing else changes the page before the answer. *)
Definition handleUpdate (ls : LocalStorage.t) (net : Promise unit)
    (st : State) : State * list Effect :=
  match selectedUser st with
  | None => (st, [])
  | Some selected =>
      let '(request, answer) :=
        Api.updateUser ls (id selected)
          (Api.UserBody (first_name selected) (last_name selected) (email selected))
          net in
      let '(st, effects) := updateSettled selected (users st) answer st in
      (st, Request request :: effects)
  end.

(** The three inputs of the edit form: [{ ...selectedUser, field: value }]. *)
Definition editFirstName (value : string) (st : State) : State :=
  match selectedUser st with
  | Some u =>
      setSelectedUser
        (Some {| id := id u; first_name := value; last_name := last_name u;
                 email := email u; avatar := avatar u |}) st
  | None => st
  end.

Definition editLastName (value : string) (st : State) : State :=
  match selectedUser st with
  | Some u =>
      setSelectedUser
        (Some {| id := id u; first_name := first_name u; last_name := value;
                 email := email u; avatar := avatar u |}) st
  | None => st
  end.

Definition editEmail (value : string) (st : State) : State :=
  match selectedUser st with
  | Some u =>
      setSelectedUser
        (Some {| id := id u; first_name := first_name u; last_name := last_name u;
                 email := value; avatar := avatar u |}) st
  | None => st
  end.

(** [toggleDomain], called with an option of [emailDomains]. *)
Definition toggleDomain (domain : option string) (st : State) : State :=
  let domain := domainValue domain in
  let newDomains := selectedDomains st in
  let newDomains :=
    if bool_decide (domain ∈ newDomains)
    then newDomains ∖ {[domain]}
    else newDomains ∪ {[domain]} in
  setSelectedDomains newDomains st.

(** The button of a letter: [selectedLetter === letter ? '' : letter]. *)
Definition toggleLetter (letter : string) (st : State) : State :=
  setSelectedLetter (if String.eqb (selectedLetter st) letter then "" else letter) st.

(** The component reads the platform's [toLowerCase] and [localeCompare]. *)
Section Filter.
Variable toLowerCase : string → string.
Variable localeCompare : string → string → Z.

Definition searchMatch (debouncedSearchTerm : string) (user : User) : bool :=
  let fullName := toLowerCase (fullName user) in
  let email := toLowerCase (email user) in
  if truthy debouncedSearchTerm
  then includes fullName (toLowerCase debouncedSearchTerm)
       || includes email (toLowerCase debouncedSearchTerm)
  else true.

Definition letterMatch (selectedLetter : string) (user : User) : bool :=
  if truthy selectedLetter
  then bool_decide (toLowerCase (charAt0 (first_name user)) = toLowerCase selectedLetter)
  else true.

(** [selectedDomains.has(user.email.split('@')[1])] when the set is not
    empty: for an address without ['@'] the set is asked for [undefined]. *)
Definition domainMatch (selectedDomains : gset Domain) (user : User) : bool :=
  if (0 <? size selectedDomains)%nat
  then bool_decide (domainValue (emailDomain user) ∈ selectedDomains)
  else true.

(** The callback of [users.filter(...)]. *)
Definition passes (debouncedSearchTerm selectedLetter : string)
    (selectedDomains : gset Domain) (user : User) : bool :=
  searchMatch debouncedSearchTerm user
  && letterMatch selectedLetter user
  && domainMatch selectedDomains user.

(** The callback of [.sort(...)]. *)
Definition compareUsers (sortDirection : SortDirection) (a b : User) : Z :=
  let nameA := toLowerCase (fullName a) in
  let nameB := toLowerCase (fullName b) in
  match sortDirection with
  | asc => localeCompare nameA nameB
  | desc => localeCompare nameB nameA
  end.

(** [filteredUsers]: the list the grid renders. *)
Definition filteredUsers (users : list User)
    (debouncedSearchTerm selectedLetter : string)
    (selectedDomains : gset Domain) (sortDirection : SortDirection) : list User :=
  sort (compareUsers sortDirection)
    (List.filter (passes debouncedSearchTerm selectedLetter selectedDomains) users).

(** *** What the component returns *)

(** [Array.from({ length: totalPages }, (_, i) => i + 1)]: the numbers of
    the pagination row; a length that is not positive gives none. *)
Definition pageNumbers (totalPages : Z) : list Z :=
  (λ i, (Z.of_nat i + 1)%Z) <$> seq 0 (Z.to_nat totalPages).

(** The buttons of the pagination row: each number with the mark of the
    current page, [currentPage === page]. *)
Definition pagination (st : State) : list (Z * bool) :=
  (λ page, (page, (currentPage st =? page)%Z)) <$> pageNumbers (totalPages st).

(** The domain buttons of the filter panel: each option with the mark of a
    selected domain, [selectedDomains.has(domain)]. *)
Definition domainButtons (st : State) : list (option string * bool) :=
  (λ domain, (domain, bool_decide (domainValue domain ∈ selectedDomains st)))
    <$> emailDomains (users st).

(** What stands in the grid: the cards of [filteredUsers], or the message
    that no user matches when that list is empty. *)
Inductive Grid : Type :=
| Cards (shown : list User)
| NoUsersFound.

Definition grid (filteredUsers : list User) : Grid :=
  if (0 <? length filteredUsers)%nat then Cards filteredUsers else NoUsersFound.

(** The edit modal, [isEditModalOpen && selectedUser]: the record in the
    form when the modal is part of the page. *)
Definition editModal (st : State) : option User :=
  if isEditModalOpen st then selectedUser st else None.

(** The page below the search bar: the domain buttons when the filter
    panel is open, the grid, the pagination row and the modal. *)
Record Page : Type := {
  filterPanel : option (list (option string * bool));
  cards : Grid;
  pages : list (Z * bool);
  modal : option User
}.

Inductive View : Type :=
| Spinner
| Rendered (page : Page).

(** The value the component returns: while [loading] the spinner and
    nothing else, then the page.  [debouncedSearchTerm] is the value of the
    [useDebounce] hook at this render. *)
Definition render (debouncedSearchTerm : string) (st : State) : View :=
  if loading st then Spinner
  else
    Rendered
      {| filterPanel := if isFilterOpen st then Some (domainButtons st) else None;
         cards :=
           grid (filteredUsers (users st) debouncedSearchTerm (selectedLetter st)
                   (selectedDomains st) (sortDirection st));
         pages := pagination st;
         modal := editModal st |}.

End Filter.

(** *** Filter preferences in browser storage *)

Definition direction_name (d : SortDirection) : string :=
  match d with
  | asc => "asc"
  | desc => "desc"
  end.

Definition direction_of_name (s : string) : option SortDirection :=
  if String.eqb s "asc" then Some asc
  else if String.eqb s "desc" then Some desc
  else None.

(** A member of the set as [JSON.stringify] writes it inside an array:
    [undefined] is written as [null]. *)
Definition domain_json (d : Domain) : Json.value :=
  match d with
  | Named domain => Json.JString domain
  | Undefined => Json.JNull
  | Null => Json.JNull
  end.

(** An item of the parsed array as a member of the set. *)
Definition as_domain (v : Json.value) : option Domain :=
  match v with
  | Json.JString s => Some (Named s)
  | Json.JNull => Some Null
  | _ => None
  end.

(** The object literal of the save effect; [Array.from(selectedDomains)]
    is the enumeration of the set. *)
Definition savedFilters (st : State) : Json.value :=
  Json.JObject
    [("selectedLetter", Json.JString (selectedLetter st));
     ("sortDirection", Json.JString (direction_name (sortDirection st)));
     ("selectedDomains", Json.JArray (domain_json <$> elements (selectedDomains st)))].

(** The effect that saves the filter preferences. *)
Definition saveFilters (st : State) (ls : LocalStorage.t) : LocalStorage.t :=
  LocalStorage.setItem "userFilters" (Json.stringify (savedFilters st)) ls.

(** The effect that loads them on mount.  [None] where [JSON.parse] throws
    or the parsed object holds other values than the save effect writes: a
    string, the name of a direction, and an array of strings and [null]s. *)
Definition loadFilters (ls : LocalStorage.t) (st : State) : option State :=
  match LocalStorage.getItem "userFilters" ls with
  | Some saved =>
      if truthy saved then
        match Json.parse saved with
        | Some (Json.JObject members) =>
            match Json.get "selectedLetter" members,
                  Json.get "sortDirection" members,
                  Json.get "selectedDomains" members with
            | Some (Json.JString letter), Some (Json.JString name),
              Some (Json.JArray items) =>
                direction ← direction_of_name name;
                domains ← mapM as_domain items;
                Some (setSelectedDomains (list_to_set domains)
                        (setSortDirection direction
                           (setSelectedLetter letter st)))
            | _, _, _ => None
            end
        | _ => None
        end
      else Some st
  | None => Some st
  end.

(** The two filter effects of the first render, in the order the component
    declares them: the save effect runs on the initial cells, then the load
    effect reads the storage.  The result is what the load effect puts into
    the state, and the storage it leaves. *)
Definition mountFilters (ls : LocalStorage.t) : option State * LocalStorage.t :=
  let stored := saveFilters initial ls in
  (loadFilters stored initial, stored).

(** *** A session on the page

    What the user and the service can do once the page is mounted.  A press
    that calls the service leaves a call in flight; its answer is an event of
    its own and may come after other presses and other answers.  The edit
    button exists on the cards of listed users only.  Otherwise the events
    are not tied to what is on the screen (a delete may name any identifier,
    a key may be pressed behind the spinner): the sessions of the model
    include every session of the page. *)

(** A call in flight, with what its handler closed over. *)
Inductive Call : Type :=
| FetchCall (currentPage : Z)
| DeleteCall (userId : Z) (users : list User)
| UpdateCall (selectedUser : User) (users : list User).

Inductive Event : Type :=
| PageClick (page : Z)
| TypeSearch (value : string)
| ToggleFilters
| LetterClick (letter : string)
| DirectionClick (direction : SortDirection)
| DomainClick (domain : option string)
| EditClick (user : User)
| TypeFirstName (value : string)
| TypeLastName (value : string)
| TypeEmail (value : string)
| SubmitEdit
| CancelEdit
| DeleteClick (userId : Z)
| FetchAnswer (call : nat) (net : Promise (Api.UsersData User))
| DeleteAnswer (call : nat) (net : Promise unit)
| UpdateAnswer (call : nat) (net : Promise unit).

(** The page state, the calls in flight in the order they were made, and
    every record a list-users call has returned so far (a ghost cell: the
    component keeps no such list). *)
Record Session : Type := {
  ui : State;
  pending : list Call;
  received : list User
}.

Definition with_ui (st : State) (s : Session) : Session :=
  {| ui := st; pending := pending s; received := received s |}.

Definition calls (call : Call) (s : Session) : Session :=
  {| ui := ui s; pending := pending s ++ [call]; received := received s |}.

(** The call number [call] is answered and leaves the list. *)
Definition settled (call : nat) (st : State) (s : Session) : Session :=
  {| ui := st; pending := delete call (pending s); received := received s |}.

Definition receives (net : Promise (Api.UsersData User)) (s : Session) : Session :=
  {| ui := ui s; pending := pending s;
     received :=
       match net with
       | Resolved response => received s ++ Api.page_data response
       | Rejected _ => received s
       end |}.

(** One event.  An answer to a call that is not in flight, or of the wrong
    kind, is no event of the page and changes nothing. *)
Definition step (s : Session) (ev : Event) : Session :=
  match ev with
  | PageClick page =>
      if (page =? currentPage (ui s))%Z then s
      else calls (FetchCall page) (with_ui (setCurrentPage page (ui s)) s)
  | TypeSearch value => with_ui (setSearchTerm value (ui s)) s
  | ToggleFilters => with_ui (setIsFilterOpen (negb (isFilterOpen (ui s))) (ui s)) s
  | LetterClick letter => with_ui (toggleLetter letter (ui s)) s
  | DirectionClick direction => with_ui (setSortDirection direction (ui s)) s
  | DomainClick domain => with_ui (toggleDomain domain (ui s)) s
  | EditClick user =>
      if bool_decide (user ∈ users (ui s))
      then with_ui (handleEdit user (ui s)) s
      else s
  | TypeFirstName value => with_ui (editFirstName value (ui s)) s
  | TypeLastName value => with_ui (editLastName value (ui s)) s
  | TypeEmail value => with_ui (editEmail value (ui s)) s
  | SubmitEdit =>
      match selectedUser (ui s) with
      | Some selected => calls (UpdateCall selected (users (ui s))) s
      | None => s
      end
  | CancelEdit => with_ui (setIsEditModalOpen false (ui s)) s
  | DeleteClick userId => calls (DeleteCall userId (users (ui s))) s
  | FetchAnswer call net =>
      match pending s !! call with
      | Some (FetchCall _) =>
          receives net (settled call (fst (fetchSettled net (ui s))) s)
      | _ => s
      end
  | DeleteAnswer call net =>
      match pending s !! call with
      | Some (DeleteCall userId users) =>
          settled call (fst (deleteSettled userId users net (ui s))) s
      | _ => s
      end
  | UpdateAnswer call net =>
      match pending s !! call with
      | Some (UpdateCall selected users) =>
          settled call (fst (updateSettled selected users net (ui s))) s
      | _ => s
      end
  end.

Definition run (events : list Event) (s : Session) : Session :=
  foldl step s events.

(** The page as mounted: nothing listed, nothing received, and the call
    for the first page, made by the effect of the first render, in flight. *)
Definition mounted : Session :=
  {| ui := initial; pending := [FetchCall (currentPage initial)]; received := [] |}.

(** The records a call in flight closes over. *)
Definition closed_over (call : Call) : list User :=
  match call with
  | FetchCall _ => []
  | DeleteCall _ users => users
  | UpdateCall selectedUser users => selectedUser :: users
  end.

End Users.

(** * Vocabulary of the properties *)

(** Sample data: three records as the demo service lists them, and states
    of the two pages built from them. *)
Module Sample.
Import Users.

Definition george : User :=
  {| id := 1; first_name := "George"; last_name := "Bluth";
     email := "george.bluth@reqres.in";
     avatar := "https://reqres.in/img/faces/1-image.jpg" |}.

Definition janet : User :=
  {| id := 2; first_name := "Janet"; last_name := "Weaver";
     email := "janet.weaver@reqres.in";
     avatar := "https://reqres.in/img/faces/2-image.jpg" |}.

Definition emma : User :=
  {| id := 3; first_name := "Emma"; last_name := "Wong";
     email := "emma.wong@example.org";
     avatar := "https://reqres.in/img/faces/3-image.jpg" |}.

Definition page : list User := [george; janet; emma].

(** The answer of the service to the request for the first page. *)
Definition firstPage : Js.Promise (Api.UsersData User) :=
  Js.Resolved {| Api.page_data := page; Api.total_pages := 2 |}.

(** Janet's card with the first name retyped in the edit form. *)
Definition jane : User :=
  {| id := 2; first_name := "Jane"; last_name := "Weaver";
     email := "janet.weaver@reqres.in";
     avatar := "https://reqres.in/img/faces/2-image.jpg" |}.

(** The page after Janet's edit button was pressed and the name retyped. *)
Definition editing : State :=
  editFirstName "Jane" (handleEdit janet (setUsers page initial)).

(** The form filled in with the credentials the demo service accepts. *)
Definition eve : Login.State :=
  {| Login.email := "eve.holt@reqres.in"; Login.password := "cityslicka";
     Login.isLoading := false;
     Login.errors := {| Login.errors_email := ""; Login.errors_password := "" |} |}.

(** A record whose address holds no ['@']. *)
Definition nomail : User :=
  {| id := 4; first_name := "Eve"; last_name := "Holt";
     email := "eve.holt.reqres.in";
     avatar := "https://reqres.in/img/faces/4-image.jpg" |}.

(** A record whose address holds two. *)
Definition twoAts : User :=
  {| id := 7; first_name := "Michael"; last_name := "Lawson";
     email := "michael.lawson@reqres.in@example.org";
     avatar := "https://reqres.in/img/faces/7-image.jpg" |}.

(** The first page once it has arrived. *)
Definition listing : Session := run [FetchAnswer 0 firstPage] mounted.

(** The page after the domain of Emma's address was selected and Emma was
    deleted. *)
Definition emmaDeleted : State :=
  ui (run [DomainClick (Some "example.org"); DeleteClick 3;
           DeleteAnswer 0 (Js.Resolved ())] listing).

(** Two records of the same name. *)
Definition ann : User :=
  {| id := 5; first_name := "Ann"; last_name := "Lee";
     email := "ann.lee@reqres.in";
     avatar := "https://reqres.in/img/faces/5-image.jpg" |}.

Definition ann' : User :=
  {| id := 6; first_name := "Ann"; last_name := "Lee";
     email := "ann.lee@example.org";
     avatar := "https://reqres.in/img/faces/6-image.jpg" |}.

End Sample.

Section Vocabulary.
Import Js Users.

(** [t] occurs in [s]: [s] reads some text, then [t], then some text. *)
Definition occurs_in (t s : string) : Prop :=
  ∃ pre post : string, s = pre +:+ t +:+ post.

(** [a] may stand before [b]: the comparator does not put it after. *)
Definition before {A : Type} (cmp : A → A → Z) (a b : A) : Prop :=
  (cmp a b ≤ 0)%Z.

(** Elements the comparator ties with [z]. *)
Definition ties {A : Type} (cmp : A → A → Z) (z a : A) : bool :=
  (cmp z a <=? 0)%Z && (cmp a z <=? 0)%Z.

(** The full name: the first name, a space, the last name. *)
Definition full_name (user : User) : string :=
  first_name user +:+ " " +:+ last_name user.

(** The first character of a text as a text of its own; the empty text has
    the empty text for it. *)
Definition first_character (s first : string) : Prop :=
  (s = "" ∧ first = "") ∨ ∃ c rest, s = String c rest ∧ first = String c "".

(** The part of an address the page takes for its domain: the text between
    the first ['@'] and the next one, or the end of the address. *)
Definition domain_part (address domain : string) : Prop :=
  ∃ local rest,
    address = local +:+ "@" +:+ domain +:+ rest
    ∧ ¬ occurs_in "@" local ∧ ¬ occurs_in "@" domain
    ∧ (rest = "" ∨ ∃ more, rest = "@" +:+ more).

(** The text after an ['@'] of the address: the domain as the
    specification words it. *)
Definition text_after_at (address domain : string) : Prop :=
  ∃ local, address = local +:+ "@" +:+ domain.

(** The member of the selection an address answers to: its domain part,
    and the blank option [undefined] when it holds no ['@']. *)
Definition domain_of (address : string) (d : Domain) : Prop :=
  match d with
  | Named domain => domain_part address domain
  | Undefined => ¬ occurs_in "@" address
  | Null => False
  end.

(** The search term, in lower case, occurs in the lower-cased full name or
    in the lower-cased address; no term, no constraint. *)
Definition search_ok (toLowerCase : string → string) (term : string)
    (user : User) : Prop :=
  term = ""
  ∨ occurs_in (toLowerCase term) (toLowerCase (full_name user))
  ∨ occurs_in (toLowerCase term) (toLowerCase (email user)).

(** The first character of the first name is the selected letter, up to
    case; no letter, no constraint. *)
Definition letter_ok (toLowerCase : string → string) (letter : string)
    (user : User) : Prop :=
  letter = ""
  ∨ ∃ first, first_character (first_name user) first
             ∧ toLowerCase first = toLowerCase letter.

(** The selection holds the member the address answers to; nothing
    selected, no constraint. *)
Definition domain_ok (domains : gset Domain) (user : User) : Prop :=
  domains = ∅ ∨ ∃ d, d ∈ domains ∧ domain_of (email user) d.

(** [a] may be listed before [b] under the given direction: the lower-cased
    full names compare in that order. *)
Definition name_ordered (toLowerCase : string → string)
    (localeCompare : string → string → Z) (direction : SortDirection)
    (a b : User) : Prop :=
  match direction with
  | asc =>
      (localeCompare (toLowerCase (full_name a)) (toLowerCase (full_name b)) ≤ 0)%Z
  | desc =>
      (localeCompare (toLowerCase (full_name b)) (toLowerCase (full_name a)) ≤ 0)%Z
  end.

(** A token is present in browser storage: the key holds a string the
    language counts as true, that is, a non-empty one. *)
Definition token_present (ls : LocalStorage.t) (token : string) : Prop :=
  LocalStorage.getItem "token" ls = Some token ∧ token ≠ "".

(** No token is present: the key is missing or holds the empty string. *)
Definition no_token (ls : LocalStorage.t) : Prop :=
  ∀ token, ¬ token_present ls token.

(** Every character of the string is in the class. *)
Fixpoint all_chars (p : ascii → bool) (s : string) : bool :=
  match s with
  | EmptyString => true
  | String c s' => p c && all_chars p s'
  end.

(** A non-empty run of characters other than white space. *)
Definition word (s : string) : Prop := s ≠ "" ∧ all_chars non_space s = true.

(** The address matches [\S+@\S+\.\S+]: somewhere in it a word, an ['@'], a
    word, a dot and a word follow one another. *)
Definition matches_email_pattern (s : string) : Prop :=
  ∃ pre a b c post,
    s = pre +:+ a +:+ "@" +:+ b +:+ "." +:+ c +:+ post
    ∧ word a ∧ word b ∧ word c.

(** What the form demands of the two inputs. *)
Definition form_valid (st : Login.State) : Prop :=
  Login.email st ≠ "" ∧ matches_email_pattern (Login.email st)
  ∧ Login.password st ≠ "" ∧ (4 ≤ String.length (Login.password st))%nat.

(** A request as the service sees it: method, address and body. *)
Definition request_is (method url : string) (data : Api.Body)
    (request : Api.Config) : Prop :=
  Api.baseURL request = "https://reqres.in/api"
  ∧ Api.method request = method
  ∧ Api.url request = url
  ∧ Api.data request = data.

(** [c] is the small letter [p] or its capital; a character that is no
    small letter stands for itself alone. *)
Definition letter_of (p c : ascii) : Prop :=
  c = p
  ∨ ((97 ≤ nat_of_ascii p ≤ 122)%nat ∧ nat_of_ascii p = (nat_of_ascii c + 32)%nat).

(** The path name spells the route path, in small or capital letters, and
    then reads nothing but slashes. *)
Fixpoint names_route (path pathname : string) : Prop :=
  match path, pathname with
  | EmptyString, rest => all_chars (Ascii.eqb "/") rest = true
  | String p path', String c pathname' => letter_of p c ∧ names_route path' pathname'
  | String _ _, EmptyString => False
  end.

(** An edit that the service accepted. *)
Definition saves_edit (ev : Event) : bool :=
  match ev with
  | UpdateAnswer _ (Resolved _) => true
  | _ => false
  end.

(** A keystroke in the edit form. *)
Definition types_in_form (ev : Event) : bool :=
  match ev with
  | TypeFirstName _ | TypeLastName _ | TypeEmail _ => true
  | _ => false
  end.

(** An answer to a list request. *)
Definition answers_fetch (ev : Event) : bool :=
  match ev with
  | FetchAnswer _ _ => true
  | _ => false
  end.

(** A press of one of the filter buttons. *)
Definition is_filter_click (ev : Event) : bool :=
  match ev with
  | LetterClick _ | DirectionClick _ | DomainClick _ => true
  | _ => false
  end.

(** The list a call in flight closed over, none for a list request. *)
Definition listed_at_press (call : Call) : list User :=
  match call with
  | FetchCall _ => []
  | DeleteCall _ users => users
  | UpdateCall _ users => users
  end.

(** The records the page holds at a moment: the listed ones, the one in
    the edit form, and those the calls in flight closed over. *)
Definition holds (s : Session) (user : User) : Prop :=
  user ∈ users (ui s)
  ∨ selectedUser (ui s) = Some user
  ∨ ∃ call, call ∈ pending s ∧ user ∈ closed_over call.

(** Where a record comes from: the identifier and the avatar are those of
    a received record, and each of the three texts is either that of the
    same received record or was typed into the input of that field. *)
Definition sourced (events : list Event) (s : Session) (user : User) : Prop :=
  ∃ r, r ∈ received s ∧ id user = id r ∧ avatar user = avatar r
       ∧ (first_name user = first_name r ∨ TypeFirstName (first_name user) ∈ events)
       ∧ (last_name user = last_name r ∨ TypeLastName (last_name user) ∈ events)
       ∧ (email user = email r ∨ TypeEmail (email user) ∈ events).

(** The listed records, now and when the calls in flight were made, are
    received ones, field for field. *)
Definition lists_verbatim (s : Session) : Prop :=
  (∀ user, user ∈ users (ui s) → user ∈ received s)
  ∧ ∀ call user, call ∈ pending s → user ∈ listed_at_press call → user ∈ received s.

(** A member of the selection as it comes back from browser storage: the
    blank option comes back as [null]. *)
Definition as_stored (d : Domain) : Domain :=
  match d with
  | Undefined => Null
  | _ => d
  end.

(** The edit of a list that a saved form makes. *)
Definition replaced (selected : User) (users : list User) : list User :=
  (λ user, if decide (id user = id selected) then selected else user) <$> users.

(** [v] is read back, whatever follows its text, by any fuel from its size. *)
Definition reads_back (v : Json.value) : Prop :=
  ∀ fuel rest, (Json.size v ≤ fuel)%nat →
    Json.parse_value fuel (Json.stringify v +:+ rest) = Some (v, rest).

End Vocabulary.

(** * Properties *)

(** ** Strings *)

Section StringFacts.
Import Js.

Lemma append_cons (c : ascii) (s t : string) :
  String c s +:+ t = String c (s +:+ t).
Proof. reflexivity. Qed.

Lemma append_empty_l (s : string) : "" +:+ s = s.
Proof. reflexivity. Qed.

Lemma append_empty_r (s : string) : s +:+ "" = s.
Proof. induction s as [|c s IH]; [done|]. by rewrite append_cons, IH. Qed.

Lemma append_assoc (s t u : string) : (s +:+ t) +:+ u = s +:+ t +:+ u.
Proof. induction s as [|c s IH]; [done|]. by rewrite !append_cons, IH. Qed.

Lemma append_length (s t : string) :
  String.length (s +:+ t) = (String.length s + String.length t)%nat.
Proof. induction s as [|c s IH]; [done|]. rewrite append_cons. simpl. by rewrite IH. Qed.

Lemma truthy_true (s : string) : truthy s = true ↔ s ≠ "".
Proof. destruct s; simpl; split; congruence. Qed.

Lemma truthy_false (s : string) : truthy s = false ↔ s = "".
Proof. destruct s; simpl; split; congruence. Qed.

Lemma startsWith_spec (s t : string) :
  startsWith s t = true ↔ ∃ after, s = t +:+ after.
Proof.
  revert s. induction t as [|b t IH]; intros s.
  - destruct s; simpl; split; eauto.
  - destruct s as [|a s]; simpl.
    + split; [done|]. intros [after H]. by rewrite append_cons in H.
    + destruct (Ascii.eqb_spec a b) as [->|Hne].
      * rewrite IH. split; intros [after H]; exists after.
        -- by rewrite append_cons, H.
        -- rewrite append_cons in H. by injection H.
      * split; [done|]. intros [after H]. rewrite append_cons in H.
        injection H as ? _. contradiction.
Qed.

Lemma includes_spec (s t : string) : includes s t = true ↔ occurs_in t s.
Proof.
  induction s as [|a s IH].
  - cbn [includes]. rewrite orb_false_r, startsWith_spec. split.
    + intros [after H]. by exists "", after.
    + intros ([|c before] & after & H).
      * by exists after.
      * by rewrite append_cons in H.
  - cbn [includes]. rewrite orb_true_iff, startsWith_spec, IH. split.
    + intros [[after H] | (before & after & H)].
      * by exists "", after.
      * exists (String a before), after. by rewrite append_cons, H.
    + intros ([|c before] & after & H).
      * left. by exists after.
      * right. rewrite append_cons in H. injection H as _ H.
        by exists before, after.
Qed.

End StringFacts.

(** ** Sorting with a consistent comparator *)

Section SortFacts.
Import Js.
Context {A : Type} (cmp : A → A → Z).

Lemma sort_insert_perm (x : A) (l : list A) : sort_insert cmp x l ≡ₚ x :: l.
Proof.
  induction l as [|y l IH]; simpl; [done|].
  destruct (cmp x y <=? 0)%Z; [done|].
  rewrite IH. apply Permutation_swap.
Qed.

Lemma sort_perm (l : list A) : sort cmp l ≡ₚ l.
Proof.
  induction l as [|x l IH]; simpl; [done|].
  unfold sort in IH. by rewrite sort_insert_perm, IH.
Qed.

Hypothesis cmp_total : ∀ a b, before cmp a b ∨ before cmp b a.
Hypothesis cmp_trans : ∀ a b c, before cmp a b → before cmp b c → before cmp a c.

Lemma sort_insert_sorted (x : A) (l : list A) :
  StronglySorted (before cmp) l → StronglySorted (before cmp) (sort_insert cmp x l).
Proof.
  induction l as [|y l IH]; intros Hl; simpl.
  - repeat constructor.
  - apply StronglySorted_cons in Hl as [Hy Hl].
    destruct (Z.leb_spec (cmp x y) 0) as [Hxy|Hxy].
    + apply StronglySorted_cons. split.
      * constructor; [done|].
        eapply Forall_impl; [exact Hy|]. intros z Hz. by eapply cmp_trans.
      * by apply StronglySorted_cons.
    + apply StronglySorted_cons. split; [|by apply IH].
      rewrite sort_insert_perm. constructor; [|done].
      destruct (cmp_total y x) as [?|Hyx]; [done|].
      unfold before in Hyx. lia.
Qed.

Lemma sort_sorted (l : list A) : StronglySorted (before cmp) (sort cmp l).
Proof.
  induction l as [|x l IH]; simpl; [constructor|].
  by apply sort_insert_sorted.
Qed.

Lemma sort_insert_ties (z x : A) (l : list A) :
  List.filter (ties cmp z) (sort_insert cmp x l) = List.filter (ties cmp z) (x :: l).
Proof.
  induction l as [|y l IH]; [done|]. cbn [sort_insert].
  destruct (Z.leb_spec (cmp x y) 0) as [Hxy|Hxy]; [done|].
  cbn [List.filter] in *. rewrite IH.
  destruct (ties cmp z x) eqn:Hx, (ties cmp z y) eqn:Hy; try done.
  unfold ties in Hx, Hy.
  apply andb_true_iff in Hx as [_ Hxz%Z.leb_le], Hy as [Hzy%Z.leb_le _].
  pose proof (cmp_trans x z y Hxz Hzy) as Hle. unfold before in Hle. lia.
Qed.

(** The sort is stable: elements that tie keep their order. *)
Lemma sort_stable (z : A) (l : list A) :
  List.filter (ties cmp z) (sort cmp l) = List.filter (ties cmp z) l.
Proof.
  induction l as [|x l IH]; [done|].
  cbn [sort foldr]. rewrite sort_insert_ties. cbn [List.filter].
  unfold sort in IH. by rewrite IH.
Qed.

End SortFacts.

(** The reference comparator is consistent. *)
Section CompareUnits.
Import Js.

Lemma compare_units_total (a b : string) :
  (compare_units a b ≤ 0 ∨ compare_units b a ≤ 0)%Z.
Proof.
  revert b. induction a as [|x a IH]; intros [|y b]; simpl; try lia.
  rewrite (Nat.compare_antisym (nat_of_ascii x) (nat_of_ascii y)).
  destruct (nat_of_ascii x ?= nat_of_ascii y)%nat; simpl; try lia. apply IH.
Qed.

Lemma compare_units_trans (a b c : string) :
  (compare_units a b ≤ 0 → compare_units b c ≤ 0 → compare_units a c ≤ 0)%Z.
Proof.
  revert b c. induction a as [|x a IH]; intros [|y b] [|z c]; simpl; try lia.
  destruct (Nat.compare_spec (nat_of_ascii x) (nat_of_ascii y)) as [Hxy|Hxy|Hxy];
    destruct (Nat.compare_spec (nat_of_ascii y) (nat_of_ascii z)) as [Hyz|Hyz|Hyz];
    try lia.
  - rewrite Hxy, Hyz, Nat.compare_refl. apply IH.
  - intros _ _. assert ((nat_of_ascii x ?= nat_of_ascii z)%nat = Lt) as ->; [|lia].
    apply Nat.compare_lt_iff. lia.
  - intros _ _. assert ((nat_of_ascii x ?= nat_of_ascii z)%nat = Lt) as ->; [|lia].
    apply Nat.compare_lt_iff. lia.
  - intros _ _. assert ((nat_of_ascii x ?= nat_of_ascii z)%nat = Lt) as ->; [|lia].
    apply Nat.compare_lt_iff. lia.
Qed.

End CompareUnits.

(** ** The address part the page calls the domain *)

Section SplitFacts.
Import Js.

Lemma split_nonempty (sep : ascii) (s : string) : split sep s ≠ [].
Proof.
  destruct s as [|c s]; simpl; [done|].
  destruct (Ascii.eqb c sep); [done|]. by destruct (split sep s).
Qed.

(** What [split] returns: a first piece free of the separator and, when the
    separator occurs, the pieces of the text after its first occurrence. *)
Lemma split_inv (sep : ascii) (s piece : string) (rest : list string) :
  split sep s = piece :: rest →
  ¬ occurs_in (String sep "") piece
  ∧ ((rest = [] ∧ s = piece)
     ∨ ∃ tail, s = piece +:+ String sep tail ∧ rest = split sep tail).
Proof.
  revert piece rest. induction s as [|c s IH]; intros piece rest; simpl.
  - intros [= <- <-]. split; [|by left].
    intros ([|? ?] & after & H); by rewrite ?append_cons in H.
  - destruct (Ascii.eqb_spec c sep) as [->|Hne].
    + intros [= <- <-]. split.
      * intros ([|? ?] & after & H); by rewrite ?append_cons in H.
      * right. by exists s.
    + destruct (split sep s) as [|p ps] eqn:Hs; [by apply split_nonempty in Hs|].
      intros [= <- <-]. destruct (IH p ps eq_refl) as [Hfree Hshape]. split.
      * intros ([|c' before] & after & H).
        -- rewrite append_empty_l, append_cons in H. by injection H as -> _.
        -- rewrite !append_cons in H. injection H as _ H.
           apply Hfree. by exists before, after.
      * destruct Hshape as [[-> ->]|(tail & -> & ->)]; [by left|].
        right. by exists tail.
Qed.

Lemma split_free (sep : ascii) (s : string) :
  ¬ occurs_in (String sep "") s → split sep s = [s].
Proof.
  intros Hfree. destruct (split sep s) as [|p ps] eqn:Hs;
    [by apply split_nonempty in Hs|].
  apply split_inv in Hs as [_ [[-> ->]|(tail & -> & _)]]; [done|].
  destruct Hfree. by exists p, tail.
Qed.

Lemma split_at_first (sep : ascii) (piece tail : string) :
  ¬ occurs_in (String sep "") piece →
  split sep (piece +:+ String sep tail) = piece :: split sep tail.
Proof.
  induction piece as [|c piece IH]; intros Hfree.
  - rewrite append_empty_l. simpl. by rewrite Ascii.eqb_refl.
  - rewrite append_cons. simpl.
    destruct (Ascii.eqb_spec c sep) as [->|Hne].
    + destruct Hfree. by exists "", piece.
    + rewrite IH; [done|]. intros (before & after & H). apply Hfree.
      exists (String c before), after. by rewrite append_cons, H.
Qed.

End SplitFacts.

Section DomainFacts.
Import Js Users.

(** An address without ['@'] has no domain: the index expression is
    [undefined]. *)
Lemma emailDomain_none (user : User) :
  emailDomain user = None ↔ ¬ occurs_in "@" (email user).
Proof.
  unfold emailDomain. split.
  - intros Hnone (before & after & H).
    destruct (split "@" (email user)) as [|p ps] eqn:Hs;
      [by apply split_nonempty in Hs|].
    apply split_inv in Hs as [Hfree [[Hps Hp]|(tail & Heq & Hps)]].
    + apply Hfree. exists before, after. by rewrite <- Hp.
    + subst ps. destruct (split "@" tail) eqn:Ht;
        [by apply split_nonempty in Ht|done].
  - intros Hfree. by rewrite split_free.
Qed.

(** For an address [local@domain] with a single ['@'] the domain is the
    text after the ['@']. *)
Lemma emailDomain_single (user : User) (local domain : string) :
  email user = local +:+ "@" +:+ domain →
  ¬ occurs_in "@" local → ¬ occurs_in "@" domain →
  emailDomain user = Some domain.
Proof.
  intros Heq Hlocal Hdomain. unfold emailDomain. rewrite Heq.
  change ("@" +:+ domain) with (String "@" domain).
  by rewrite split_at_first, split_free.
Qed.

(** In general the domain is the text between the first ['@'] and the next
    one, or the end of the address. *)
Lemma emailDomain_some (user : User) (domain : string) :
  emailDomain user = Some domain ↔
  ∃ local rest,
    email user = local +:+ "@" +:+ domain +:+ rest
    ∧ ¬ occurs_in "@" local ∧ ¬ occurs_in "@" domain
    ∧ (rest = "" ∨ ∃ more, rest = "@" +:+ more).
Proof.
  unfold emailDomain. split.
  - intros Hd.
    destruct (split "@" (email user)) as [|p ps] eqn:Hs; [done|].
    apply split_inv in Hs as [Hp [[Hps _]|(tail & Heq & Hps)]]; subst ps; [done|].
    destruct (split "@" tail) as [|q qs] eqn:Ht; [done|].
    simpl in Hd. injection Hd as Hq. subst q.
    apply split_inv in Ht as [Hq [[_ Htail]|(more & Htail & _)]]; subst tail.
    + exists p, "". rewrite append_empty_r. eauto.
    + exists p, ("@" +:+ more). rewrite Heq. eauto 10.
  - intros (local & rest & -> & Hlocal & Hdomain & [->|[more ->]]).
    + rewrite append_empty_r. change ("@" +:+ domain) with (String "@" domain).
      by rewrite split_at_first, split_free.
    + change ("@" +:+ domain +:+ "@" +:+ more)
        with (String "@" (domain +:+ String "@" more)).
      by rewrite split_at_first, split_at_first.
Qed.

End DomainFacts.

(** The two odd addresses of the sample data. *)
Section OddAddresses.
Import Js Users Sample.

Lemma twoAts_text_after_at (domain : string) :
  text_after_at (email twoAts) domain →
  domain = "reqres.in@example.org" ∨ domain = "example.org".
Proof.
  intros [local Heq]. cbn in Heq.
  repeat (destruct local as [|? local];
          [vm_compute in Heq; first [discriminate|injection Heq as <-; auto]
          |rewrite append_cons in Heq; injection Heq as _ Heq]).
  destruct local; vm_compute in Heq; discriminate.
Qed.

Lemma nomail_text_after_at (domain : string) : ¬ text_after_at (email nomail) domain.
Proof.
  intros [local Heq].
  assert (emailDomain nomail = None) as Hnone%emailDomain_none by reflexivity.
  apply Hnone. by exists local, domain.
Qed.

End OddAddresses.

(** ** The displayed list *)

Section FilteredUsers.
Import Js Users.
Variable toLowerCase : string → string.
Variable localeCompare : string → string → Z.

Lemma searchMatch_spec (term : string) (user : User) :
  searchMatch toLowerCase term user = true ↔ search_ok toLowerCase term user.
Proof.
  unfold searchMatch, search_ok, full_name, fullName.
  destruct (truthy term) eqn:Ht.
  - apply truthy_true in Ht. rewrite orb_true_iff, !includes_spec. tauto.
  - apply truthy_false in Ht. tauto.
Qed.

Lemma charAt0_spec (s first : string) : charAt0 s = first ↔ first_character s first.
Proof.
  unfold first_character. destruct s as [|c s]; cbn.
  - split; [intros <-; by left|]. by intros [[_ ->]|(c & rest & ? & _)].
  - split; [intros <-; right; by exists c, s|].
    intros [[? _]|(c' & rest & [= <- <-] & ->)]; done.
Qed.

Lemma letterMatch_spec (letter : string) (user : User) :
  letterMatch toLowerCase letter user = true ↔ letter_ok toLowerCase letter user.
Proof.
  unfold letterMatch, letter_ok. destruct (truthy letter) eqn:Ht.
  - apply truthy_true in Ht. rewrite bool_decide_eq_true. split.
    + intros Heq. right. exists (charAt0 (first_name user)).
      split; [by apply charAt0_spec|done].
    + intros [?|(first & <-%charAt0_spec & Heq)]; done.
  - apply truthy_false in Ht. split; [tauto|done].
Qed.

(** The value the set is asked for is the member the address answers to. *)
Lemma domainValue_spec (user : User) (d : Domain) :
  domainValue (emailDomain user) = d ↔ domain_of (email user) d.
Proof.
  destruct d as [domain| |]; cbn; unfold domain_part.
  - rewrite <- emailDomain_some. destruct (emailDomain user); cbn; split; congruence.
  - rewrite <- emailDomain_none. destruct (emailDomain user); cbn; split; congruence.
  - by destruct (emailDomain user).
Qed.

Lemma domainMatch_spec (domains : gset Domain) (user : User) :
  domainMatch domains user = true ↔ domain_ok domains user.
Proof.
  unfold domainMatch, domain_ok.
  destruct (Nat.ltb_spec 0 (size domains)) as [Hpos|Hzero].
  - assert (domains ≠ ∅) by (intros ->; rewrite size_empty in Hpos; lia).
    rewrite bool_decide_eq_true. split.
    + intros Hin. right. exists (domainValue (emailDomain user)).
      split; [done|]. by apply domainValue_spec.
    + intros [?|(d & Hin & <-%domainValue_spec)]; done.
  - assert (domains = ∅) by (apply leibniz_equiv, size_empty_iff; lia).
    tauto.
Qed.

Lemma passes_spec (term letter : string) (domains : gset Domain) (user : User) :
  passes toLowerCase term letter domains user = true
  ↔ search_ok toLowerCase term user ∧ letter_ok toLowerCase letter user ∧ domain_ok domains user.
Proof.
  unfold passes.
  rewrite !andb_true_iff, searchMatch_spec, letterMatch_spec, domainMatch_spec.
  tauto.
Qed.

Hypothesis localeCompare_total :
  ∀ a b, (localeCompare a b ≤ 0 ∨ localeCompare b a ≤ 0)%Z.
Hypothesis localeCompare_trans :
  ∀ a b c, (localeCompare a b ≤ 0 → localeCompare b c ≤ 0 → localeCompare a c ≤ 0)%Z.

(** C1, as the code has it.  For every list of users and every filter
    state, the displayed list [filteredUsers] holds exactly the listed users
    that pass three tests, each as often as the fetched list holds it: the
    search term (as debounced), lower-cased, occurs in the lower-cased text
    "first name, space, last name" or in the lower-cased address; the first
    character of the first name equals the selected letter up to case; and the
    selection holds the member the address answers to, which is the text
    between its first ['@'] and the next ['@'] or the end, and the blank
    option for an address without ['@'].  A test is vacuous when its filter is
    not set.  The list is ordered by the lower-cased full name, ascending for
    [asc], descending for [desc].  The comparison of the platform is assumed
    consistent (total and transitive), as the sort of the language requires. *)
Theorem filteredUsers_spec (users : list User) (term letter : string)
    (domains : gset Domain) (direction : SortDirection) :
  let shown := filteredUsers toLowerCase localeCompare users term letter domains direction in
  (∀ user, user ∈ shown ↔
     user ∈ users ∧ search_ok toLowerCase term user ∧ letter_ok toLowerCase letter user
     ∧ domain_ok domains user)
  ∧ (∀ user, count_occ User_eq_dec shown user
             = if decide (user ∈ shown) then count_occ User_eq_dec users user else 0%nat)
  ∧ StronglySorted (name_ordered toLowerCase localeCompare direction) shown.
Proof.
  intros shown.
  assert (∀ user, user ∈ shown ↔
     user ∈ users ∧ search_ok toLowerCase term user ∧ letter_ok toLowerCase letter user
     ∧ domain_ok domains user) as Hmem.
  { intros user. subst shown. unfold filteredUsers.
    rewrite sort_perm, list_elem_of_In, filter_In, passes_spec.
    by rewrite <- list_elem_of_In. }
  split; [done|]. split.
  - intros user. subst shown. unfold filteredUsers in *.
    case_decide as Hin; [|by apply count_occ_not_In; rewrite <- list_elem_of_In].
    rewrite sort_perm, list_elem_of_In, filter_In in Hin. destruct Hin as [_ Hp].
    rewrite (proj1 (Permutation_count_occ User_eq_dec _ _) (sort_perm _ _)).
    clear Hmem. induction users as [|u l IH]; [done|]. cbn [List.filter].
    destruct (decide (u = user)) as [->|Hne].
    + rewrite Hp. cbn [count_occ]. destruct (User_eq_dec user user); [|done].
      by rewrite IH.
    + destruct (passes toLowerCase term letter domains u); cbn [count_occ];
        destruct (User_eq_dec u user); done.
  - subst shown. unfold filteredUsers. destruct direction.
    + apply (sort_sorted (compareUsers toLowerCase localeCompare asc)).
      * intros a b. apply localeCompare_total.
      * intros a b c. apply localeCompare_trans.
    + apply (sort_sorted (compareUsers toLowerCase localeCompare desc)).
      * intros a b. apply localeCompare_total.
      * intros a b c ? ?. by eapply localeCompare_trans.
Qed.

End FilteredUsers.

Section FilteredUsersExamples.
Import Js Users Sample.

Example filteredUsers_all_asc :
  filteredUsers lower_string compare_units page "" "" ∅ asc = [emma; george; janet].
Proof. vm_compute. reflexivity. Qed.

Example filteredUsers_search_desc :
  filteredUsers lower_string compare_units page "REQRES" "" ∅ desc = [janet; george].
Proof. vm_compute. reflexivity. Qed.

Example filteredUsers_letter :
  filteredUsers lower_string compare_units page "" "J" ∅ asc = [janet].
Proof. vm_compute. reflexivity. Qed.

Example filteredUsers_domain :
  filteredUsers lower_string compare_units page "" "" {[Named "example.org"]} asc
  = [emma].
Proof. vm_compute. reflexivity. Qed.

Lemma filteredUsers_spec_witness :
  let shown :=
    filteredUsers lower_string compare_units page "e" "" {[Named "reqres.in"]} desc in
  (∀ user, user ∈ shown ↔
     user ∈ page ∧ search_ok lower_string "e" user ∧ letter_ok lower_string "" user
     ∧ domain_ok {[Named "reqres.in"]} user)
  ∧ (∀ user, count_occ User_eq_dec shown user
             = if decide (user ∈ shown) then count_occ User_eq_dec page user else 0%nat)
  ∧ StronglySorted (name_ordered lower_string compare_units desc) shown.
Proof.
  exact (filteredUsers_spec lower_string compare_units
           compare_units_total compare_units_trans page "e" "" {[Named "reqres.in"]} desc).
Defined.

(** C1 as stated fails where the address holds more than one ['@'], or
    none.  The address of [twoAts] reads [michael.lawson], an ['@'], and then
    [reqres.in@example.org]; [example.org] is what follows its last ['@'].
    With either text selected the user is not displayed; with [reqres.in]
    selected, which follows no ['@'] to the end, the user is displayed.  And a
    user whose address holds no ['@'] is displayed when the blank option is
    the selection. *)
Lemma domain_is_not_text_after_at :
  text_after_at (email twoAts) "reqres.in@example.org"
  ∧ text_after_at (email twoAts) "example.org"
  ∧ filteredUsers lower_string compare_units [twoAts] "" ""
      {[Named "reqres.in@example.org"; Named "example.org"]} asc = []
  ∧ ¬ text_after_at (email twoAts) "reqres.in"
  ∧ filteredUsers lower_string compare_units [twoAts] "" "" {[Named "reqres.in"]} asc
    = [twoAts]
  ∧ (∀ domain, ¬ text_after_at (email nomail) domain)
  ∧ filteredUsers lower_string compare_units [nomail] "" ""
      (selectedDomains (toggleDomain None (setUsers [nomail] initial))) asc
    = [nomail].
Proof.
  split; [by exists "michael.lawson"|].
  split; [by exists "michael.lawson@reqres.in"|].
  split; [vm_compute; reflexivity|].
  split; [by intros [?|?]%twoAts_text_after_at|].
  split; [vm_compute; reflexivity|].
  split; [apply nomail_text_after_at|vm_compute; reflexivity].
Qed.

End FilteredUsersExamples.

(** ** The domain filter options *)

Section EmailDomains.
Import Js Users.

Lemma elem_of_set_add {A} `{EqDecision A} (x y : A) (l : list A) :
  y ∈ set_add x l ↔ y = x ∨ y ∈ l.
Proof.
  unfold set_add. destruct (decide (x ∈ l)) as [Hin|Hout].
  - split; [by right|]. by intros [->|?].
  - rewrite elem_of_app, list_elem_of_singleton. tauto.
Qed.

Lemma NoDup_set_add {A} `{EqDecision A} (x : A) (l : list A) :
  NoDup l → NoDup (set_add x l).
Proof.
  intros Hl. unfold set_add. destruct (decide (x ∈ l)) as [Hin|Hout]; [done|].
  apply NoDup_app. split; [done|]. split.
  - intros y Hy ->%list_elem_of_singleton. contradiction.
  - apply NoDup_singleton.
Qed.

Lemma foldl_set_add (users : list User) (acc : list (option string)) :
  NoDup acc →
  NoDup (foldl (λ domains user, set_add (emailDomain user) domains) acc users)
  ∧ ∀ d, d ∈ foldl (λ domains user, set_add (emailDomain user) domains) acc users
         ↔ d ∈ acc ∨ ∃ user, user ∈ users ∧ emailDomain user = d.
Proof.
  revert acc. induction users as [|u users IH]; intros acc Hacc; simpl.
  - split; [done|]. intros d. split; [by left|].
    intros [?|(user & Hin & _)]; [done|]. by apply elem_of_nil in Hin.
  - destruct (IH (set_add (emailDomain u) acc)) as [Hnodup Hmem];
      [by apply NoDup_set_add|].
    split; [done|]. intros d. rewrite Hmem, elem_of_set_add. split.
    + intros [[->|?]|(user & Hin & Heq)].
      * right. exists u. split; [apply list_elem_of_here|done].
      * by left.
      * right. exists user. split; [by apply list_elem_of_further|done].
    + intros [?|(user & Hin & Heq)]; [by left; right|].
      apply elem_of_cons in Hin as [->|Hin]; [by left; left|].
      right. by exists user.
Qed.

(** C7, as the code has it.  For every fetched list of users the filter
    options offered are, without repetition, exactly the values of
    [email.split('@')[1]] of those users' addresses.  A text is offered if and
    only if some listed address reads it between its first ['@'] and the next
    ['@'] or the end; the blank option [undefined] (here [None]) is offered
    if and only if some listed address holds no ['@'].  Every listed user
    answers to one of the options, and nothing else is offered. *)
Theorem emailDomains_spec (users : list User) :
  NoDup (emailDomains users)
  ∧ (∀ domain, Some domain ∈ emailDomains users ↔
       ∃ user, user ∈ users ∧ domain_part (email user) domain)
  ∧ (None ∈ emailDomains users ↔
       ∃ user, user ∈ users ∧ ¬ occurs_in "@" (email user))
  ∧ (∀ user, user ∈ users →
       (∃ domain, domain_part (email user) domain ∧ Some domain ∈ emailDomains users)
       ∨ (¬ occurs_in "@" (email user) ∧ None ∈ emailDomains users)).
Proof.
  destruct (foldl_set_add users [] (NoDup_nil_2 (A:=option string))) as [Hnodup Hmem].
  assert (∀ d, d ∈ emailDomains users ↔ ∃ user, user ∈ users ∧ emailDomain user = d)
    as Hoptions.
  { intros d. unfold emailDomains. rewrite Hmem. split; [|by right].
    intros [Hnil|?]; [|done]. by apply elem_of_nil in Hnil. }
  split; [done|]. split; [|split].
  - intros domain. rewrite Hoptions. unfold domain_part.
    split; intros (user & Hin & Hd); exists user; (split; [done|]);
      by apply emailDomain_some.
  - rewrite Hoptions.
    split; intros (user & Hin & Hd); exists user; (split; [done|]);
      by apply emailDomain_none.
  - intros user Hin. destruct (emailDomain user) as [domain|] eqn:Hd.
    + left. exists domain. split; [by apply emailDomain_some|].
      apply Hoptions. by exists user.
    + right. split; [by apply emailDomain_none|]. apply Hoptions. by exists user.
Qed.

Example emailDomains_page :
  emailDomains Sample.page = [Some "reqres.in"; Some "example.org"].
Proof. vm_compute. reflexivity. Qed.

End EmailDomains.

Section EmailDomainsExamples.
Import Js Users Sample.

(** C7 as stated fails on a page with the two odd addresses.  The options
    are [reqres.in], which is not what follows an ['@'] of an address, and the
    blank option [undefined], which is no text at all; the texts that do
    follow an ['@'] of the address of [twoAts] are not offered. *)
Lemma options_are_not_texts_after_at :
  emailDomains [twoAts; nomail] = [Some "reqres.in"; None]
  ∧ (∀ user, user ∈ [twoAts; nomail] → ¬ text_after_at (email user) "reqres.in")
  ∧ text_after_at (email twoAts) "reqres.in@example.org"
  ∧ text_after_at (email twoAts) "example.org"
  ∧ (Some "reqres.in@example.org" ∉ emailDomains [twoAts; nomail])
  ∧ (Some "example.org" ∉ emailDomains [twoAts; nomail]).
Proof.
  split; [vm_compute; reflexivity|]. split.
  { intros user Hin.
    apply elem_of_cons in Hin as [->|Hin].
    - by intros [?|?]%twoAts_text_after_at.
    - apply elem_of_cons in Hin as [->|Hin]; [apply nomail_text_after_at|].
      by apply elem_of_nil in Hin. }
  split; [by exists "michael.lawson"|].
  split; [by exists "michael.lawson@reqres.in"|].
  assert (emailDomains [twoAts; nomail] = [Some "reqres.in"; None]) as ->
    by (vm_compute; reflexivity).
  split; intros Hin;
    (repeat (apply elem_of_cons in Hin as [?|Hin]; [done|]));
    by apply elem_of_nil in Hin.
Qed.

End EmailDomainsExamples.

(** ** Deleting and editing a user *)

Section EditDelete.
Import Js Users.

Lemma filter_not_id (userId : Z) (l : list User) :
  List.filter (λ user, negb (id user =? userId)%Z) l
  = filter (λ user, id user ≠ userId) l.
Proof.
  induction l as [|u l IH]; [done|]. simpl. rewrite filter_cons, IH.
  destruct (Z.eqb_spec (id u) userId); simpl; by case_decide.
Qed.

Lemma map_replace (selected : User) (l : list User) :
  map (λ user, if (id user =? id selected)%Z then selected else user) l
  = replaced selected l.
Proof.
  apply list_fmap_ext. intros _ u _.
  destruct (Z.eqb_spec (id u) (id selected)); by case_decide.
Qed.

(** The interceptor leaves method, address and body of a request alone. *)
Lemma send_request_is (ls : LocalStorage.t) (method url : string) (data : Api.Body) :
  request_is method url data (Api.send ls method url data).
Proof.
  unfold request_is, Api.send, Api.interceptor.
  destruct (LocalStorage.getItem "token" ls) as [t|]; [|done].
  by destruct (truthy t).
Qed.

(** C9.  After [handleDelete(userId)] succeeds the local list is the
    original list without the records of that id: a record is listed if and
    only if it was listed and has another id, the records that stay are
    unchanged and keep their relative order, and no other state cell
    changes. *)
Theorem handleDelete_resolved (ls : LocalStorage.t) (userId : Z) (st : State) :
  let st' := fst (handleDelete ls userId (Resolved ()) st) in
  users st' = filter (λ user, id user ≠ userId) (users st)
  ∧ (∀ user, user ∈ users st' ↔ user ∈ users st ∧ id user ≠ userId)
  ∧ users st' `sublist_of` users st
  ∧ st' = setUsers (users st') st.
Proof.
  cbn. rewrite filter_not_id. split; [done|]. split; [|split].
  - intros user. rewrite list_elem_of_filter. tauto.
  - apply sublist_filter.
  - done.
Qed.

Example handleDelete_janet :
  users (fst (handleDelete ∅ 2 (Resolved ()) (setUsers Sample.page initial)))
  = [Sample.george; Sample.emma].
Proof. reflexivity. Qed.

(** C2, as the code has it.  Both handlers call the external service
    first: a [delete] of [/users/id], and a [put] to [/users/id] carrying the
    three edited fields.  The local list is reconciled when, and only when,
    that call succeeds: a delete then leaves the records of every other id,
    an edit then puts the edited record in the place of each record of its id
    and closes the modal.  When the call fails the whole page state stays as
    it was and an error toast is raised.  (A submit without a record in the
    form does nothing at all.) *)
Theorem edit_delete_reconcile (ls : LocalStorage.t) (st : State)
    (userId : Z) (net : Promise unit) :
  let deleted := handleDelete ls userId net st in
  let updated := handleUpdate ls net st in
  (∃ request,
     head (snd deleted) = Some (Request request)
     ∧ request_is "delete" ("/users/" +:+ pretty userId) Api.NoBody request)
  ∧ match net with
    | Resolved _ =>
        users (fst deleted) = filter (λ user, id user ≠ userId) (users st)
        ∧ last (snd deleted) = Some (ToastSuccess "User deleted successfully")
    | Rejected _ =>
        fst deleted = st
        ∧ last (snd deleted) = Some (ToastError "Failed to delete user")
    end
  ∧ (selectedUser st = None → updated = (st, []))
  ∧ ∀ selected, selectedUser st = Some selected →
      (∃ request,
         head (snd updated) = Some (Request request)
         ∧ request_is "put" ("/users/" +:+ pretty (id selected))
             (Api.UserBody (first_name selected) (last_name selected) (email selected))
             request)
      ∧ match net with
        | Resolved _ =>
            users (fst updated) = replaced selected (users st)
            ∧ isEditModalOpen (fst updated) = false
            ∧ last (snd updated) = Some (ToastSuccess "User updated successfully")
        | Rejected _ =>
            fst updated = st
            ∧ last (snd updated) = Some (ToastError "Failed to update user")
        end.
Proof.
  cbn zeta. split; [|split; [|split]].
  - eexists. split; [|apply send_request_is]. unfold handleDelete. cbn.
    by destruct net as [[]|reason].
  - unfold handleDelete. destruct net as [[]|reason]; cbn; [|done].
    by rewrite filter_not_id.
  - intros Hnone. unfold handleUpdate. by rewrite Hnone.
  - intros selected Hsel. unfold handleUpdate. rewrite Hsel. split.
    + eexists. split; [|apply send_request_is]. cbn. by destruct net as [[]|reason].
    + destruct net as [[]|reason]; cbn; [|done]. by rewrite map_replace.
Qed.

End EditDelete.

Section EditDeleteExamples.
Import Js Users Sample.

Lemma edit_delete_reconcile_witness :
  let deleted := handleDelete ∅ 2 (Resolved ()) editing in
  let updated := handleUpdate ∅ (Resolved ()) editing in
  users (fst deleted) = filter (λ user, id user ≠ 2%Z) (users editing)
  ∧ last (snd deleted) = Some (ToastSuccess "User deleted successfully")
  ∧ (∃ request,
       head (snd updated) = Some (Request request)
       ∧ request_is "put" ("/users/" +:+ pretty (id jane))
           (Api.UserBody (first_name jane) (last_name jane) (email jane)) request)
  ∧ users (fst updated) = replaced jane (users editing)
  ∧ isEditModalOpen (fst updated) = false
  ∧ last (snd updated) = Some (ToastSuccess "User updated successfully").
Proof.
  pose proof (edit_delete_reconcile ∅ editing 2 (Resolved ())) as (_ & Hdel & _ & Hupd).
  destruct (Hupd jane eq_refl) as [Hreq Hres].
  exact (conj (proj1 Hdel) (conj (proj2 Hdel) (conj Hreq Hres))).
Defined.

(** C2 as stated fails: when the service rejects the call, the deleted id
    is still listed and the edited record has not replaced the old one. *)
Lemma reconcile_waits_for_service :
  let deleted := fst (handleDelete ∅ 2 (Rejected "Network Error") editing) in
  let updated := fst (handleUpdate ∅ (Rejected "Network Error") editing) in
  selectedUser editing = Some jane
  ∧ users editing = [george; janet; emma]
  ∧ users deleted = [george; janet; emma]
  ∧ id janet = 2%Z
  ∧ users updated = [george; janet; emma]
  ∧ jane ≠ janet.
Proof. repeat split; done. Qed.

End EditDeleteExamples.

(** ** Where the records of the page come from *)

Section Provenance.
Import Js Users.

Lemma run_snoc (events : list Event) (ev : Event) (s : Session) :
  run (events ++ [ev]) s = step (run events s) ev.
Proof. unfold run. by rewrite foldl_app. Qed.

Lemma holds_calls (call : Call) (s : Session) (user : User) :
  holds (calls call s) user ↔ holds s user ∨ user ∈ closed_over call.
Proof.
  unfold holds, calls. cbn. split.
  - intros [?|[?|(c & [Hc| ->%list_elem_of_singleton]%elem_of_app & Hin)]]; eauto 8.
  - intros [[?|[?|(c & Hc & Hin)]]|Hin]; eauto.
    + right. right. exists c. split; [|done]. apply elem_of_app. by left.
    + right. right. exists call. split; [|done]. apply elem_of_app. right.
      by apply list_elem_of_singleton.
Qed.

(** What an event can add to the records the page holds: nothing but the
    records of an answered list request and the record of the form with one
    field retyped. *)
Lemma holds_step (P : User → Prop) (s : Session) (ev : Event) :
  (∀ user, holds s user → P user) →
  (∀ call page response user,
     ev = FetchAnswer call (Resolved response) →
     pending s !! call = Some (FetchCall page) →
     user ∈ Api.page_data response → P user) →
  (∀ u, selectedUser (ui s) = Some u →
     match ev with
     | TypeFirstName value =>
         P {| id := id u; first_name := value; last_name := last_name u;
              email := email u; avatar := avatar u |}
     | TypeLastName value =>
         P {| id := id u; first_name := first_name u; last_name := value;
              email := email u; avatar := avatar u |}
     | TypeEmail value =>
         P {| id := id u; first_name := first_name u; last_name := last_name u;
              email := value; avatar := avatar u |}
     | _ => True
     end) →
  ∀ user, holds (step s ev) user → P user.
Proof.
  intros Hold Hnew Htyped user.
  assert (∀ call c, pending s !! call = Some c →
          ∀ u, u ∈ closed_over c → P u) as Hcall.
  { intros call c Hc u Hu. apply Hold. right. right. exists c.
    split; [by eapply list_elem_of_lookup_2|done]. }
  assert (∀ call st,
    (∀ u, u ∈ users st → P u) → (∀ u, selectedUser st = Some u → P u) →
    holds (settled call st s) user → P user) as Hsettled.
  { intros call st Hu Hsel [?|[?|(c & Hc%list_elem_of_delete_inv & Hin)]]; eauto.
    apply Hold. right. right. eauto. }
  destruct ev; cbn [step].
  - destruct (page =? currentPage (ui s))%Z; [apply Hold|].
    rewrite holds_calls. intros [?|Hin]; [by apply Hold|]. by apply elem_of_nil in Hin.
  - apply Hold.
  - apply Hold.
  - apply Hold.
  - apply Hold.
  - apply Hold.
  - case_bool_decide as Hin; [|apply Hold].
    intros [?|[[= <-]|?]]; apply Hold; unfold holds; eauto.
  - unfold editFirstName. destruct (selectedUser (ui s)) as [u|] eqn:Hu; [|apply Hold].
    intros [?|[[= <-]|?]]; [apply Hold; unfold holds; eauto|by apply (Htyped u)|].
    apply Hold; unfold holds; eauto.
  - unfold editLastName. destruct (selectedUser (ui s)) as [u|] eqn:Hu; [|apply Hold].
    intros [?|[[= <-]|?]]; [apply Hold; unfold holds; eauto|by apply (Htyped u)|].
    apply Hold; unfold holds; eauto.
  - unfold editEmail. destruct (selectedUser (ui s)) as [u|] eqn:Hu; [|apply Hold].
    intros [?|[[= <-]|?]]; [apply Hold; unfold holds; eauto|by apply (Htyped u)|].
    apply Hold; unfold holds; eauto.
  - destruct (selectedUser (ui s)) as [u|] eqn:Hu; [|apply Hold].
    rewrite holds_calls. intros [?|Hin]; [by apply Hold|].
    apply elem_of_cons in Hin as [->|Hin]; apply Hold; unfold holds; eauto.
  - apply Hold.
  - rewrite holds_calls. intros [?|Hin]; apply Hold; unfold holds; eauto.
  - destruct (pending s !! call) as [[page| |]|] eqn:Hc; try apply Hold.
    destruct net as [response|reason]; cbn.
    + apply Hsettled; cbn; [by eauto|]. intros u Hu. apply Hold. unfold holds. eauto.
    + apply Hsettled; cbn; intros u Hu; apply Hold; unfold holds; eauto.
  - destruct (pending s !! call) as [[|userId captured|]|] eqn:Hc; try apply Hold.
    destruct net as [[]|reason]; cbn.
    + apply Hsettled; cbn.
      * intros u Hu. rewrite filter_not_id in Hu.
        apply list_elem_of_filter in Hu as [_ Hu]. by eapply Hcall.
      * intros u Hu. apply Hold. unfold holds. eauto.
    + apply Hsettled; cbn; intros u Hu; apply Hold; unfold holds; eauto.
  - destruct (pending s !! call) as [[| |selected captured]|] eqn:Hc; try apply Hold.
    destruct net as [[]|reason]; cbn.
    + apply Hsettled; cbn.
      * intros u Hu. rewrite map_replace in Hu.
        apply list_elem_of_fmap in Hu as (old & -> & Hin).
        eapply Hcall; [exact Hc|]. cbn.
        case_decide; [apply list_elem_of_here|by apply list_elem_of_further].
      * intros u Hu. apply Hold. unfold holds. eauto.
    + apply Hsettled; cbn; intros u Hu; apply Hold; unfold holds; eauto.
Qed.

Lemma sourced_mono (events events' : list Event) (s s' : Session) (user : User) :
  (∀ ev, ev ∈ events → ev ∈ events') →
  (∀ r, r ∈ received s → r ∈ received s') →
  sourced events s user → sourced events' s' user.
Proof.
  intros Hev Hrec (r & Hr & Hid & Hav & Hf & Hl & He).
  exists r. repeat split; [by apply Hrec|done|done|..];
    [destruct Hf|destruct Hl|destruct He]; auto.
Qed.

Lemma received_step (s : Session) (ev : Event) (r : User) :
  r ∈ received s → r ∈ received (step s ev).
Proof.
  intros Hr. destruct ev; cbn [step]; try done.
  - by destruct (page =? currentPage (ui s))%Z.
  - by case_bool_decide.
  - by destruct (selectedUser (ui s)).
  - destruct (pending s !! call) as [[| |]|]; try done.
    destruct net; cbn; [|done]. apply elem_of_app. by left.
  - by destruct (pending s !! call) as [[| |]|].
  - by destruct (pending s !! call) as [[| |]|].
Qed.

Lemma received_fetched (s : Session) (call : nat) (page : Z)
    (response : Api.UsersData User) (user : User) :
  pending s !! call = Some (FetchCall page) →
  user ∈ Api.page_data response →
  user ∈ received (step s (FetchAnswer call (Resolved response))).
Proof.
  intros Hc Hin. cbn [step]. rewrite Hc. cbn. apply elem_of_app. by right.
Qed.

(** Every record the page holds is sourced: identifier and avatar from a
    received record, the texts from it or from the keyboard. *)
Lemma step_sourced (events : list Event) (s : Session) (ev : Event) :
  (∀ user, holds s user → sourced events s user) →
  ∀ user, holds (step s ev) user → sourced (events ++ [ev]) (step s ev) user.
Proof.
  intros Hs. apply holds_step.
  - intros user Hu. eapply sourced_mono; [| |by apply Hs].
    + intros e He. apply elem_of_app. by left.
    + intros r. apply received_step.
  - intros call page response user -> Hc Hin.
    exists user. split; [by eapply received_fetched|]. auto 10.
  - intros u Hu.
    assert (sourced events s u) as (r & Hr & Hid & Hav & Hf & Hl & He)
      by (apply Hs; unfold holds; auto).
    assert (ev ∈ events ++ [ev]) as Hev
      by (apply elem_of_app; right; apply list_elem_of_singleton; done).
    assert (∀ e, e ∈ events → e ∈ events ++ [ev]) as Hmono
      by (intros e Hin; apply elem_of_app; by left).
    destruct ev; try done; exists r; cbn;
      (split; [first [done|by apply received_step]|]); (split; [done|]); (split; [done|]);
      (split; [|split]); try (by right).
    all: first [destruct Hf as [Hf|Hf]; [by left|right; by apply Hmono]
               |destruct Hl as [Hl|Hl]; [by left|right; by apply Hmono]
               |destruct He as [He|He]; [by left|right; by apply Hmono]].
Qed.

Lemma run_sourced (events : list Event) (user : User) :
  holds (run events mounted) user → sourced events (run events mounted) user.
Proof.
  revert user. induction events as [|ev events IH] using rev_ind.
  - intros user [Hin|[?|(call & Hc & Hin)]]; [by apply elem_of_nil in Hin|done|].
    apply list_elem_of_singleton in Hc as ->. by apply elem_of_nil in Hin.
  - intros user. rewrite run_snoc. by apply step_sourced.
Qed.



Lemma step_lists_verbatim (s : Session) (ev : Event) :
  saves_edit ev = false → lists_verbatim s → lists_verbatim (step s ev).
Proof.
  intros Hev [Husers Hcalls].
  assert (∀ call st,
    (∀ u, u ∈ users st → u ∈ received s) → lists_verbatim (settled call st s))
    as Hsettled.
  { intros call st Hst. split; [done|].
    intros c u Hc%list_elem_of_delete_inv. by apply Hcalls. }
  assert (∀ call,
    (∀ u, u ∈ listed_at_press call → u ∈ received s) → lists_verbatim (calls call s))
    as Hcalled.
  { intros call Hcall. split; [done|]. cbn.
    intros c u [Hc| ->%list_elem_of_singleton]%elem_of_app; [by apply Hcalls|apply Hcall]. }
  destruct ev; cbn [step]; try done.
  - destruct (page =? currentPage (ui s))%Z; [done|].
    apply (Hcalled (FetchCall page)). intros u Hu. by apply elem_of_nil in Hu.
  - by case_bool_decide.
  - unfold editFirstName. by destruct (selectedUser (ui s)).
  - unfold editLastName. by destruct (selectedUser (ui s)).
  - unfold editEmail. by destruct (selectedUser (ui s)).
  - destruct (selectedUser (ui s)) as [u|]; [|done].
    by apply (Hcalled (UpdateCall u (users (ui s)))).
  - by apply (Hcalled (DeleteCall userId (users (ui s)))).
  - destruct (pending s !! call) as [[page| |]|] eqn:Hc; try done.
    destruct net as [response|reason]; cbn.
    + split; cbn.
      * intros u Hu. apply elem_of_app. by right.
      * intros c u Hin%list_elem_of_delete_inv Hu. apply elem_of_app. left.
        by eapply Hcalls.
    + by apply Hsettled.
  - destruct (pending s !! call) as [[|userId captured|]|] eqn:Hc; try done.
    destruct net as [[]|reason]; cbn; apply Hsettled; cbn; [|done].
    intros u Hu. rewrite filter_not_id in Hu. apply list_elem_of_filter in Hu as [_ Hu].
    apply (Hcalls (DeleteCall userId captured)); [|done].
    by eapply list_elem_of_lookup_2.
  - destruct (pending s !! call) as [[| |selected captured]|] eqn:Hc; try done.
    destruct net as [[]|reason]; [done|]. by apply Hsettled.
Qed.

Lemma run_lists_verbatim (events : list Event) (s : Session) :
  Forall (λ ev, saves_edit ev = false) events →
  lists_verbatim s → lists_verbatim (run events s).
Proof.
  revert s. induction events as [|ev events IH]; intros s Hevents Hs; [done|].
  apply Forall_cons in Hevents as [Hev Hevents].
  apply IH; [done|]. by apply step_lists_verbatim.
Qed.

Lemma step_untyped (s : Session) (ev : Event) :
  types_in_form ev = false →
  (∀ user, holds s user → user ∈ received s) →
  ∀ user, holds (step s ev) user → user ∈ received (step s ev).
Proof.
  intros Hev Hs. apply holds_step.
  - intros user Hu. by apply received_step, Hs.
  - intros call page response user -> Hc Hin. by eapply received_fetched.
  - intros u Hu. by destruct ev.
Qed.

Lemma run_untyped (events : list Event) (s : Session) :
  Forall (λ ev, types_in_form ev = false) events →
  (∀ user, holds s user → user ∈ received s) →
  ∀ user, holds (run events s) user → user ∈ received (run events s).
Proof.
  revert s. induction events as [|ev events IH]; intros s Hevents Hs; [done|].
  apply Forall_cons in Hevents as [Hev Hevents].
  apply IH; [done|]. by apply step_untyped.
Qed.

Lemma mounted_holds_nothing (user : User) : ¬ holds mounted user.
Proof.
  intros [Hin|[?|(call & Hc & Hin)]]; [by apply elem_of_nil in Hin|done|].
  apply list_elem_of_singleton in Hc as ->. by apply elem_of_nil in Hin.
Qed.

(** C8, as the code has it.  From the mounting of the page up to the first
    edit the service accepts, every listed record is, field for field, a
    record some list-users call returned; up to the first keystroke in the
    edit form so is the record in the form.  At all points of the session,
    saved edits included, a record in local state (listed or in the form)
    has the identifier and the avatar of a returned record, and each of its
    two names and its address is either that of the same returned record or a
    text typed into the input of that field. *)
Theorem listed_users_provenance (events : list Event) :
  let s := run events mounted in
  (Forall (λ ev, saves_edit ev = false) events →
   ∀ user, user ∈ users (ui s) → user ∈ received s)
  ∧ (Forall (λ ev, types_in_form ev = false) events →
     ∀ user, user ∈ users (ui s) ∨ selectedUser (ui s) = Some user →
             user ∈ received s)
  ∧ (∀ user, user ∈ users (ui s) ∨ selectedUser (ui s) = Some user →
     ∃ r, r ∈ received s ∧ id user = id r ∧ avatar user = avatar r
          ∧ (first_name user = first_name r ∨ TypeFirstName (first_name user) ∈ events)
          ∧ (last_name user = last_name r ∨ TypeLastName (last_name user) ∈ events)
          ∧ (email user = email r ∨ TypeEmail (email user) ∈ events)).
Proof.
  cbn zeta. split; [|split].
  - intros Hevents. apply run_lists_verbatim; [done|]. split.
    + intros user Hin. by apply elem_of_nil in Hin.
    + intros call user ->%list_elem_of_singleton Hin. by apply elem_of_nil in Hin.
  - intros Hevents user Hu. apply run_untyped; [done| |].
    + intros u Hholds. by apply mounted_holds_nothing in Hholds.
    + unfold holds. tauto.
  - intros user Hu. apply run_sourced. unfold holds. tauto.
Qed.

End Provenance.

Section ProvenanceExamples.
Import Js Users Sample.

(** C8 as stated fails.  The first keystroke in the edit form makes the
    record of the form one that no list-users call returned, and after the
    saved edit that record is listed and displayed. *)
Lemma saved_edit_is_local :
  let typed := run [EditClick janet; TypeFirstName "Jane"] listing in
  let saved := run [SubmitEdit; UpdateAnswer 0 (Resolved ())] typed in
  received saved = [george; janet; emma]
  ∧ selectedUser (ui typed) = Some jane
  ∧ users (ui saved) = [george; jane; emma]
  ∧ (jane ∉ received saved)
  ∧ filteredUsers lower_string compare_units (users (ui saved)) "" "" ∅ asc
    = [emma; george; jane].
Proof.
  split; [|split; [|split; [|split]]]; try (vm_compute; reflexivity).
  cbn. intros Hin.
  repeat (apply elem_of_cons in Hin as [?|Hin]; [done|]).
  by apply elem_of_nil in Hin.
Qed.

End ProvenanceExamples.

(** ** The token *)

Section Token.
Import Js.

Lemma token_present_truthy (ls : LocalStorage.t) (token : string) :
  token_present ls token →
  truthy_opt (LocalStorage.getItem "token" ls) = true.
Proof. intros [-> Hne]. by apply truthy_true. Qed.

Lemma no_token_falsy (ls : LocalStorage.t) :
  no_token ls ↔ truthy_opt (LocalStorage.getItem "token" ls) = false.
Proof.
  unfold no_token, token_present.
  destruct (LocalStorage.getItem "token" ls) as [t|]; simpl.
  - rewrite truthy_false. split.
    + intros Hno. destruct t as [|c t]; [done|]. by destruct (Hno (String c t)).
    + intros -> token [[= <-] ?]. done.
  - split; [done|]. intros _ token [? _]. done.
Qed.

Lemma token_decided (ls : LocalStorage.t) :
  (∃ token, token_present ls token) ∨ no_token ls.
Proof.
  unfold no_token, token_present.
  destruct (LocalStorage.getItem "token" ls) as [[|c t]|].
  - right. by intros token [[= <-] ?].
  - left. by exists (String c t).
  - right. by intros token [? _].
Qed.

(** C4.  Every request of the client passes the interceptor.  When a token
    is present in browser storage, the request leaves with the header
    [Authorization] set to ["Bearer "] followed by that token, and is
    otherwise the request that was handed in; when no token is present the
    request leaves as it was handed in, no header added.  So it is for the
    requests of the four exported calls. *)
Theorem interceptor_bearer (ls : LocalStorage.t) (config : Api.Config) :
  (∀ token, token_present ls token →
     Api.headers (Api.interceptor ls config) !! "Authorization"
       = Some ("Bearer " +:+ token)
     ∧ Api.interceptor ls config
       = Api.with_headers
           (<["Authorization" := ("Bearer " +:+ token)]> (Api.headers config)) config)
  ∧ (no_token ls → Api.interceptor ls config = config)
  ∧ (∀ method url data,
       Api.send ls method url data = Api.interceptor ls (Api.create method url data))
  ∧ (∀ email password page id body login_net
       (users_net : Promise (Api.UsersData Users.User)) update_net delete_net request,
       request ∈ [fst (Api.login ls email password login_net);
                  fst (Api.getUsers ls page users_net);
                  fst (Api.updateUser ls id body update_net);
                  fst (Api.deleteUser ls id delete_net)] →
       (∀ token, token_present ls token →
          Api.headers request = {["Authorization" := "Bearer " +:+ token]})
       ∧ (no_token ls → Api.headers request = ∅)).
Proof.
  assert (∀ method url data,
    (∀ token, token_present ls token →
       Api.headers (Api.send ls method url data)
       = {["Authorization" := "Bearer " +:+ token]})
    ∧ (no_token ls → Api.headers (Api.send ls method url data) = ∅)) as Hsend.
  { intros method url data. unfold Api.send, Api.interceptor. split.
    - intros token [Hget Hne]. rewrite Hget. by apply truthy_true in Hne as ->.
    - intros Hno%no_token_falsy.
      destruct (LocalStorage.getItem "token" ls) as [t|]; [|done].
      simpl in Hno. by rewrite Hno. }
  split; [|split; [|split]].
  - intros token [Hget Hne]. unfold Api.interceptor. rewrite Hget.
    apply truthy_true in Hne as ->. split; [|done].
    cbn. apply lookup_insert_eq.
  - intros Hno%no_token_falsy. unfold Api.interceptor.
    destruct (LocalStorage.getItem "token" ls) as [t|]; [|done].
    simpl in Hno. by rewrite Hno.
  - done.
  - intros email password page id body login_net users_net update_net delete_net
      request Hin.
    repeat (apply elem_of_cons in Hin as [->|Hin]; [apply Hsend|]).
    by apply elem_of_nil in Hin.
Qed.

Example interceptor_with_token :
  Api.headers
    (fst (Api.deleteUser {["token" := "QpwL5tke4Pnpja7X4"]} 2 (Resolved ())))
  = {["Authorization" := "Bearer QpwL5tke4Pnpja7X4"]}.
Proof. reflexivity. Qed.

Example interceptor_without_token :
  Api.headers (fst (Api.deleteUser ∅ 2 (Resolved ()))) = ∅.
Proof. reflexivity. Qed.

Lemma route_users (ls : LocalStorage.t) (darkMode : bool) :
  App.route ls darkMode "/users" = Some (App.PrivateRoute ls (App.UsersPage darkMode)).
Proof. reflexivity. Qed.

(** C6.  The [/users] route shows the user list exactly when a token is
    present in browser storage: with a token it renders the page, without
    one it renders a redirect to [/login] and never the page. *)
Theorem users_route_protected (ls : LocalStorage.t) (darkMode : bool) :
  ((∃ token, token_present ls token) →
     App.route ls darkMode "/users" = Some (App.UsersPage darkMode))
  ∧ (no_token ls →
     App.route ls darkMode "/users" = Some (App.Redirect "/login")
     ∧ App.route ls darkMode "/users" ≠ Some (App.UsersPage darkMode))
  ∧ App.route ls darkMode "/login" = Some App.LoginPage.
Proof.
  rewrite route_users.
  split; [|split]; [| |done].
  - intros [token Htoken%token_present_truthy]. unfold App.PrivateRoute.
    by rewrite Htoken.
  - intros Hno%no_token_falsy. unfold App.PrivateRoute. by rewrite Hno.
Qed.

Example users_route_after_logout :
  App.route (fst (App.handleLogout {["token" := "QpwL5tke4Pnpja7X4"]})) false "/users"
  = Some (App.Redirect "/login").
Proof. reflexivity. Qed.

End Token.

(** ** Regular expressions: the matcher agrees with the meaning *)

Section RegexFacts.
Import Js.

Lemma append_eq_empty (s t : string) : s +:+ t = "" → s = "" ∧ t = "".
Proof. destruct s; [done|]. by rewrite append_cons. Qed.

Lemma append_eq_cons (s t : string) (c : ascii) (u : string) :
  s +:+ t = String c u →
  (s = "" ∧ t = String c u) ∨ ∃ s', s = String c s' ∧ u = s' +:+ t.
Proof.
  destruct s as [|a s]; [by left|]. rewrite append_cons. intros [= -> <-].
  right. by exists s.
Qed.

Lemma nullable_spec (r : regex) : nullable r = true ↔ re_in r "".
Proof.
  induction r as [| |p|r1 IH1 r2 IH2|r1 IH1 r2 IH2|r IH]; simpl.
  - split; [done|]. inversion 1.
  - split; [constructor|done].
  - split; [done|]. inversion 1.
  - rewrite andb_true_iff, IH1, IH2. split.
    + intros [H1 H2]. by apply (in_cat r1 r2 "" "").
    + inversion 1 as [| |? ? s1 s2 H1 H2 [Hr1 Hr2] Hs| | | |]; subst.
      apply append_eq_empty in Hs as [-> ->]. done.
  - rewrite orb_true_iff, IH1, IH2. split.
    + intros [?|?]; [by apply in_alt_l|by apply in_alt_r].
    + inversion 1; subst; tauto.
  - split; [constructor|done].
Qed.

Lemma star_cons_inv (r : regex) (t : string) :
  re_in (re_star r) t →
  ∀ c s, t = String c s →
  ∃ s1 s2, s = s1 +:+ s2 ∧ re_in r (String c s1) ∧ re_in (re_star r) s2.
Proof.
  intros H. remember (re_star r) as r' eqn:Hr.
  induction H as [| | | | | |r0 s1 s2 H1 _ H2 IH2]; try done.
  injection Hr as ->. intros c s Hs.
  apply append_eq_cons in Hs as [[-> ->]|(s1' & -> & ->)].
  - by apply IH2.
  - by exists s1', s2.
Qed.

Lemma deriv_spec (r : regex) (c : ascii) (s : string) :
  re_in (deriv c r) s ↔ re_in r (String c s).
Proof.
  revert s. induction r as [| |p|r1 IH1 r2 IH2|r1 IH1 r2 IH2|r IH]; intros s; simpl.
  - split; inversion 1.
  - split; inversion 1.
  - destruct (p c) eqn:Hp; split.
    + inversion 1; subst. by constructor.
    + inversion 1; subst. constructor.
    + inversion 1.
    + inversion 1; subst. congruence.
  - assert (re_in (re_cat (deriv c r1) r2) s
            ↔ ∃ s1 s2, s = s1 +:+ s2 ∧ re_in r1 (String c s1) ∧ re_in r2 s2) as Hcat.
    { split.
      - inversion 1 as [| |? ? s1 s2 H1 H2| | | |]; subst.
        exists s1, s2. by rewrite <- IH1.
      - intros (s1 & s2 & -> & H1 & H2). constructor; [by apply IH1|done]. }
    assert (re_in (re_cat r1 r2) (String c s)
            ↔ (re_in r1 "" ∧ re_in r2 (String c s))
              ∨ ∃ s1 s2, s = s1 +:+ s2 ∧ re_in r1 (String c s1) ∧ re_in r2 s2) as Hsplit.
    { split.
      - inversion 1 as [| |? ? s1 s2 H1 H2 [Hr1 Hr2] Hs| | | |]; subst.
        apply append_eq_cons in Hs as [[-> ->]|(s1' & -> & ->)]; [by left|].
        right. by exists s1', s2.
      - intros [[H1 H2]|(s1 & s2 & -> & H1 & H2)].
        + by apply (in_cat r1 r2 "" (String c s)).
        + by apply (in_cat r1 r2 (String c s1) s2). }
    rewrite Hsplit. destruct (nullable r1) eqn:Hnull.
    + apply nullable_spec in Hnull. split.
      * inversion 1; subst; [right; by apply Hcat|left; by rewrite <- IH2].
      * intros [[_ H2]|H12]; [apply in_alt_r; by apply IH2|apply in_alt_l; by apply Hcat].
    + rewrite Hcat. split; [by right|]. intros [[H1 _]|?]; [|done].
      apply nullable_spec in H1. congruence.
  - split.
    + inversion 1; subst; [apply in_alt_l; by apply IH1|apply in_alt_r; by apply IH2].
    + inversion 1; subst; [apply in_alt_l; by apply IH1|apply in_alt_r; by apply IH2].
  - split.
    + inversion 1 as [| |? ? s1 s2 H1 H2| | | |]; subst.
      apply (in_star_cons r (String c s1) s2); [by apply IH|done].
    + intros H. destruct (star_cons_inv r _ H c s eq_refl) as (s1 & s2 & -> & H1 & H2).
      constructor; [by apply IH|done].
Qed.

Lemma re_matches_spec (r : regex) (s : string) : re_matches r s = true ↔ re_in r s.
Proof.
  revert r. induction s as [|c s IH]; intros r; simpl.
  - apply nullable_spec.
  - by rewrite IH, deriv_spec.
Qed.

Lemma re_any_all (s : string) : re_in re_any s.
Proof.
  induction s as [|c s IH]; [constructor|].
  apply (in_star_cons _ (String c "") s); [by constructor|done].
Qed.

(** An unanchored test succeeds when some substring matches. *)
Lemma re_test_spec (r : regex) (s : string) :
  re_test r s = true
  ↔ ∃ before mid after, s = before +:+ mid +:+ after ∧ re_in r mid.
Proof.
  unfold re_test. rewrite re_matches_spec. split.
  - inversion 1 as [| |? ? before rest _ Hrest| | | |]; subst.
    inversion Hrest as [| |? ? mid after Hmid _| | | |]; subst.
    by exists before, mid, after.
  - intros (before & mid & after & -> & Hmid).
    constructor; [apply re_any_all|]. constructor; [done|apply re_any_all].
Qed.

Lemma star_class_spec (p : ascii → bool) (s : string) :
  re_in (re_star (re_class p)) s ↔ all_chars p s = true.
Proof.
  split.
  - intros H. remember (re_star (re_class p)) as r eqn:Hr.
    induction H as [| | | | | |r0 s1 s2 H1 _ H2 IH2]; try done.
    injection Hr as ->. inversion H1; subst. rewrite append_cons. simpl.
    apply andb_true_iff. split; [done|]. by apply IH2.
  - induction s as [|c s IH]; [constructor|]. simpl.
    intros [Hc Hs]%andb_true_iff.
    apply (in_star_cons _ (String c "") s); [by constructor|by apply IH].
Qed.

Lemma plus_class_spec (p : ascii → bool) (s : string) :
  re_in (re_plus (re_class p)) s ↔ s ≠ "" ∧ all_chars p s = true.
Proof.
  unfold re_plus. split.
  - inversion 1 as [| |? ? s1 s2 H1 H2| | | |]; subst.
    inversion H1; subst. rewrite append_cons. simpl. split; [done|].
    apply andb_true_iff. split; [done|]. by apply star_class_spec.
  - intros [Hne Hall]. destruct s as [|c s]; [done|]. simpl in Hall.
    apply andb_true_iff in Hall as [Hc Hs].
    apply (in_cat _ _ (String c "") s); [by constructor|by apply star_class_spec].
Qed.

Lemma char_spec (c : ascii) (s : string) :
  re_in (re_char c) s ↔ s = String c "".
Proof.
  unfold re_char. split.
  - inversion 1 as [|? c' Hc| | | | |]; subst. by apply Ascii.eqb_eq in Hc as ->.
  - intros ->. constructor. apply Ascii.eqb_refl.
Qed.

End RegexFacts.

(** ** The login form *)

Section LoginFacts.
Import Js Login.

Lemma email_pattern_spec (s : string) :
  re_test email_pattern s = true ↔ matches_email_pattern s.
Proof.
  rewrite re_test_spec. unfold matches_email_pattern, email_pattern, word. split.
  - intros (before & mid & after & -> & Hmid).
    inversion Hmid as [| |? ? a s1 Ha H1| | | |]; subst.
    inversion H1 as [| |? ? at_ s2 Hat H2| | | |]; subst.
    inversion H2 as [| |? ? b s3 Hb H3| | | |]; subst.
    inversion H3 as [| |? ? dot c Hdot Hc| | | |]; subst.
    apply char_spec in Hat as ->. apply char_spec in Hdot as ->.
    apply plus_class_spec in Ha, Hb, Hc.
    exists before, a, b, c, after. by rewrite !append_assoc.
  - intros (before & a & b & c & after & -> & Ha & Hb & Hc).
    exists before, (a +:+ "@" +:+ b +:+ "." +:+ c), after.
    split; [by rewrite !append_assoc|].
    repeat (constructor; [by apply plus_class_spec || by apply char_spec|]).
    by apply plus_class_spec.
Qed.

Lemma validateForm_state (st : State) :
  snd (validateForm st) = setErrors (errors (snd (validateForm st))) st.
Proof.
  unfold validateForm.
  by destruct (negb (truthy (email st))), (negb (re_test email_pattern (email st))),
    (negb (truthy (password st))), (String.length (password st) <? 4)%nat.
Qed.

Lemma validateForm_spec (st : State) :
  fst (validateForm st) = true ↔ form_valid st.
Proof.
  unfold form_valid. rewrite <- email_pattern_spec, <- !truthy_true.
  unfold validateForm.
  destruct (truthy (email st)), (re_test email_pattern (email st)),
    (truthy (password st)), (Nat.ltb_spec (String.length (password st)) 4);
    simpl; split; try done; try (intros (? & ? & ? & ?); done || lia).
Qed.

Lemma validateForm_valid (st : State) :
  form_valid st →
  validateForm st
  = (true, setErrors {| errors_email := ""; errors_password := "" |} st).
Proof.
  unfold form_valid. rewrite <- email_pattern_spec, <- !truthy_true.
  intros (He & Hp & Hw & Hlen). unfold validateForm. rewrite He, Hp, Hw. simpl.
  destruct (Nat.ltb_spec (String.length (password st)) 4); [lia|done].
Qed.

Lemma validateForm_invalid (st : State) :
  ¬ form_valid st →
  fst (validateForm st) = false
  ∧ (errors_email (errors (snd (validateForm st))) ≠ ""
     ∨ errors_password (errors (snd (validateForm st))) ≠ "").
Proof.
  rewrite <- validateForm_spec. unfold validateForm.
  destruct (truthy (email st)), (re_test email_pattern (email st)),
    (truthy (password st)), (String.length (password st) <? 4)%nat;
    simpl; intros H; (done || (split; [done|]; (by left) || (by right))).
Qed.

(** C10.  The login request is gated by the validation of the form: a
    request is issued only when the address is non-empty and matches
    [\S+@\S+\.\S+] and the password is non-empty and at least four characters
    long.  When a check fails the submit changes the error messages of the
    form and nothing else: no request is sent, nothing is written to browser
    storage, and a message is set. *)
Theorem login_gated_by_validation (st : State) (ls : LocalStorage.t)
    (net : Promise Api.LoginData) :
  let out := handleSubmit st ls net in
  ((∃ config, Request config ∈ effects out) → form_valid st)
  ∧ (¬ form_valid st →
     effects out = [] ∧ storage out = ls
     ∧ state out = setErrors (errors (state out)) st
     ∧ (errors_email (errors (state out)) ≠ ""
        ∨ errors_password (errors (state out)) ≠ "")).
Proof.
  assert (¬ form_valid st →
     effects (handleSubmit st ls net) = [] ∧ storage (handleSubmit st ls net) = ls
     ∧ state (handleSubmit st ls net)
       = setErrors (errors (state (handleSubmit st ls net))) st
     ∧ (errors_email (errors (state (handleSubmit st ls net))) ≠ ""
        ∨ errors_password (errors (state (handleSubmit st ls net))) ≠ "")) as Hgate.
  { intros [Hfalse Hmsg]%validateForm_invalid. unfold handleSubmit.
    pose proof (validateForm_state st) as Hst.
    destruct (validateForm st) as [isValid st']. simpl in *. subst isValid. simpl.
    done. }
  split; [|done].
  intros [config Hin].
  destruct (decide (fst (validateForm st) = true)) as [Hv|Hv];
    [by apply validateForm_spec|].
  rewrite validateForm_spec in Hv. destruct (Hgate Hv) as [Heff _].
  rewrite Heff in Hin. by apply elem_of_nil in Hin.
Qed.

(** C5.  A submit of a valid form posts the entered credentials to
    [/login]: one request, with the method [post], to that address of the
    service, its body the address and the password as they stand in the two
    inputs.  When the call succeeds and the response holds a token (a
    string the language counts as true, that is, a non-empty one), that
    token is written to browser storage under the key [token]; when the call
    fails, [login] rejects with the message [Invalid credentials] and browser
    storage stays as it was. *)
Theorem login_stores_token (st : State) (ls : LocalStorage.t)
    (net : Promise Api.LoginData) :
  form_valid st →
  let out := handleSubmit st ls net in
  (∃ request,
     head (effects out) = Some (Request request)
     ∧ request_is "post" "/login" (Api.LoginBody (email st) (password st)) request
     ∧ ∀ config, Request config ∈ effects out → config = request)
  ∧ match net with
    | Resolved response =>
        ∀ token, Api.token response = Some token → token ≠ "" →
          storage out = LocalStorage.setItem "token" token ls
          ∧ LocalStorage.getItem "token" (storage out) = Some token
    | Rejected _ =>
        snd (Api.login ls (email st) (password st) net)
          = Rejected "Invalid credentials"
        ∧ storage out = ls
    end.
Proof.
  intros Hvalid. unfold handleSubmit. rewrite (validateForm_valid st Hvalid).
  assert (∀ (rest : list Effect) request,
    (∀ config, Request config ∉ rest) →
    ∀ config, Request config ∈ Request request :: rest → config = request) as Hone.
  { intros rest request Hrest config [[= ->]|Hin]%elem_of_cons; [done|].
    by apply Hrest in Hin. }
  destruct net as [response|reason]; cbn.
  - destruct (Api.token response) as [t|] eqn:Ht; cbn.
    + destruct (truthy t) eqn:Htruthy; cbn.
      * split.
        { eexists. split; [done|]. split; [apply send_request_is|].
          apply Hone. intros config Hin.
          repeat (apply elem_of_cons in Hin as [?|Hin]; [done|]).
          by apply elem_of_nil in Hin. }
        intros token [= <-] _. split; [done|]. apply lookup_insert_eq.
      * split.
        { eexists. split; [done|]. split; [apply send_request_is|].
          apply Hone. intros config Hin.
          repeat (apply elem_of_cons in Hin as [?|Hin]; [done|]).
          by apply elem_of_nil in Hin. }
        intros token [= <-] Hne. apply truthy_true in Hne. congruence.
    + split; [|done].
      eexists. split; [done|]. split; [apply send_request_is|].
      apply Hone. intros config Hin.
      repeat (apply elem_of_cons in Hin as [?|Hin]; [done|]).
      by apply elem_of_nil in Hin.
  - split; [|done].
    eexists. split; [done|]. split; [apply send_request_is|].
    apply Hone. intros config Hin.
    repeat (apply elem_of_cons in Hin as [?|Hin]; [done|]).
    by apply elem_of_nil in Hin.
Qed.

End LoginFacts.

Section LoginExamples.
Import Js Login Sample.

Example handleSubmit_short_password :
  handleSubmit
    {| email := "eve.holt@reqres.in"; password := "abc"; isLoading := false;
       errors := {| errors_email := ""; errors_password := "" |} |}
    ∅ (Resolved {| Api.token := Some "QpwL5tke4Pnpja7X4" |})
  = {| state :=
         {| email := "eve.holt@reqres.in"; password := "abc"; isLoading := false;
            errors := {| errors_email := "";
                         errors_password := "Password must be at least 4 characters" |} |};
       storage := ∅; effects := [] |}.
Proof. reflexivity. Qed.

Example handleSubmit_without_token :
  let out := handleSubmit eve ∅ (Resolved {| Api.token := None |}) in
  storage out = ∅
  ∧ effects out
    = [Request (Api.send ∅ "post" "/login"
                  (Api.LoginBody "eve.holt@reqres.in" "cityslicka"));
       ToastError "Invalid credentials"].
Proof. split; reflexivity. Qed.

Lemma login_stores_token_witness :
  let out := handleSubmit eve ∅ (Resolved {| Api.token := Some "QpwL5tke4Pnpja7X4" |}) in
  (∃ request,
     head (effects out) = Some (Request request)
     ∧ request_is "post" "/login" (Api.LoginBody (email eve) (password eve)) request
     ∧ ∀ config, Request config ∈ effects out → config = request)
  ∧ ∀ token, Some "QpwL5tke4Pnpja7X4" = Some token → token ≠ "" →
      storage out = LocalStorage.setItem "token" token ∅
      ∧ LocalStorage.getItem "token" (storage out) = Some token.
Proof.
  exact (login_stores_token eve ∅ (Resolved {| Api.token := Some "QpwL5tke4Pnpja7X4" |})
           (proj1 (validateForm_spec eve) eq_refl)).
Defined.

End LoginExamples.

(** ** [JSON.parse] reads back what [JSON.stringify] wrote *)


Section JsonFacts.
Import Js Json.

Lemma parse_chars_escape_char (c : ascii) (t : string) :
  parse_chars (escape_char c +:+ t)
  = prod_map (String c) Datatypes.id <$> parse_chars t.
Proof. destruct c as [[] [] [] [] [] [] [] []]; reflexivity. Qed.

Lemma parse_chars_escape (s rest : string) :
  parse_chars (escape s +:+ String dquote rest) = Some (s, rest).
Proof.
  induction s as [|c s IH]; [done|].
  cbn [escape]. by rewrite append_assoc, parse_chars_escape_char, IH.
Qed.

Lemma quote_append (s rest : string) :
  quote s +:+ rest = String dquote (escape s +:+ String dquote rest).
Proof. unfold quote. by rewrite append_cons, append_assoc. Qed.

Lemma parse_items_S (fuel : nat) (s : string) :
  parse_items (S fuel) s
  = match parse_value fuel s with
    | Some (v, String "," rest) =>
        prod_map (cons v) Datatypes.id <$> parse_items fuel rest
    | Some (v, String "]" rest) => Some ([v], rest)
    | _ => None
    end.
Proof. reflexivity. Qed.

Lemma parse_members_quote (fuel : nat) (s : string) :
  parse_members (S fuel) (String dquote s)
  = match parse_chars s with
    | Some (key, String ":" rest) =>
        match parse_value fuel rest with
        | Some (v, String "," rest) =>
            prod_map (cons (key, v)) Datatypes.id <$> parse_members fuel rest
        | Some (v, String "}" rest) => Some ([(key, v)], rest)
        | _ => None
        end
    | _ => None
    end.
Proof. reflexivity. Qed.

Lemma parse_value_array (fuel : nat) (c : ascii) (s : string) :
  c ≠ "]"%char →
  parse_value (S fuel) (String "[" (String c s))
  = prod_map JArray Datatypes.id <$> parse_items fuel (String c s).
Proof. destruct c as [[] [] [] [] [] [] [] []]; first [reflexivity|done]. Qed.

Lemma parse_value_object (fuel : nat) (s : string) :
  parse_value (S fuel) (String "{" (String dquote s))
  = prod_map JObject Datatypes.id <$> parse_members fuel (String dquote s).
Proof. reflexivity. Qed.

(** A value's text never starts with a closing bracket. *)
Lemma stringify_head (v : value) :
  ∃ c s, stringify v = String c s ∧ c ≠ "]"%char.
Proof.
  destruct v as [|[]|s|items|members]; cbn [stringify]; rewrite ?append_cons;
    eexists _, _; (split; [reflexivity|done]).
Qed.

Lemma parse_value_string (fuel : nat) (s : string) :
  parse_value (S fuel) (String dquote s)
  = prod_map JString Datatypes.id <$> parse_chars s.
Proof. reflexivity. Qed.

Lemma list_sum_cons (n : nat) (l : list nat) :
  list_sum (n :: l) = (n + list_sum l)%nat.
Proof. reflexivity. Qed.

Lemma join_cons_cons (a b : string) (l : list string) :
  join (a :: b :: l) = a +:+ String "," (join (b :: l)).
Proof. reflexivity. Qed.

Lemma items_read_back (items : list value) :
  Forall reads_back items → items ≠ [] →
  ∀ fuel rest, (list_sum (map (λ item, S (size item)) items) ≤ fuel)%nat →
    parse_items fuel (join (map stringify items) +:+ String "]" rest)
    = Some (items, rest).
Proof.
  induction items as [|v items IH]; [done|].
  intros [Hv Hitems]%Forall_cons _ fuel rest Hfuel.
  destruct fuel as [|fuel]; [simpl in Hfuel; lia|].
  rewrite parse_items_S. destruct items as [|v' items].
  - simpl in *. rewrite Hv by lia. done.
  - cbn [map] in *. rewrite join_cons_cons, append_assoc, append_cons.
    rewrite list_sum_cons in Hfuel. rewrite Hv by lia.
    rewrite IH; [done..|]. lia.
Qed.

Lemma members_read_back (members : list (string * value)) :
  Forall (λ m, reads_back (snd m)) members → members ≠ [] →
  ∀ fuel rest, (list_sum (map (λ m, S (size (snd m))) members) ≤ fuel)%nat →
    parse_members fuel
      (join (map (λ m, quote (fst m) +:+ ":" +:+ stringify (snd m)) members)
       +:+ String "}" rest)
    = Some (members, rest).
Proof.
  induction members as [|[k v] members IH]; [done|].
  intros [Hv Hmembers]%Forall_cons _ fuel rest Hfuel.
  destruct fuel as [|fuel]; [simpl in Hfuel; lia|].
  cbn [fst snd] in Hv. destruct members as [|m' members].
  - cbn [map join fst snd] in *. rewrite list_sum_cons in Hfuel.
    rewrite !append_assoc, quote_append, append_cons, append_empty_l.
    rewrite parse_members_quote, parse_chars_escape, Hv by lia. done.
  - cbn [map] in *. rewrite join_cons_cons. cbn [fst snd] in *.
    rewrite list_sum_cons in Hfuel.
    rewrite !append_assoc, quote_append, append_cons, append_empty_l, append_cons.
    rewrite parse_members_quote, parse_chars_escape, Hv by lia.
    rewrite IH; [done..|]. lia.
Qed.

Lemma stringify_reads_back (v : value) : reads_back v.
Proof.
  induction v as [|b|s|items IH|members IH] using value_induction;
    intros fuel rest Hfuel; (destruct fuel as [|fuel]; [simpl in Hfuel; lia|]).
  - done.
  - by destruct b.
  - cbn [stringify]. by rewrite quote_append, parse_value_string, parse_chars_escape.
  - destruct items as [|v items]; [done|].
    cbn [stringify]. rewrite !append_assoc, append_cons, append_empty_l.
    change ("]" +:+ rest) with (String "]" rest).
    pose proof (items_read_back (v :: items) IH ltac:(done) fuel rest) as Hitems.
    destruct (stringify_head v) as (c & s & Hhead & Hc).
    revert Hitems. cbn [map]. destruct items as [|v' items].
    + cbn [join map]. rewrite Hhead, append_cons. intros Hitems.
      rewrite parse_value_array by done. rewrite Hitems; [done|].
      simpl in *. lia.
    + cbn [map]. rewrite join_cons_cons, Hhead, !append_cons. intros Hitems.
      rewrite parse_value_array by done. rewrite Hitems; [done|].
      simpl in *. lia.
  - destruct members as [|[k v] members]; [done|].
    cbn [stringify]. rewrite !append_assoc, append_cons, append_empty_l.
    change ("}" +:+ rest) with (String "}" rest).
    pose proof (members_read_back ((k, v) :: members) IH ltac:(done) fuel rest)
      as Hmembers.
    revert Hmembers. cbn [map fst snd]. destruct members as [|m' members].
    + cbn [join map]. rewrite !append_assoc, quote_append. intros Hmembers.
      rewrite parse_value_object. rewrite Hmembers; [done|].
      simpl in *. lia.
    + cbn [map]. rewrite join_cons_cons, !append_assoc, quote_append. intros Hmembers.
      rewrite parse_value_object. rewrite Hmembers; [done|].
      simpl in *. lia.
Qed.

Lemma join_size {A} (sz : A → nat) (txt : A → string) (l : list A) :
  Forall (λ a, (sz a ≤ String.length (txt a))%nat) l →
  (list_sum (map (λ a, S (sz a)) l) ≤ S (String.length (join (map txt l))))%nat.
Proof.
  induction l as [|a l IH]; [simpl; lia|].
  intros [Ha Hl]%Forall_cons. destruct l as [|b l].
  - simpl. lia.
  - cbn [map] in *. rewrite join_cons_cons, append_length.
    rewrite list_sum_cons. cbn [String.length]. specialize (IH Hl). lia.
Qed.

Lemma size_le_length (v : value) : (size v ≤ String.length (stringify v))%nat.
Proof.
  induction v as [|b|s|items IH|members IH] using value_induction.
  - simpl. lia.
  - destruct b; simpl; lia.
  - simpl. lia.
  - cbn [size stringify]. rewrite append_cons, append_empty_l.
    cbn [String.length]. rewrite append_length.
    pose proof (join_size size stringify items IH). simpl. lia.
  - cbn [size stringify]. rewrite append_cons, append_empty_l.
    cbn [String.length]. rewrite append_length.
    pose proof (join_size (λ m, size (snd m))
                  (λ m, quote (fst m) +:+ ":" +:+ stringify (snd m)) members) as H.
    simpl. cut (Forall (λ a, (size (snd a)
                  ≤ String.length (quote (fst a) +:+ ":" +:+ stringify (snd a)))%nat)
                  members); [intros Hm; specialize (H Hm); lia|].
    eapply Forall_impl; [exact IH|]. intros [k m] Hm. cbn [fst snd] in *.
    rewrite !append_length. lia.
Qed.

(** [JSON.parse(JSON.stringify(v))] is [v]. *)
Lemma parse_stringify (v : value) : parse (stringify v) = Some v.
Proof.
  unfold parse.
  pose proof (stringify_reads_back v (S (String.length (stringify v))) "") as H.
  rewrite append_empty_r in H. rewrite H; [done|].
  pose proof (size_le_length v). lia.
Qed.

End JsonFacts.

(** ** Filter preferences on their trip through browser storage *)

Section FilterStorage.
Import Js Users.

Lemma direction_of_direction_name (d : SortDirection) :
  direction_of_name (direction_name d) = Some d.
Proof. by destruct d. Qed.

Lemma mapM_as_domain (l : list Domain) :
  mapM as_domain (domain_json <$> l) = Some (as_stored <$> l).
Proof.
  induction l as [|d l IH]; [done|].
  change (as_domain (domain_json d) ≫= (λ d',
            mapM as_domain (domain_json <$> l) ≫= (λ k, mret (d' :: k)))
          = Some (as_stored d :: (as_stored <$> l))).
  rewrite IH. by destruct d.
Qed.

Lemma savedFilters_truthy (st : State) :
  truthy (Json.stringify (savedFilters st)) = true.
Proof. unfold savedFilters. cbn [Json.stringify]. by rewrite append_cons. Qed.

Lemma load_after_save (st target : State) (ls : LocalStorage.t) :
  loadFilters (saveFilters st ls) target
  = Some (setSelectedDomains (set_map as_stored (selectedDomains st))
            (setSortDirection (sortDirection st)
               (setSelectedLetter (selectedLetter st) target))).
Proof.
  unfold loadFilters, saveFilters, LocalStorage.getItem, LocalStorage.setItem.
  rewrite lookup_insert_eq, savedFilters_truthy, parse_stringify.
  unfold savedFilters. cbn [Json.get String.eqb Ascii.eqb Bool.eqb].
  rewrite direction_of_direction_name, mapM_as_domain. done.
Qed.

Lemma elem_of_as_stored (domains : gset Domain) (d : Domain) :
  d ∈ (set_map as_stored domains : gset Domain)
  ↔ match d with
    | Named domain => Named domain ∈ domains
    | Undefined => False
    | Null => Undefined ∈ domains ∨ Null ∈ domains
    end.
Proof.
  rewrite elem_of_map. split.
  - intros ([]& -> & Hin); cbn; auto.
  - destruct d as [domain| |]; [intros Hin; by exists (Named domain)|done|].
    intros [Hin|Hin]; [by exists Undefined|by exists Null].
Qed.

Lemma as_stored_same (domains : gset Domain) :
  (set_map as_stored domains : gset Domain) = domains ↔ Undefined ∉ domains.
Proof.
  split.
  - intros Heq Hin. rewrite <- Heq in Hin. by apply elem_of_as_stored in Hin.
  - intros Hout. apply set_eq. intros d. rewrite elem_of_as_stored.
    destruct d; [done|done|]. tauto.
Qed.

(** C3, as the code has it.  The filter preferences make the trip through
    browser storage: the save effect stores the text of the flat object
    [{selectedLetter, sortDirection, selectedDomains: Array.from(set)}] under
    [userFilters], parsing that text gives the object back, and the load
    effect puts the saved letter and the saved direction into their cells.
    The set comes back with the same texts in it, and it comes back equal if
    and only if it did not hold the blank option [undefined]: that member is
    written as [null] and comes back as [null]. *)
Theorem filters_round_trip (st target : State) (ls : LocalStorage.t) :
  let stored := saveFilters st ls in
  LocalStorage.getItem "userFilters" stored = Some (Json.stringify (savedFilters st))
  ∧ Json.parse (Json.stringify (savedFilters st)) = Some (savedFilters st)
  ∧ list_to_set (elements (selectedDomains st)) = selectedDomains st
  ∧ ∃ loaded,
      loadFilters stored target = Some loaded
      ∧ loaded = setSelectedDomains (selectedDomains loaded)
                   (setSortDirection (sortDirection st)
                      (setSelectedLetter (selectedLetter st) target))
      ∧ selectedLetter loaded = selectedLetter st
      ∧ sortDirection loaded = sortDirection st
      ∧ (∀ domain, Named domain ∈ selectedDomains loaded
                   ↔ Named domain ∈ selectedDomains st)
      ∧ (Null ∈ selectedDomains loaded
         ↔ Undefined ∈ selectedDomains st ∨ Null ∈ selectedDomains st)
      ∧ (Undefined ∉ selectedDomains loaded)
      ∧ (selectedDomains loaded = selectedDomains st ↔ Undefined ∉ selectedDomains st).
Proof.
  split; [apply lookup_insert_eq|]. split; [apply parse_stringify|].
  split; [apply list_to_set_elements_L|].
  eexists. split; [apply load_after_save|]. cbn.
  split; [done|]. split; [done|]. split; [done|]. split; [|split; [|split]].
  - intros domain. apply (elem_of_as_stored _ (Named domain)).
  - apply (elem_of_as_stored _ Null).
  - intros Hin. by apply (elem_of_as_stored _ Undefined) in Hin.
  - apply as_stored_same.
Qed.

Example filters_stored_text :
  saveFilters
    (setSelectedDomains {[Named "reqres.in"]}
       (setSortDirection desc (setSelectedLetter "J" initial))) ∅
  !! "userFilters"
  = Some (String "{"
      (Json.quote "selectedLetter" +:+ ":" +:+ Json.quote "J" +:+ ","
       +:+ Json.quote "sortDirection" +:+ ":" +:+ Json.quote "desc" +:+ ","
       +:+ Json.quote "selectedDomains" +:+ ":[" +:+ Json.quote "reqres.in" +:+ "]}")).
Proof. vm_compute. reflexivity. Qed.

End FilterStorage.

Section FilterStorageExamples.
Import Js Users Sample.

(** C3 as stated fails for a selection that holds the blank option, the
    button of an address without ['@'].  The selection is stored as [[null]]
    and comes back holding [null]; the user that was displayed before the
    trip is not displayed after it. *)
Lemma blank_option_comes_back_as_null :
  let st := toggleDomain None (setUsers [nomail; george] initial) in
  let loaded := loadFilters (saveFilters st ∅) initial in
  selectedDomains st = {[Undefined]}
  ∧ saveFilters st ∅ !! "userFilters"
    = Some (String "{"
        (Json.quote "selectedLetter" +:+ ":" +:+ Json.quote "" +:+ ","
         +:+ Json.quote "sortDirection" +:+ ":" +:+ Json.quote "asc" +:+ ","
         +:+ Json.quote "selectedDomains" +:+ ":[null]}"))
  ∧ selectedDomains <$> loaded = Some {[Null]}
  ∧ ({[Null]} : gset Domain) ≠ {[Undefined]}
  ∧ filteredUsers lower_string compare_units (users st) "" "" {[Undefined]} asc
    = [nomail]
  ∧ filteredUsers lower_string compare_units (users st) "" "" {[Null]} asc = [].
Proof.
  split; [vm_compute; reflexivity|]. split; [vm_compute; reflexivity|].
  split; [vm_compute; reflexivity|]. split; [|split; vm_compute; reflexivity].
  intros Heq. assert (Null ∈ ({[Undefined]} : gset Domain)) as Hin
    by (rewrite <- Heq; by apply elem_of_singleton).
  by apply elem_of_singleton in Hin.
Qed.

End FilterStorageExamples.

(** ** Further properties of the session and of the filters *)

Section Further.
Import Js Users Sample.

(** On mount the save effect precedes the load effect, so whatever browser
    storage held under [userFilters] is overwritten by the initial choices
    before it is read: the page always starts with no letter, ascending
    order and no domain selected. *)
Theorem mount_resets_filters (ls : LocalStorage.t) :
  fst (mountFilters ls) = Some initial
  ∧ snd (mountFilters ls) !! "userFilters"
    = Some (Json.stringify (savedFilters initial)).
Proof.
  unfold mountFilters. cbn [fst snd]. split.
  - rewrite load_after_save. cbn. by rewrite set_map_empty.
  - apply lookup_insert_eq.
Qed.

(** The empty string under [token] counts as no token: no header is added
    and the user list stays behind the redirect. *)
Theorem empty_token_is_no_token (ls : LocalStorage.t) (config : Api.Config)
    (darkMode : bool) :
  LocalStorage.getItem "token" ls = Some "" →
  Api.interceptor ls config = config
  ∧ App.route ls darkMode "/users" = Some (App.Redirect "/login").
Proof.
  intros Hget. rewrite route_users. unfold Api.interceptor, App.PrivateRoute.
  by rewrite Hget.
Qed.

Lemma empty_token_is_no_token_witness :
  Api.interceptor {["token" := ""]} (Api.create "get" "/users?page=1" Api.NoBody)
  = Api.create "get" "/users?page=1" Api.NoBody
  ∧ App.route {["token" := ""]} false "/users" = Some (App.Redirect "/login").
Proof.
  exact (empty_token_is_no_token {["token" := ""]}
           (Api.create "get" "/users?page=1" Api.NoBody) false eq_refl).
Defined.

(** Logging out removes the token: the user list is behind the redirect
    again and requests leave without the header. *)
Theorem logout_ends_session (ls : LocalStorage.t) (config : Api.Config)
    (darkMode : bool) :
  let ls' := fst (App.handleLogout ls) in
  App.route ls' darkMode "/users" = Some (App.Redirect "/login")
  ∧ Api.interceptor ls' config = config
  ∧ snd (App.handleLogout ls) = [Navigate "/login"].
Proof.
  cbn zeta. rewrite route_users. cbn.
  unfold App.PrivateRoute, Api.interceptor, LocalStorage.getItem,
    LocalStorage.removeItem.
  by rewrite lookup_delete_eq.
Qed.

(** A successful login opens the session: with the stored token the user
    list renders and every later request carries it as bearer credential. *)
Theorem login_opens_session (st : Login.State) (ls : LocalStorage.t)
    (response : Api.LoginData) (token : string) (config : Api.Config)
    (darkMode : bool) :
  form_valid st →
  Api.token response = Some token → token ≠ "" →
  let ls' := Login.storage (Login.handleSubmit st ls (Resolved response)) in
  App.route ls' darkMode "/users" = Some (App.UsersPage darkMode)
  ∧ Api.headers (Api.interceptor ls' config) !! "Authorization"
    = Some ("Bearer " +:+ token)
  ∧ last (Login.effects (Login.handleSubmit st ls (Resolved response)))
    = Some (Navigate "/users").
Proof.
  intros Hvalid Htoken Hne. cbn zeta. rewrite route_users. unfold Login.handleSubmit.
  rewrite (validateForm_valid st Hvalid). cbn.
  rewrite Htoken. cbn. apply truthy_true in Hne. rewrite Hne. cbn.
  unfold App.PrivateRoute, Api.interceptor, LocalStorage.getItem,
    LocalStorage.setItem.
  rewrite lookup_insert_eq. cbn. rewrite Hne. cbn.
  by rewrite lookup_insert_eq.
Qed.

Lemma login_opens_session_witness :
  let response := {| Api.token := Some "QpwL5tke4Pnpja7X4" |} in
  let ls' := Login.storage (Login.handleSubmit eve ∅ (Resolved response)) in
  App.route ls' false "/users" = Some (App.UsersPage false)
  ∧ Api.headers (Api.interceptor ls' (Api.create "get" "/users?page=1" Api.NoBody))
    !! "Authorization" = Some ("Bearer " +:+ "QpwL5tke4Pnpja7X4")
  ∧ last (Login.effects (Login.handleSubmit eve ∅ (Resolved response)))
    = Some (Navigate "/users").
Proof.
  exact (login_opens_session eve ∅ {| Api.token := Some "QpwL5tke4Pnpja7X4" |}
           "QpwL5tke4Pnpja7X4" (Api.create "get" "/users?page=1" Api.NoBody) false
           (proj1 (validateForm_spec eve) eq_refl) eq_refl ltac:(done)).
Defined.

(** Pressing a domain button twice leaves the selection as it was, the
    blank button of an address without ['@'] included. *)
Theorem toggleDomain_twice (domain : option string) (st : State) :
  selectedDomains (toggleDomain domain (toggleDomain domain st)) = selectedDomains st.
Proof.
  unfold toggleDomain. cbn. generalize (domainValue domain). clear domain.
  intros domain.
  destruct (decide (domain ∈ selectedDomains st)) as [Hin|Hout].
  - rewrite (bool_decide_eq_true_2 _ Hin).
    rewrite bool_decide_eq_false_2
      by (rewrite elem_of_difference, elem_of_singleton; tauto).
    rewrite difference_union_L, (comm_L (∪)). apply subseteq_union_1_L.
    by apply singleton_subseteq_l.
  - rewrite (bool_decide_eq_false_2 _ Hout).
    rewrite bool_decide_eq_true_2
      by (rewrite elem_of_union, elem_of_singleton; tauto).
    rewrite difference_union_distr_l_L, difference_diag_L, union_empty_r_L.
    apply difference_disjoint_L. by apply disjoint_singleton_r.
Qed.

(** The part of an address the page takes for its domain: nothing for an
    address without ['@'], and otherwise the text between the first ['@'] and
    the next one or the end, which for an address with a single ['@'] is all
    that follows it. *)
Theorem emailDomain_of_address (user : User) :
  (emailDomain user = None ↔ ¬ occurs_in "@" (email user))
  ∧ (∀ domain, emailDomain user = Some domain ↔
       ∃ local rest,
         email user = local +:+ "@" +:+ domain +:+ rest
         ∧ ¬ occurs_in "@" local ∧ ¬ occurs_in "@" domain
         ∧ (rest = "" ∨ ∃ more, rest = "@" +:+ more))
  ∧ (∀ local domain,
       email user = local +:+ "@" +:+ domain →
       ¬ occurs_in "@" local → ¬ occurs_in "@" domain →
       emailDomain user = Some domain).
Proof.
  split; [apply emailDomain_none|]. split; [apply emailDomain_some|].
  apply emailDomain_single.
Qed.

Example emailDomain_two_ats :
  emailDomain {| id := 7; first_name := "A"; last_name := "B";
                 email := "a@b@c"; avatar := "" |} = Some "b".
Proof. reflexivity. Qed.

End Further.

(** ** Filtering and sorting compose *)

Section FilterSort.
Import Js.
Context {A : Type} (cmp : A → A → Z).
Hypothesis cmp_total : ∀ a b, before cmp a b ∨ before cmp b a.
Hypothesis cmp_trans : ∀ a b c, before cmp a b → before cmp b c → before cmp a c.

Lemma sort_insert_first (x : A) (l : list A) :
  Forall (before cmp x) l → sort_insert cmp x l = x :: l.
Proof.
  destruct l as [|y l]; [done|]. intros [Hxy _]%Forall_cons. simpl.
  unfold before in Hxy. by destruct (Z.leb_spec (cmp x y) 0); [|lia].
Qed.

Lemma sort_of_sorted (l : list A) :
  StronglySorted (before cmp) l → sort cmp l = l.
Proof.
  induction l as [|x l IH]; [done|].
  intros [Hx Hl]%StronglySorted_cons. cbn [sort foldr].
  unfold sort in IH. rewrite IH by done. by apply sort_insert_first.
Qed.

Lemma list_filter_Forall (P : A → Prop) (p : A → bool) (l : list A) :
  Forall P l → Forall P (List.filter p l).
Proof.
  induction 1 as [|x l Hx Hl IH]; simpl; [constructor|].
  destruct (p x); [by constructor|done].
Qed.

Lemma filter_sort_insert (p : A → bool) (x : A) (l : list A) :
  StronglySorted (before cmp) l →
  List.filter p (sort_insert cmp x l)
  = if p x then sort_insert cmp x (List.filter p l) else List.filter p l.
Proof.
  induction l as [|y l IH]; intros Hl.
  - simpl. by destruct (p x).
  - apply StronglySorted_cons in Hl as [Hy Hl]. cbn [sort_insert].
    destruct (Z.leb_spec (cmp x y) 0) as [Hxy|Hxy].
    + cbn [List.filter]. destruct (p x) eqn:Hpx; [|done].
      symmetry. apply sort_insert_first.
      assert (Forall (before cmp x) (y :: l)) as Hall.
      { constructor; [done|]. eapply Forall_impl; [exact Hy|].
        intros z Hz. by eapply cmp_trans. }
      by apply (list_filter_Forall _ p) in Hall.
    + cbn [List.filter]. rewrite (IH Hl).
      destruct (p x) eqn:Hpx, (p y) eqn:Hpy; try done.
      cbn [sort_insert]. by destruct (Z.leb_spec (cmp x y) 0); [lia|].
Qed.

(** Filtering a sorted list and sorting a filtered list give the same. *)
Lemma filter_sort (p : A → bool) (l : list A) :
  List.filter p (sort cmp l) = sort cmp (List.filter p l).
Proof.
  induction l as [|x l IH]; [done|].
  cbn [sort foldr List.filter]. fold (sort cmp l).
  rewrite filter_sort_insert by by apply sort_sorted.
  rewrite IH. by destruct (p x).
Qed.

End FilterSort.

Section ListFilterFacts.
Context {A : Type}.

Lemma list_filter_sublist (p : A → bool) (l : list A) :
  List.filter p l `sublist_of` l.
Proof.
  induction l as [|x l IH]; simpl; [done|].
  destruct (p x); [by apply sublist_skip|by apply sublist_cons].
Qed.

Lemma list_filter_true (p : A → bool) (l : list A) :
  (∀ x, p x = true) → List.filter p l = l.
Proof.
  intros Hp. induction l as [|x l IH]; simpl; [done|]. by rewrite Hp, IH.
Qed.

Lemma list_filter_idemp (p : A → bool) (l : list A) :
  List.filter p (List.filter p l) = List.filter p l.
Proof.
  induction l as [|x l IH]; simpl; [done|].
  destruct (p x) eqn:Hp; [|done]. simpl. by rewrite Hp, IH.
Qed.

Lemma list_filter_nil (p : A → bool) (l : list A) :
  (∀ x, x ∈ l → p x = false) → List.filter p l = [].
Proof.
  induction l as [|x l IH]; intros Hp; simpl; [done|].
  rewrite (Hp x) by apply list_elem_of_here.
  apply IH. intros y Hy. apply Hp. by apply list_elem_of_further.
Qed.

End ListFilterFacts.

(** ** More on the displayed list *)

Section DisplayedList.
Import Js Users.
Variable toLowerCase : string → string.
Variable localeCompare : string → string → Z.

Lemma elem_of_emailDomains (users : list User) (d : option string) :
  d ∈ emailDomains users ↔ ∃ user, user ∈ users ∧ emailDomain user = d.
Proof.
  destruct (foldl_set_add users [] (NoDup_nil_2 (A:=option string))) as [_ Hmem].
  unfold emailDomains. rewrite Hmem. split; [|by right].
  intros [Hnil|?]; [|done]. by apply elem_of_nil in Hnil.
Qed.

Lemma elem_of_filteredUsers (users : list User) (term letter : string)
    (domains : gset Domain) (direction : SortDirection) (user : User) :
  user ∈ filteredUsers toLowerCase localeCompare users term letter domains direction
  ↔ user ∈ users ∧ search_ok toLowerCase term user ∧ letter_ok toLowerCase letter user
    ∧ domain_ok domains user.
Proof.
  unfold filteredUsers.
  rewrite sort_perm, list_elem_of_In, filter_In, (passes_spec _ localeCompare).
  by rewrite <- list_elem_of_In.
Qed.

Lemma filteredUsers_length (users : list User) (term letter : string)
    (domains : gset Domain) (direction : SortDirection) :
  length (filteredUsers toLowerCase localeCompare users term letter domains direction)
  = length (List.filter (passes toLowerCase term letter domains) users).
Proof. unfold filteredUsers. by rewrite sort_perm. Qed.

Lemma grid_message (l : list User) : grid l = NoUsersFound ↔ l = [].
Proof. by destruct l. Qed.

Lemma list_filter_nil_iff {A} (p : A → bool) (l : list A) :
  List.filter p l = [] ↔ ∀ x, x ∈ l → p x = false.
Proof.
  split; [|apply list_filter_nil].
  intros Hnil x Hin. apply not_true_is_false. intros Hp.
  assert (In x (List.filter p l)) as Hx
    by (apply filter_In; split; [by apply list_elem_of_In|done]).
  by rewrite Hnil in Hx.
Qed.

Lemma filteredUsers_nil (users : list User) (term letter : string)
    (domains : gset Domain) (direction : SortDirection) :
  filteredUsers toLowerCase localeCompare users term letter domains direction = []
  ↔ ∀ user, user ∈ users →
      ¬ (search_ok toLowerCase term user ∧ letter_ok toLowerCase letter user
         ∧ domain_ok domains user).
Proof.
  assert (filteredUsers toLowerCase localeCompare users term letter domains direction = []
          ↔ List.filter (passes toLowerCase term letter domains) users = []) as ->.
  { rewrite <- !length_zero_iff_nil. by rewrite filteredUsers_length. }
  rewrite list_filter_nil_iff.
  split; intros H user Hin; specialize (H user Hin).
  - rewrite <- (passes_spec _ localeCompare). by rewrite H.
  - apply not_true_is_false. by rewrite (passes_spec _ localeCompare).
Qed.

(** The page shows the spinner, and nothing else, exactly while [loading]
    is set.  The message that no user matches is part of what the component
    returns exactly when the page is not loading and no listed user passes
    the three filters, whatever the comparison of the platform does; in
    particular on a page that lists nobody. *)
Theorem no_users_message_iff (term : string) (st : State) :
  (render toLowerCase localeCompare term st = Spinner ↔ loading st = true)
  ∧ ((∃ page, render toLowerCase localeCompare term st = Rendered page
              ∧ cards page = NoUsersFound)
     ↔ loading st = false
       ∧ ∀ user, user ∈ users st →
           ¬ (search_ok toLowerCase term user
              ∧ letter_ok toLowerCase (selectedLetter st) user
              ∧ domain_ok (selectedDomains st) user))
  ∧ (∀ page shown,
       render toLowerCase localeCompare term st = Rendered page →
       cards page = Cards shown →
       shown ≠ []
       ∧ ∀ user, user ∈ shown ↔
           user ∈ users st ∧ search_ok toLowerCase term user
           ∧ letter_ok toLowerCase (selectedLetter st) user
           ∧ domain_ok (selectedDomains st) user).
Proof.
  unfold render. destruct (loading st); cbn.
  - split; [done|]. split; [|done]. split; [by intros (page & ? & _)|by intros [? _]].
  - split; [done|]. split.
    + rewrite <- filteredUsers_nil, <- grid_message. split.
      * intros (page & [= <-] & Hcards). split; [done|]. exact Hcards.
      * intros [_ Hcards]. eexists. split; [done|]. exact Hcards.
    + intros page shown [= <-]. cbn. unfold grid.
      destruct (filteredUsers _ _ _ _ _ _ _) as [|u l] eqn:Hl; [done|].
      cbn. intros [= <-]. split; [done|]. intros user.
      rewrite <- Hl. apply elem_of_filteredUsers.
Qed.

(** The pagination row is part of what the component returns only when
    the page is not loading.  It then lists the pages 1 to [totalPages] in
    ascending order, none when [totalPages] is not positive, and marks the
    current page alone: no button is marked when the current page is outside
    that range. *)
Theorem pagination_spec (term : string) (st : State) :
  match render toLowerCase localeCompare term st with
  | Spinner => loading st = true
  | Rendered page =>
      loading st = false
      ∧ (∀ number, number ∈ (fst <$> pages page) ↔ (1 ≤ number ≤ totalPages st)%Z)
      ∧ StronglySorted Z.lt (fst <$> pages page)
      ∧ (∀ number, (number, true) ∈ pages page
                   ↔ number = currentPage st ∧ (1 ≤ number ≤ totalPages st)%Z)
      ∧ (∀ number, (number, false) ∈ pages page
                   ↔ number ≠ currentPage st ∧ (1 ≤ number ≤ totalPages st)%Z)
  end.
Proof.
  unfold render. destruct (loading st); cbn; [done|]. split; [done|].
  assert (∀ n number, number ∈ pageNumbers n ↔ (1 ≤ number ≤ n)%Z) as Hmem.
  { intros n number. unfold pageNumbers. rewrite list_elem_of_fmap. split.
    - intros (i & -> & Hi%elem_of_seq). lia.
    - intros Hn. exists (Z.to_nat (number - 1)). split; [lia|].
      apply elem_of_seq. lia. }
  assert (fst <$> pagination st = pageNumbers (totalPages st)) as Hfst.
  { unfold pagination. rewrite <- list_fmap_compose. apply list_fmap_id. }
  rewrite Hfst. split; [apply Hmem|]. split; [|split].
  - unfold pageNumbers. generalize (Z.to_nat (totalPages st)) as n. intros n.
    assert (∀ start, StronglySorted Z.lt ((λ i, (Z.of_nat i + 1)%Z) <$> seq start n))
      as Hsorted; [|apply Hsorted].
    induction n as [|n IH]; intros start; [constructor|].
    cbn. constructor; [apply IH|].
    apply Forall_fmap, Forall_forall. intros i Hi%elem_of_seq. cbn. lia.
  - intros number. unfold pagination. rewrite list_elem_of_fmap. split.
    + intros (q & [= -> Heq] & Hq). symmetry in Heq. apply Z.eqb_eq in Heq.
      split; [done|]. by apply Hmem.
    + intros [-> Hrange]. exists (currentPage st). rewrite Z.eqb_refl.
      split; [done|]. by apply Hmem.
  - intros number. unfold pagination. rewrite list_elem_of_fmap. split.
    + intros (q & [= -> Heq] & Hq). symmetry in Heq. apply Z.eqb_neq in Heq.
      split; [done|]. by apply Hmem.
    + intros [Hne Hrange]. exists number.
      rewrite (proj2 (Z.eqb_neq _ _)) by done. split; [done|]. by apply Hmem.
Qed.

(** A user whose address holds no ['@'] answers to the blank option alone:
    once anything is selected, such a user is displayed if and only if the
    blank option is among the selected (and the other two filters let the
    user pass).  No selection of texts shows such a user. *)
Theorem no_at_address_needs_blank_option (users : list User) (term letter : string)
    (domains : gset Domain) (direction : SortDirection) (user : User) :
  ¬ occurs_in "@" (email user) → domains ≠ ∅ →
  (user ∈ filteredUsers toLowerCase localeCompare users term letter domains direction
   ↔ user ∈ users ∧ search_ok toLowerCase term user
     ∧ letter_ok toLowerCase letter user ∧ Undefined ∈ domains).
Proof.
  intros Hat Hsel. rewrite elem_of_filteredUsers.
  assert (domain_ok domains user ↔ Undefined ∈ domains) as ->; [|done].
  split.
  - intros [?|([domain| |] & Hin & Hd)]; [done| |done|done].
    destruct Hd as (local & rest & Heq & _). destruct Hat.
    exists local, (domain +:+ rest). by rewrite Heq.
  - intros Hin. right. by exists Undefined.
Qed.

(** When nothing that is selected is the option of a listed address (the
    users of the selected domains were deleted, or another page was
    fetched), nothing is displayed, and no domain button is marked as
    selected: the page, once it is no longer loading, shows the message that
    no user matches, and the filter panel, when open, shows no marked domain
    button. *)
Theorem stale_domain_selection (st : State) (term : string) :
  selectedDomains st ≠ ∅ →
  (∀ domain, Named domain ∈ selectedDomains st →
             Some domain ∉ emailDomains (users st)) →
  (Undefined ∈ selectedDomains st → None ∉ emailDomains (users st)) →
  filteredUsers toLowerCase localeCompare (users st) term (selectedLetter st)
    (selectedDomains st) (sortDirection st) = []
  ∧ (∀ button, button ∈ domainButtons st → snd button = false)
  ∧ ∀ page, render toLowerCase localeCompare term st = Rendered page →
      cards page = NoUsersFound
      ∧ ∀ buttons button,
          filterPanel page = Some buttons → button ∈ buttons → snd button = false.
Proof.
  intros Hsel Hnamed Hblank.
  assert (∀ option, option ∈ emailDomains (users st) →
          domainValue option ∉ selectedDomains st) as Hstale.
  { intros [domain|] Hin Hd; [by apply (Hnamed domain)|by apply Hblank]. }
  assert (filteredUsers toLowerCase localeCompare (users st) term (selectedLetter st)
            (selectedDomains st) (sortDirection st) = []) as Hnone.
  { apply filteredUsers_nil. intros user Hin (_ & _ & [?|(d & Hd & Hof)]); [done|].
    apply domainValue_spec in Hof as <-.
    apply (Hstale (emailDomain user)); [|done].
    apply elem_of_emailDomains. by exists user. }
  assert (∀ button, button ∈ domainButtons st → snd button = false) as Hbuttons.
  { intros button. unfold domainButtons. rewrite list_elem_of_fmap.
    intros (option & -> & Hin). cbn.
    apply bool_decide_eq_false. by apply Hstale. }
  split; [done|]. split; [done|].
  intros page. unfold render. destruct (loading st); [done|]. intros [= <-]. cbn.
  rewrite Hnone. split; [done|]. intros buttons button.
  destruct (isFilterOpen st); [|done]. intros [= <-]. apply Hbuttons.
Qed.

Hypothesis localeCompare_total :
  ∀ a b, (localeCompare a b ≤ 0 ∨ localeCompare b a ≤ 0)%Z.
Hypothesis localeCompare_trans :
  ∀ a b c, (localeCompare a b ≤ 0 → localeCompare b c ≤ 0 → localeCompare a c ≤ 0)%Z.

Lemma compareUsers_total (direction : SortDirection) (a b : User) :
  before (compareUsers toLowerCase localeCompare direction) a b
  ∨ before (compareUsers toLowerCase localeCompare direction) b a.
Proof. destruct direction; apply localeCompare_total. Qed.

Lemma compareUsers_trans (direction : SortDirection) (a b c : User) :
  before (compareUsers toLowerCase localeCompare direction) a b →
  before (compareUsers toLowerCase localeCompare direction) b c →
  before (compareUsers toLowerCase localeCompare direction) a c.
Proof.
  destruct direction; unfold before; cbn; intros ? ?;
    by eapply localeCompare_trans.
Qed.

Lemma list_filter_narrow {A} (p q : A → bool) (l : list A) :
  (∀ x, q x = true → p x = true) →
  List.filter q (List.filter p l) = List.filter q l.
Proof.
  intros Hqp. induction l as [|x l IH]; simpl; [done|].
  destruct (p x) eqn:Hp; simpl; rewrite IH; [done|].
  destruct (q x) eqn:Hq; [|done]. apply Hqp in Hq. congruence.
Qed.

(** Narrowing the filters only takes cards away: when every user that
    passes the new filters passed the old ones, the new display is the old
    display with the failing users removed, everyone else in the same
    order.  (The comparison of the platform is assumed consistent.) *)
Theorem narrowing_keeps_order (users : list User) (term letter : string)
    (domains : gset Domain) (term' letter' : string) (domains' : gset Domain)
    (direction : SortDirection) :
  (∀ user, passes toLowerCase term' letter' domains' user = true →
           passes toLowerCase term letter domains user = true) →
  let old := filteredUsers toLowerCase localeCompare users term letter domains direction in
  let new := filteredUsers toLowerCase localeCompare users term' letter' domains' direction in
  new = List.filter (passes toLowerCase term' letter' domains') old
  ∧ new `sublist_of` old.
Proof.
  intros Himpl old new.
  assert (new = List.filter (passes toLowerCase term' letter' domains') old) as Heq.
  { subst old new. unfold filteredUsers.
    rewrite filter_sort
      by (intros *; apply compareUsers_total || apply compareUsers_trans).
    by rewrite list_filter_narrow. }
  split; [done|]. rewrite Heq. apply list_filter_sublist.
Qed.

(** What is displayed is stable under the filters that produced it:
    filtering and sorting the displayed list once more changes nothing. *)
Theorem filteredUsers_idempotent (users : list User) (term letter : string)
    (domains : gset Domain) (direction : SortDirection) :
  let shown := filteredUsers toLowerCase localeCompare users term letter domains direction in
  filteredUsers toLowerCase localeCompare shown term letter domains direction = shown.
Proof.
  intros shown. subst shown. unfold filteredUsers.
  rewrite filter_sort
    by (intros *; apply compareUsers_total || apply compareUsers_trans).
  rewrite list_filter_idemp. apply sort_of_sorted.
  apply sort_sorted; intros *; apply compareUsers_total || apply compareUsers_trans.
Qed.

End DisplayedList.

(** ** More on deleting and editing: calls one after the other, and calls
    that overlap *)

Section EditDeleteMore.
Import Js Users.

Lemma replaced_same (selected : User) (l : list User) :
  (∀ user, user ∈ l → id user ≠ id selected) → replaced selected l = l.
Proof.
  intros Hl. unfold replaced. induction l as [|u l IH]; [done|]. csimpl.
  rewrite decide_False by (apply Hl, list_elem_of_here).
  f_equal. apply IH. intros user Hin. by apply Hl, list_elem_of_further.
Qed.

Lemma run_cons (ev : Event) (events : list Event) (s : Session) :
  run (ev :: events) s = run events (step s ev).
Proof. reflexivity. Qed.

Lemma run_app (events events' : list Event) (s : Session) :
  run (events ++ events') s = run events' (run events s).
Proof. unfold run. apply foldl_app. Qed.

Lemma delete_snoc {A} (l : list A) (x : A) (more : list A) :
  delete (length l) (l ++ x :: more) = l ++ more.
Proof. induction l as [|y l IH]; [done|]. cbn. f_equal. apply IH. Qed.

Lemma delete_snoc_next {A} (l : list A) (x y : A) :
  delete (S (length l)) (l ++ [x; y]) = l ++ [x].
Proof. induction l as [|z l IH]; [done|]. cbn. f_equal. apply IH. Qed.

Lemma lookup_snoc {A} (l : list A) (x : A) (more : list A) :
  (l ++ x :: more) !! length l = Some x.
Proof. by rewrite lookup_app_r, Nat.sub_diag. Qed.

Lemma lookup_snoc_next {A} (l : list A) (x y : A) (more : list A) :
  (l ++ x :: y :: more) !! S (length l) = Some y.
Proof.
  rewrite lookup_app_r by lia.
  by replace (S (length l) - length l)%nat with 1%nat by lia.
Qed.

Lemma step_delete_answer (s : Session) (call : nat) (userId : Z)
    (captured : list User) :
  pending s !! call = Some (DeleteCall userId captured) →
  step s (DeleteAnswer call (Resolved ()))
  = {| ui := setUsers (filter (λ user, id user ≠ userId) captured) (ui s);
       pending := delete call (pending s); received := received s |}.
Proof. intros Hc. cbn [step]. rewrite Hc. cbn. by rewrite filter_not_id. Qed.

Lemma step_update_answer (s : Session) (call : nat) (selected : User)
    (captured : list User) :
  pending s !! call = Some (UpdateCall selected captured) →
  step s (UpdateAnswer call (Resolved ()))
  = {| ui := setIsEditModalOpen false (setUsers (replaced selected captured) (ui s));
       pending := delete call (pending s); received := received s |}.
Proof. intros Hc. cbn [step]. rewrite Hc. cbn. by rewrite map_replace. Qed.

(** A delete that is pressed and answered with nothing in between. *)
Lemma delete_at_once (s : Session) (userId : Z) :
  run [DeleteClick userId; DeleteAnswer (length (pending s)) (Resolved ())] s
  = {| ui := setUsers (filter (λ user, id user ≠ userId) (users (ui s))) (ui s);
       pending := pending s; received := received s |}.
Proof.
  unfold run. cbn [foldl].
  erewrite step_delete_answer by (cbn; apply lookup_snoc).
  cbn. by rewrite delete_snoc, app_nil_r.
Qed.

(** A saved edit that is answered before anything else is answered changes
    neither which identifiers are listed, nor how many records or in which
    order: every record of the edited identifier becomes the record of the
    form, every other record stays, and the modal closes.  When no listed
    record has that identifier (its delete was answered while the form was
    open), the list stays as it is. *)
Theorem saved_edit_keeps_ids (s : Session) (selected : User) :
  selectedUser (ui s) = Some selected →
  let s' := run [SubmitEdit; UpdateAnswer (length (pending s)) (Resolved ())] s in
  id <$> users (ui s') = id <$> users (ui s)
  ∧ (∀ i user, users (ui s) !! i = Some user →
       users (ui s') !! i
       = Some (if decide (id user = id selected) then selected else user))
  ∧ ((∀ user, user ∈ users (ui s) → id user ≠ id selected) →
     users (ui s') = users (ui s))
  ∧ isEditModalOpen (ui s') = false
  ∧ pending s' = pending s.
Proof.
  intros Hsel. cbn zeta. unfold run. cbn [foldl].
  assert (step s SubmitEdit = calls (UpdateCall selected (users (ui s))) s) as ->
    by (cbn [step]; by rewrite Hsel).
  erewrite step_update_answer by (cbn; apply lookup_snoc).
  cbn. split; [|split; [|split; [|split]]].
  - unfold replaced. rewrite <- list_fmap_compose. apply list_fmap_ext.
    intros _ u _. cbn. by case_decide.
  - intros i user Hi. unfold replaced. by rewrite list_lookup_fmap, Hi.
  - apply replaced_same.
  - done.
  - by rewrite delete_snoc, app_nil_r.
Qed.

(** Deletions that are each answered before the next one is pressed
    compose: deleting an identifier twice is deleting it once, two deletions
    give the same list in either order, deleting an identifier that is not
    listed leaves the list as it is, and the list never grows. *)
Theorem deletions_compose (s : Session) (a b : Z) :
  let delete := λ userId,
    [DeleteClick userId; DeleteAnswer (length (pending s)) (Resolved ())] in
  users (ui (run (delete a ++ delete a) s)) = users (ui (run (delete a) s))
  ∧ users (ui (run (delete a ++ delete b) s)) = users (ui (run (delete b ++ delete a) s))
  ∧ users (ui (run (delete a ++ delete b) s))
    = filter (λ user, id user ≠ a ∧ id user ≠ b) (users (ui s))
  ∧ ((∀ user, user ∈ users (ui s) → id user ≠ a) →
     users (ui (run (delete a) s)) = users (ui s))
  ∧ (length (users (ui (run (delete a) s))) ≤ length (users (ui s)))%nat.
Proof.
  cbv beta zeta.
  assert (∀ x y, users (ui (run ([DeleteClick x; DeleteAnswer (length (pending s))
                                                   (Resolved ())]
                                 ++ [DeleteClick y; DeleteAnswer (length (pending s))
                                                      (Resolved ())]) s))
                 = filter (λ user, id user ≠ y)
                     (filter (λ user, id user ≠ x) (users (ui s)))) as Htwo.
  { intros x y. rewrite run_app, delete_at_once.
    set (s1 := {| ui := _; pending := pending s; received := _ |}).
    change (length (pending s)) with (length (pending s1)).
    by rewrite delete_at_once. }
  rewrite !Htwo, delete_at_once. cbn [ui users setUsers]. clear Htwo.
  rewrite !list_filter_filter.
  split; [|split; [|split; [|split]]].
  - apply list_filter_iff. tauto.
  - apply list_filter_iff. tauto.
  - apply list_filter_iff. tauto.
  - intros Hnone. induction (users (ui s)) as [|u l IH]; [done|].
    rewrite filter_cons_True by (apply Hnone, list_elem_of_here).
    f_equal. apply IH. intros user Hin. by apply Hnone, list_elem_of_further.
  - apply length_filter.
Qed.

(** The list [users] a handler filters is the one of the render in which
    its button was pressed.  So of two deletes that are both pressed before
    either is answered, the one answered last decides: the list is then the
    list of the moment of the presses without the records of that one
    identifier, and the records the other delete had removed are listed
    again.  Answered one before the other is pressed, the two deletes remove
    both identifiers.  (An answer names its call by the place of the call
    among those in flight: once the call at [first] is answered, the next one
    has moved to [first].) *)
Theorem overlapping_deletes_last_answer_wins (s : Session) (a b : Z) :
  let accepted := Resolved () in
  let first := length (pending s) in
  let second := S first in
  users (ui (run [DeleteClick a; DeleteClick b;
                  DeleteAnswer first accepted; DeleteAnswer first accepted] s))
  = filter (λ user, id user ≠ b) (users (ui s))
  ∧ users (ui (run [DeleteClick a; DeleteClick b;
                    DeleteAnswer second accepted; DeleteAnswer first accepted] s))
    = filter (λ user, id user ≠ a) (users (ui s))
  ∧ users (ui (run [DeleteClick a; DeleteAnswer first accepted;
                    DeleteClick b; DeleteAnswer first accepted] s))
    = filter (λ user, id user ≠ b) (filter (λ user, id user ≠ a) (users (ui s)))
  ∧ (∀ user, user ∈ users (ui s) → id user = a → a ≠ b →
       user ∈ users (ui (run [DeleteClick a; DeleteClick b;
                              DeleteAnswer first accepted;
                              DeleteAnswer first accepted] s))).
Proof.
  cbn zeta.
  assert (users (ui (run [DeleteClick a; DeleteClick b;
                          DeleteAnswer (length (pending s)) (Resolved ());
                          DeleteAnswer (length (pending s)) (Resolved ())] s))
          = filter (λ user, id user ≠ b) (users (ui s))) as Hfirst.
  { unfold run. cbn [foldl].
    erewrite (step_delete_answer (step (step s (DeleteClick a)) (DeleteClick b)))
      by (cbn; rewrite <- app_assoc; apply lookup_snoc).
    erewrite step_delete_answer; [done|].
    cbn. rewrite <- app_assoc. cbn. rewrite delete_snoc. apply lookup_snoc. }
  split; [done|]. split; [|split].
  - unfold run. cbn [foldl].
    erewrite (step_delete_answer (step (step s (DeleteClick a)) (DeleteClick b)))
      by (cbn; rewrite <- app_assoc; apply lookup_snoc_next).
    erewrite step_delete_answer; [done|].
    cbn. rewrite <- app_assoc. cbn. rewrite delete_snoc_next. apply lookup_snoc.
  - unfold run. cbn [foldl].
    erewrite (step_delete_answer (step s (DeleteClick a)))
      by (cbn; apply lookup_snoc).
    erewrite step_delete_answer; [done|].
    cbn. rewrite delete_snoc, app_nil_r. apply lookup_snoc.
  - intros user Hin Ha Hne. rewrite Hfirst. apply list_elem_of_filter.
    split; [congruence|done].
Qed.

(** An edit that is saved while a delete is in flight is lost when the
    delete is answered: the answer puts the list of the moment of its press,
    without the deleted records, in the place of the list that held the
    edited record. *)
Theorem edit_lost_to_delete_in_flight (s : Session) (userId : Z) (user : User)
    (value : string) :
  user ∈ users (ui s) →
  let accepted := Resolved () in
  let edited :=
    {| id := id user; first_name := value; last_name := last_name user;
       email := email user; avatar := avatar user |} in
  let first := length (pending s) in
  let saved :=
    run [DeleteClick userId; EditClick user; TypeFirstName value; SubmitEdit;
         UpdateAnswer (S first) accepted] s in
  users (ui saved) = replaced edited (users (ui s))
  ∧ isEditModalOpen (ui saved) = false
  ∧ users (ui (step saved (DeleteAnswer first accepted)))
    = filter (λ u, id u ≠ userId) (users (ui s)).
Proof.
  intros Hin. cbn zeta. unfold run. cbn [foldl].
  set (s1 := step s (DeleteClick userId)).
  assert (step s1 (EditClick user) = with_ui (handleEdit user (ui s1)) s1) as ->.
  { cbn [step]. by rewrite bool_decide_eq_true_2. }
  set (s4 := step (step (with_ui (handleEdit user (ui s1)) s1) (TypeFirstName value))
               SubmitEdit).
  assert (pending s4
          = pending s ++ [DeleteCall userId (users (ui s));
                          UpdateCall
                            {| id := id user; first_name := value;
                               last_name := last_name user; email := email user;
                               avatar := avatar user |} (users (ui s))]) as Hp4.
  { subst s4 s1. cbn. by rewrite <- app_assoc. }
  erewrite (step_update_answer s4) by (rewrite Hp4; apply lookup_snoc_next).
  split; [done|]. split; [done|].
  erewrite step_delete_answer; [done|].
  cbn [pending]. rewrite Hp4, delete_snoc_next. apply lookup_snoc.
Qed.

End EditDeleteMore.

(** ** Invariants of a session on the page *)

Section SessionInvariants.
Import Js Users.
Variable toLowerCase : string → string.
Variable localeCompare : string → string → Z.

Lemma step_modal (s : Session) (ev : Event) :
  (isEditModalOpen (ui s) = true → is_Some (selectedUser (ui s))) →
  isEditModalOpen (ui (step s ev)) = true → is_Some (selectedUser (ui (step s ev))).
Proof.
  intros Hs. destruct ev; cbn [step]; try exact Hs.
  - by destruct (page =? currentPage (ui s))%Z.
  - case_bool_decide; [|exact Hs]. cbn. eauto.
  - unfold editFirstName.
    destruct (selectedUser (ui s)) eqn:Hsel; cbn; rewrite ?Hsel; eauto.
  - unfold editLastName.
    destruct (selectedUser (ui s)) eqn:Hsel; cbn; rewrite ?Hsel; eauto.
  - unfold editEmail.
    destruct (selectedUser (ui s)) eqn:Hsel; cbn; rewrite ?Hsel; eauto.
  - destruct (selectedUser (ui s)) eqn:Hsel; cbn; rewrite ?Hsel; eauto.
  - done.
  - destruct (pending s !! call) as [[| |]|]; try exact Hs. by destruct net.
  - destruct (pending s !! call) as [[| |]|]; try exact Hs. by destruct net.
  - destruct (pending s !! call) as [[| |]|]; try exact Hs. by destruct net.
Qed.

Lemma run_modal (events : list Event) (s : Session) :
  (isEditModalOpen (ui s) = true → is_Some (selectedUser (ui s))) →
  isEditModalOpen (ui (run events s)) = true →
  is_Some (selectedUser (ui (run events s))).
Proof.
  revert s. induction events as [|ev events IH]; intros s Hs; [done|].
  apply IH. by apply step_modal.
Qed.

(** Whenever the modal is open it has a record to edit, so the guard
    [isEditModalOpen && selectedUser] never hides an open modal: the page,
    once it is no longer loading, shows the form on that record.  And the
    record in the form always carries the identifier and the avatar of a
    record the service returned: the form cannot change them. *)
Theorem open_modal_edits_received_user (events : list Event) :
  let s := run events mounted in
  isEditModalOpen (ui s) = true →
  ∃ user r, editModal (ui s) = Some user
            ∧ r ∈ received s ∧ id user = id r ∧ avatar user = avatar r
            ∧ ∀ term page, render toLowerCase localeCompare term (ui s) = Rendered page →
                           modal page = Some user.
Proof.
  intros s Hopen.
  destruct (run_modal events mounted ltac:(done) Hopen) as [user Huser].
  assert (sourced events s user) as (r & Hr & Hid & Havatar & _).
  { apply run_sourced. right. by left. }
  assert (editModal (ui s) = Some user) as Hmodal
    by (unfold editModal; subst s; by rewrite Hopen).
  exists user, r. split; [done|]. split; [done|]. split; [done|]. split; [done|].
  intros term page. unfold render. destruct (loading (ui s)); [done|].
  by intros [= <-].
Qed.

Lemma step_loading (s : Session) (ev : Event) :
  loading (ui s) = false → loading (ui (step s ev)) = false.
Proof.
  intros Hs. destruct ev; cbn [step]; try exact Hs.
  - by destruct (page =? currentPage (ui s))%Z.
  - by case_bool_decide.
  - unfold editFirstName. by destruct (selectedUser (ui s)).
  - unfold editLastName. by destruct (selectedUser (ui s)).
  - unfold editEmail. by destruct (selectedUser (ui s)).
  - by destruct (selectedUser (ui s)).
  - destruct (pending s !! call) as [[| |]|]; try exact Hs. by destruct net.
  - destruct (pending s !! call) as [[| |]|]; try exact Hs. by destruct net.
  - destruct (pending s !! call) as [[| |]|]; try exact Hs. by destruct net.
Qed.

Lemma run_loading (events : list Event) (s : Session) :
  loading (ui s) = false → loading (ui (run events s)) = false.
Proof.
  revert s. induction events as [|ev events IH]; intros s Hs; [done|].
  apply IH. by apply step_loading.
Qed.

Lemma step_still_loading (s : Session) (ev : Event) :
  answers_fetch ev = false → loading (ui (step s ev)) = loading (ui s).
Proof.
  intros Hev. destruct ev; cbn [step]; try done.
  - by destruct (page =? currentPage (ui s))%Z.
  - by case_bool_decide.
  - unfold editFirstName. by destruct (selectedUser (ui s)).
  - unfold editLastName. by destruct (selectedUser (ui s)).
  - unfold editEmail. by destruct (selectedUser (ui s)).
  - by destruct (selectedUser (ui s)).
  - destruct (pending s !! call) as [[| |]|]; try done. by destruct net.
  - destruct (pending s !! call) as [[| |]|]; try done. by destruct net.
Qed.

(** The loading spinner is shown exactly until the first list request has
    been answered, whether it succeeded or failed: as long as no answer to a
    list request has come, [loading] is set, and from the first such answer
    on, whatever happens on the page, later page changes included, [loading]
    stays false. *)
Theorem spinner_only_until_first_answer (s : Session) (front back : list Event)
    (call : nat) (page : Z) (net : Promise (Api.UsersData User)) :
  pending (run front s) !! call = Some (FetchCall page) →
  loading (ui (run (front ++ FetchAnswer call net :: back) s)) = false
  ∧ (Forall (λ ev, answers_fetch ev = false) front →
     loading (ui (run front s)) = loading (ui s)).
Proof.
  intros Hcall. split.
  - unfold run. rewrite foldl_app. cbn [foldl]. apply run_loading.
    cbn [step]. fold (run front s). rewrite Hcall. by destruct net.
  - clear Hcall. revert s. induction front as [|ev front IH]; intros s; [done|].
    intros [Hev Hfront]%Forall_cons. rewrite run_cons, IH by done.
    by apply step_still_loading.
Qed.

(** A page change whose request fails moves the mark of the current page
    but leaves the users of the old page listed; pressing the same page
    button again does nothing, no new request is made. *)
Theorem failed_page_change_sticks (s : Session) (page : Z) (reason : string) :
  page ≠ currentPage (ui s) →
  let s' := run [PageClick page; FetchAnswer (length (pending s)) (Rejected reason)] s in
  currentPage (ui s') = page
  ∧ users (ui s') = users (ui s)
  ∧ totalPages (ui s') = totalPages (ui s)
  ∧ received s' = received s
  ∧ pending s' = pending s
  ∧ step s' (PageClick page) = s'.
Proof.
  intros Hne. unfold run. cbn [foldl].
  assert (step s (PageClick page)
          = calls (FetchCall page) (with_ui (setCurrentPage page (ui s)) s)) as ->.
  { cbn [step]. by rewrite (proj2 (Z.eqb_neq _ _) Hne). }
  cbn [step calls with_ui pending]. rewrite lookup_snoc. cbn.
  by rewrite delete_snoc, app_nil_r, Z.eqb_refl.
Qed.

End SessionInvariants.

(** ** More on the login form *)

Section LoginMore.
Import Js Login.

(** Validation reports on both inputs at once and looks at nothing but
    their text: the verdict is positive exactly when both messages are empty,
    an empty input is reported as required and a non-empty bad one by the
    other message, and messages already on the form (or retyping the same
    text) do not change the outcome. *)
Theorem validateForm_messages (st : State) :
  let result := validateForm st in
  (fst result = true
   ↔ errors (snd result) = {| errors_email := ""; errors_password := "" |})
  ∧ (email st = "" → errors_email (errors (snd result)) = "Email is required")
  ∧ (email st ≠ "" → ¬ matches_email_pattern (email st) →
     errors_email (errors (snd result)) = "Please enter a valid email")
  ∧ (password st = "" →
     errors_password (errors (snd result)) = "Password is required")
  ∧ (password st ≠ "" → (String.length (password st) < 4)%nat →
     errors_password (errors (snd result)) = "Password must be at least 4 characters")
  ∧ (∀ e, validateForm (setErrors e st) = result)
  ∧ validateForm (changePassword (password st) (changeEmail (email st) st)) = result.
Proof.
  cbn zeta. split; [|split; [|split; [|split; [|split; [|split]]]]].
  - unfold validateForm.
    destruct (truthy (email st)), (re_test email_pattern (email st)),
      (truthy (password st)), (String.length (password st) <? 4)%nat; by cbn.
  - intros He%truthy_false. unfold validateForm. rewrite He.
    by destruct (truthy (password st)),
      (String.length (password st) <? 4)%nat.
  - intros He%truthy_true Hp. rewrite <- email_pattern_spec in Hp.
    apply not_true_is_false in Hp. unfold validateForm. rewrite He, Hp.
    by destruct (truthy (password st)),
      (String.length (password st) <? 4)%nat.
  - intros Hw%truthy_false. unfold validateForm. rewrite Hw.
    by destruct (truthy (email st)),
      (re_test email_pattern (email st)).
  - intros Hw%truthy_true Hlen%Nat.ltb_lt. unfold validateForm.
    rewrite Hw, Hlen.
    by destruct (truthy (email st)),
      (re_test email_pattern (email st)).
  - done.
  - done.
Qed.

(** The check of the address is not anchored: a text passes as soon as it
    contains a passing fragment, so anything may stand before and after it,
    white space included.  A passing text holds an ['@'] and a dot and is at
    least five characters long. *)
Theorem email_check_unanchored (s pre post : string) :
  re_test email_pattern s = true →
  re_test email_pattern (pre +:+ s +:+ post) = true
  ∧ occurs_in "@" s ∧ occurs_in "." s ∧ (5 ≤ String.length s)%nat.
Proof.
  rewrite !email_pattern_spec.
  intros (pre' & a & b & c & post' & -> & Hwa & Hwb & Hwc).
  pose proof Hwa as [Ha _]. pose proof Hwb as [Hb _]. pose proof Hwc as [Hc _].
  split; [|split; [|split]].
  - exists (pre +:+ pre'), a, b, c, (post' +:+ post).
    split; [by rewrite !append_assoc|]. done.
  - exists (pre' +:+ a), (b +:+ "." +:+ c +:+ post'). by rewrite !append_assoc.
  - exists (pre' +:+ a +:+ "@" +:+ b), (c +:+ post'). by rewrite !append_assoc.
  - rewrite !append_length.
    destruct a, b, c; try done. cbn. lia.
Qed.

(** What a submit can do: it navigates to [/users] exactly when the form is
    valid and the service answered with a non-empty token, and only then is
    browser storage written; keys other than [token] are never touched; the
    text of the inputs is never changed; and the form is left in the loading
    state only if it was there before and the form was invalid. *)
Theorem handleSubmit_outcome (st : State) (ls : LocalStorage.t)
    (net : Promise Api.LoginData) :
  let out := handleSubmit st ls net in
  (Navigate "/users" ∈ effects out
   ↔ ∃ response token,
       form_valid st ∧ net = Resolved response
       ∧ Api.token response = Some token ∧ token ≠ "")
  ∧ (storage out ≠ ls → Navigate "/users" ∈ effects out)
  ∧ (∀ key, key ≠ "token" → storage out !! key = ls !! key)
  ∧ email (state out) = email st ∧ password (state out) = password st
  ∧ (isLoading (state out) = true → isLoading st = true ∧ ¬ form_valid st).
Proof.
  cbn zeta. unfold handleSubmit.
  assert (form_valid st ∨ ¬ form_valid st) as [Hvalid|Hinvalid].
  { rewrite <- validateForm_spec. destruct (fst (validateForm st)); auto. }
  - rewrite (validateForm_valid st Hvalid). cbn.
    destruct net as [[[token|]]|reason]; cbn.
    + destruct (truthy token) eqn:Htoken; cbn.
      * apply truthy_true in Htoken.
        split; [|split; [|split; [|done]]].
        -- split; [|intros _; (do 2 apply list_elem_of_further; apply list_elem_of_here)].
           intros _. by exists {| Api.token := Some token |}, token.
        -- intros _. (do 2 apply list_elem_of_further; apply list_elem_of_here).
        -- intros key Hkey. unfold LocalStorage.setItem.
           by rewrite lookup_insert_ne.
      * apply truthy_false in Htoken. subst token.
        split; [|done].
        split; [(intros Hin; repeat (apply elem_of_cons in Hin as [?|Hin]; [done|]);
                 by apply elem_of_nil in Hin)|]. intros (response & token & _ & [= <-] & [= <-] & ?).
        done.
    + split; [|done]. split; [(intros Hin; repeat (apply elem_of_cons in Hin as [?|Hin]; [done|]);
                 by apply elem_of_nil in Hin)|].
      intros (response & token & _ & [= <-] & ? & _). done.
    + split; [|done]. split; [(intros Hin; repeat (apply elem_of_cons in Hin as [?|Hin]; [done|]);
                 by apply elem_of_nil in Hin)|].
      intros (response & token & _ & ? & _). done.
  - pose proof (validateForm_invalid st Hinvalid) as [Hfalse _].
    pose proof (validateForm_state st) as Hst.
    destruct (validateForm st) as [isValid st']. cbn in Hfalse, Hst.
    subst isValid. cbn. rewrite Hst. cbn.
    split; [|done]. split; [(intros Hin; repeat (apply elem_of_cons in Hin as [?|Hin]; [done|]);
                 by apply elem_of_nil in Hin)|].
    intros (response & token & ? & _). done.
Qed.

End LoginMore.

(** ** Browser storage across the pages, and the routes *)

Section StorageAndRoutes.
Import Js Users.

Lemma loadFilters_key (ls ls' : LocalStorage.t) (target : State) :
  ls !! "userFilters" = ls' !! "userFilters" →
  loadFilters ls target = loadFilters ls' target.
Proof. intros Hkey. unfold loadFilters, LocalStorage.getItem. by rewrite Hkey. Qed.

(** The two keys of browser storage are independent: saving the filters
    neither opens nor closes a session (the route guard and the interceptor
    read the same token as before), and neither a submit of the login form
    nor a logout changes what the load effect reads. *)
Theorem storage_keys_independent (st target : State) (form : Login.State)
    (ls : LocalStorage.t) (net : Promise Api.LoginData) (config : Api.Config)
    (darkMode : bool) :
  App.route (saveFilters st ls) darkMode "/users" = App.route ls darkMode "/users"
  ∧ Api.interceptor (saveFilters st ls) config = Api.interceptor ls config
  ∧ loadFilters (Login.storage (Login.handleSubmit form ls net)) target
    = loadFilters ls target
  ∧ loadFilters (fst (App.handleLogout ls)) target = loadFilters ls target.
Proof.
  assert (LocalStorage.getItem "token" (saveFilters st ls)
          = LocalStorage.getItem "token" ls) as Htoken.
  { unfold saveFilters, LocalStorage.getItem, LocalStorage.setItem.
    by rewrite lookup_insert_ne. }
  split; [|split; [|split]].
  - rewrite !route_users. unfold App.PrivateRoute. by rewrite Htoken.
  - unfold Api.interceptor. by rewrite Htoken.
  - apply loadFilters_key. unfold Login.handleSubmit.
    destruct (Login.validateForm form) as [[] form']; cbn; [|done].
    destruct net as [[[token|]]|reason]; cbn; [|done..].
    destruct (truthy token); cbn; [|done].
    unfold LocalStorage.setItem. by rewrite lookup_insert_ne.
  - apply loadFilters_key. cbn. unfold LocalStorage.removeItem.
    by rewrite lookup_delete_ne.
Qed.

(** The stored text determines the preferences up to the blank option:
    two states that leave the same text under [userFilters] have the same
    letter, the same direction and the same texts among the selected
    domains, and one holds [undefined] or [null] if and only if the other
    does; the two selections are equal when neither holds the blank option.
    The text of the last save is the one that stays. *)
Theorem stored_filters_determine_preferences (st1 st2 : State)
    (ls1 ls2 : LocalStorage.t) :
  saveFilters st1 ls1 !! "userFilters" = saveFilters st2 ls2 !! "userFilters" →
  selectedLetter st1 = selectedLetter st2
  ∧ sortDirection st1 = sortDirection st2
  ∧ (∀ domain, Named domain ∈ selectedDomains st1 ↔ Named domain ∈ selectedDomains st2)
  ∧ (Undefined ∈ selectedDomains st1 ∨ Null ∈ selectedDomains st1
     ↔ Undefined ∈ selectedDomains st2 ∨ Null ∈ selectedDomains st2)
  ∧ (Undefined ∉ selectedDomains st1 → Undefined ∉ selectedDomains st2 →
     selectedDomains st1 = selectedDomains st2)
  ∧ saveFilters st2 (saveFilters st1 ls2) = saveFilters st2 ls2.
Proof.
  intros Hkey.
  pose proof (loadFilters_key _ _ initial Hkey) as Hload.
  rewrite !load_after_save in Hload. injection Hload as Hletter Hdirection Hdomains.
  split; [done|]. split; [done|]. split; [|split; [|split]].
  - intros domain.
    by rewrite <- (elem_of_as_stored _ (Named domain)), Hdomains,
      (elem_of_as_stored _ (Named domain)).
  - by rewrite <- (elem_of_as_stored _ Null), Hdomains, (elem_of_as_stored _ Null).
  - intros H1%as_stored_same H2%as_stored_same. by rewrite <- H1, <- H2.
  - unfold saveFilters, LocalStorage.setItem. apply insert_insert_eq.
Qed.

Lemma slashes_spec (s : string) : App.slashes s = all_chars (Ascii.eqb "/") s.
Proof.
  induction s as [|c s IH]; [done|]. cbn. by rewrite IH, (Ascii.eqb_sym c).
Qed.

Lemma lower_ascii_spec (p c : ascii) :
  lower_ascii p = p →
  Ascii.eqb (lower_ascii c) (lower_ascii p) = true ↔ letter_of p c.
Proof.
  intros Hp. rewrite Hp, Ascii.eqb_eq. unfold letter_of, lower_ascii in *.
  pose proof (nat_ascii_bounded c) as Hc. pose proof (nat_ascii_bounded p) as Hpb.
  destruct ((65 <=? nat_of_ascii c)%nat && (nat_of_ascii c <=? 90)%nat) eqn:Hcap.
  - apply andb_true_iff in Hcap as [H1%Nat.leb_le H2%Nat.leb_le]. split.
    + intros <-. right. rewrite nat_ascii_embedding by lia. lia.
    + intros [->|[_ Heq]].
      * rewrite (proj2 (andb_true_iff _ _)) in Hp
          by (split; apply Nat.leb_le; lia).
        done.
      * rewrite <- Heq. apply ascii_nat_embedding.
  - split; [by left|]. intros [?|[Hrange Heq]]; [done|].
    apply andb_false_iff in Hcap as [H1%Nat.leb_gt|H2%Nat.leb_gt]; lia.
Qed.

Lemma matchPath_spec (path pathname : string) :
  all_chars (λ p, Ascii.eqb (lower_ascii p) p) path = true →
  App.matchPath path pathname = true ↔ names_route path pathname.
Proof.
  revert pathname. induction path as [|p path IH]; intros pathname Hpath.
  - cbn. by rewrite slashes_spec.
  - cbn in Hpath. apply andb_true_iff in Hpath as [Hp%Ascii.eqb_eq Hpath].
    destruct pathname as [|c pathname]; cbn; [done|].
    by rewrite andb_true_iff, lower_ascii_spec, IH.
Qed.

(** A path name matches at most one of the three route paths. *)
Lemma routes_disjoint (pathname : string) :
  (App.matchPath "/login" pathname = true →
   App.matchPath "/users" pathname = false ∧ App.matchPath "/" pathname = false)
  ∧ (App.matchPath "/users" pathname = true → App.matchPath "/" pathname = false).
Proof.
  destruct pathname as [|c0 [|c1 pathname]]; cbn; [done| |].
  { by destruct (Ascii.eqb _ _). }
  change (lower_ascii "/") with "/"%char. change (lower_ascii "l") with "l"%char.
  change (lower_ascii "u") with "u"%char.
  destruct (Ascii.eqb (lower_ascii c0) "/"); cbn [andb]; [|done].
  destruct (Ascii.eqb_spec (lower_ascii c1) "l") as [Hl|Hl],
    (Ascii.eqb_spec (lower_ascii c1) "u") as [Hu|Hu],
    (Ascii.eqb_spec c1 "/") as [Hs|Hs]; cbn [andb]; try done; try congruence.
  - subst c1. by vm_compute in Hl.
  - subst c1. by vm_compute in Hu.
Qed.

Lemma visit_login (hops : nat) (ls : LocalStorage.t) (darkMode : bool) :
  App.visit hops ls darkMode "/login" = App.Shows "/login" App.LoginPage.
Proof. by destruct hops. Qed.

Lemma visit_users (hops : nat) (ls : LocalStorage.t) (darkMode : bool) :
  App.visit (S hops) ls darkMode "/users"
  = if truthy_opt (LocalStorage.getItem "token" ls)
    then App.Shows "/users" (App.UsersPage darkMode)
    else App.Shows "/login" App.LoginPage.
Proof.
  cbn [App.visit]. rewrite route_users. unfold App.PrivateRoute.
  destruct (truthy_opt (LocalStorage.getItem "token" ls)); [done|].
  apply visit_login.
Qed.

(** Visiting a path ends after at most two redirects, never in a loop.
    The router reads a path name up to the case of its letters and up to
    slashes at its end.  A path name that spells [/login] shows the login
    page, token or not; one that spells [/users] shows the user list when a
    token is present and ends on the login page otherwise; [/] leads on to
    [/users]; and any other path name has no route. *)
Theorem visits_settle (extra : nat) (ls : LocalStorage.t) (darkMode : bool)
    (pathname : string) :
  let landing := App.visit (2 + extra) ls darkMode pathname in
  (names_route "/login" pathname → landing = App.Shows pathname App.LoginPage)
  ∧ (names_route "/users" pathname →
     ((∃ token, token_present ls token) →
        landing = App.Shows pathname (App.UsersPage darkMode))
     ∧ (no_token ls → landing = App.Shows "/login" App.LoginPage))
  ∧ (names_route "/" pathname ∨ pathname = "" →
     ((∃ token, token_present ls token) →
        landing = App.Shows "/users" (App.UsersPage darkMode))
     ∧ (no_token ls → landing = App.Shows "/login" App.LoginPage))
  ∧ (¬ names_route "/login" pathname → ¬ names_route "/users" pathname →
     ¬ names_route "/" pathname → pathname ≠ "" → landing = App.NoRoute pathname)
  ∧ (∀ to, landing ≠ App.Redirecting to).
Proof.
  cbn zeta. change (2 + extra)%nat with (S (S extra)).
  assert (((∃ token, token_present ls token) →
             App.visit (S extra) ls darkMode "/users"
             = App.Shows "/users" (App.UsersPage darkMode))
          ∧ (no_token ls →
             App.visit (S extra) ls darkMode "/users" = App.Shows "/login" App.LoginPage)
          ∧ ∀ to, App.visit (S extra) ls darkMode "/users" ≠ App.Redirecting to)
    as (Hwith & Hwithout & Hends).
  { rewrite visit_users. split; [|split].
    - intros [token Htoken%token_present_truthy]. by rewrite Htoken.
    - intros Hno%no_token_falsy. by rewrite Hno.
    - intros to. by destruct (truthy_opt (LocalStorage.getItem "token" ls)). }
  destruct pathname as [|c rest].
  { change (App.visit (S (S extra)) ls darkMode "")
      with (App.visit (S extra) ls darkMode "/users").
    split; [done|]. split; [done|]. split; [done|]. split; [done|]. done. }
  set (pathname := String c rest).
  assert (∀ path, path ∈ ["/login"; "/users"; "/"] →
          names_route path pathname ↔ App.matchPath path pathname = true) as Hspec.
  { intros path Hpath. symmetry. apply matchPath_spec.
    repeat (apply elem_of_cons in Hpath as [->|Hpath]; [reflexivity|]).
    by apply elem_of_nil in Hpath. }
  rewrite (Hspec "/login"), (Hspec "/users"), (Hspec "/")
    by (repeat first [apply list_elem_of_here|apply list_elem_of_further]).
  clear Hspec.
  assert (App.visit (S (S extra)) ls darkMode pathname
    = match App.route ls darkMode pathname with
      | None => App.NoRoute pathname
      | Some (App.Redirect to) => App.visit (S extra) ls darkMode to
      | Some page => App.Shows pathname page
      end) as -> by done.
  unfold App.route. change (if truthy pathname then pathname else "/") with pathname.
  destruct (routes_disjoint pathname) as [Hlogin Husers].
  destruct (App.matchPath "/login" pathname) eqn:Hl.
  { destruct (Hlogin eq_refl) as [-> ->].
    split; [done|]. split; [done|]. split; [by intros [?|?]|]. done. }
  clear Hlogin. destruct (App.matchPath "/users" pathname) eqn:Hu.
  { rewrite (Husers eq_refl). unfold App.PrivateRoute.
    split; [done|]. split; [|split; [by intros [?|?]|split; [done|]]].
    - intros _. split.
      + intros [token Htoken%token_present_truthy]. by rewrite Htoken.
      + intros Hno%no_token_falsy. rewrite Hno. apply visit_login.
    - intros to. destruct (truthy_opt (LocalStorage.getItem "token" ls)); [done|].
      by rewrite visit_login. }
  clear Husers. destruct (App.matchPath "/" pathname) eqn:Hr.
  { split; [done|]. split; [done|]. split; [done|]. split; [|done].
    by intros _ _ Hn. }
  split; [done|]. split; [done|]. split; [by intros [?|?]|]. done.
Qed.

(** Requests for different pages or different users never share a URL:
    the page and the identifier can be read back from it.  An update and a
    delete of the same user address the same URL and differ in the method. *)
Theorem request_urls_distinct (ls : LocalStorage.t) (a b : Z) (body : Api.Body)
    (users_net users_net' : Promise (Api.UsersData User))
    (net net' : Promise unit) :
  (Api.url (fst (Api.getUsers ls a users_net))
   = Api.url (fst (Api.getUsers ls b users_net')) → a = b)
  ∧ (Api.url (fst (Api.deleteUser ls a net))
     = Api.url (fst (Api.deleteUser ls b net')) → a = b)
  ∧ (Api.url (fst (Api.updateUser ls a body net))
     = Api.url (fst (Api.deleteUser ls b net')) → a = b)
  ∧ Api.method (fst (Api.updateUser ls a body net))
    ≠ Api.method (fst (Api.deleteUser ls a net')).
Proof.
  assert (∀ method url data, Api.url (Api.send ls method url data) = url) as Hurl.
  { intros method url data. apply send_request_is. }
  assert (∀ method url data, Api.method (Api.send ls method url data) = method)
    as Hmethod.
  { intros method url data. apply send_request_is. }
  unfold Api.getUsers, Api.deleteUser, Api.updateUser. cbn [fst].
  rewrite !Hurl, !Hmethod.
  split; [|split; [|split]]; [| | |done];
    intros Heq%(inj (String.app _)); by apply (inj pretty).
Qed.

End StorageAndRoutes.

(** ** The two directions, and the filters across the session *)

Section DirectionsAndFilters.
Import Js Users.
Variable toLowerCase : string → string.
Variable localeCompare : string → string → Z.

Lemma StronglySorted_reverse {A} (R : relation A) (l : list A) :
  StronglySorted R l → StronglySorted (flip R) (reverse l).
Proof.
  induction l as [|x l IH]; [constructor|].
  intros [Hx Hl]%StronglySorted_cons. rewrite reverse_cons.
  apply StronglySorted_app. split; [|split].
  - intros y z Hy ->%list_elem_of_singleton. unfold flip.
    rewrite Forall_forall in Hx. apply Hx. by apply elem_of_reverse.
  - by apply IH.
  - repeat constructor.
Qed.

Lemma step_filters (s : Session) (ev : Event) :
  is_filter_click ev = false →
  selectedLetter (ui (step s ev)) = selectedLetter (ui s)
  ∧ sortDirection (ui (step s ev)) = sortDirection (ui s)
  ∧ selectedDomains (ui (step s ev)) = selectedDomains (ui s).
Proof.
  intros Hev. destruct ev; try done; cbn [step].
  - by destruct (page =? currentPage (ui s))%Z.
  - by case_bool_decide.
  - unfold editFirstName. by destruct (selectedUser (ui s)).
  - unfold editLastName. by destruct (selectedUser (ui s)).
  - unfold editEmail. by destruct (selectedUser (ui s)).
  - by destruct (selectedUser (ui s)).
  - destruct (pending s !! call) as [[| |]|]; try done. by destruct net.
  - destruct (pending s !! call) as [[| |]|]; try done. by destruct net.
  - destruct (pending s !! call) as [[| |]|]; try done. by destruct net.
Qed.

(** The filters are changed by the filter buttons alone: fetching another
    page, deleting and editing, and the answers of the service, in whatever
    order they come, leave the selected letter, the direction and the
    selected domains as they are. *)
Theorem filters_survive_page_changes (events : list Event) (s : Session) :
  Forall (λ ev, is_filter_click ev = false) events →
  selectedLetter (ui (run events s)) = selectedLetter (ui s)
  ∧ sortDirection (ui (run events s)) = sortDirection (ui s)
  ∧ selectedDomains (ui (run events s)) = selectedDomains (ui s).
Proof.
  revert s. induction events as [|ev events IH]; intros s Hevents; [done|].
  apply Forall_cons in Hevents as [Hev Hevents].
  destruct (step_filters s ev Hev) as (Hl & Hd & Hs).
  destruct (IH (step s ev) Hevents) as (Hl' & Hd' & Hs').
  cbn [run foldl] in *. unfold run in *. by rewrite Hl', Hd', Hs'.
Qed.

Hypothesis localeCompare_total :
  ∀ a b, (localeCompare a b ≤ 0 ∨ localeCompare b a ≤ 0)%Z.
Hypothesis localeCompare_trans :
  ∀ a b c, (localeCompare a b ≤ 0 → localeCompare b c ≤ 0 → localeCompare a c ≤ 0)%Z.

(** When no two different listed users tie in the comparison of their
    lower-cased full names, the descending display is the ascending display
    read backwards.  (The comparison of the platform is assumed consistent;
    users that tie keep the fetched order in both directions.) *)
Theorem descending_is_ascending_reversed (users : list User) (term letter : string)
    (domains : gset Domain) :
  (∀ a b, a ∈ users → b ∈ users →
     name_ordered toLowerCase localeCompare asc a b →
     name_ordered toLowerCase localeCompare asc b a → a = b) →
  filteredUsers toLowerCase localeCompare users term letter domains desc
  = reverse (filteredUsers toLowerCase localeCompare users term letter domains asc).
Proof.
  intros Hties. unfold filteredUsers.
  set (kept := List.filter (passes toLowerCase term letter domains) users).
  assert (∀ x, x ∈ kept → x ∈ users) as Hkept.
  { intros x Hx. apply list_elem_of_In, filter_In in Hx as [Hx _].
    by apply list_elem_of_In. }
  apply (StronglySorted_unique_strong
           (before (compareUsers toLowerCase localeCompare desc))).
  - intros x1 x2 Hx1 Hx2 H12 H21.
    rewrite sort_perm in Hx1. rewrite reverse_Permutation, sort_perm in Hx2.
    symmetry. by apply Hties; [apply Hkept..| |].
  - apply sort_sorted.
    + intros a b. apply localeCompare_total.
    + intros a b c ? ?. by eapply localeCompare_trans.
  - apply (StronglySorted_reverse
             (before (compareUsers toLowerCase localeCompare asc))).
    apply sort_sorted.
    + intros a b. apply localeCompare_total.
    + intros a b c. apply localeCompare_trans.
  - by rewrite reverse_Permutation, !sort_perm.
Qed.

End DirectionsAndFilters.

(** ** The further properties on sample data *)

Section FurtherExamples.
Import Js Users Sample.

Example listing_state :
  users (ui listing) = page ∧ loading (ui listing) = false
  ∧ totalPages (ui listing) = 2%Z ∧ pending listing = [] ∧ received listing = page.
Proof. repeat split; reflexivity. Qed.

Lemma no_at_address_needs_blank_option_witness :
  nomail ∈ filteredUsers lower_string compare_units (nomail :: page) "" ""
             {[Named "reqres.in"]} asc
  ↔ nomail ∈ nomail :: page ∧ search_ok lower_string "" nomail
    ∧ letter_ok lower_string "" nomail
    ∧ Undefined ∈ ({[Named "reqres.in"]} : gset Domain).
Proof.
  assert (¬ occurs_in "@" (email nomail)) as Hat
    by (by apply emailDomain_none).
  assert (({[Named "reqres.in"]} : gset Domain) ≠ ∅) as Hsel
    by apply non_empty_singleton_L.
  exact (no_at_address_needs_blank_option lower_string compare_units (nomail :: page)
           "" "" {[Named "reqres.in"]} asc nomail Hat Hsel).
Defined.

Example nomail_has_a_button :
  emailDomains (nomail :: page) = [None; Some "reqres.in"; Some "example.org"].
Proof. vm_compute. reflexivity. Qed.

Example blank_button_shows_nomail :
  let st := toggleDomain None (setUsers (nomail :: page) initial) in
  domainButtons st = [(None, true); (Some "reqres.in", false); (Some "example.org", false)]
  ∧ filteredUsers lower_string compare_units (users st) "" "" (selectedDomains st) asc
    = [nomail].
Proof. split; vm_compute; reflexivity. Qed.

Lemma stale_domain_selection_witness :
  users emmaDeleted = [george; janet]
  ∧ selectedDomains emmaDeleted = {[Named "example.org"]}
  ∧ filteredUsers lower_string compare_units (users emmaDeleted) ""
      (selectedLetter emmaDeleted) (selectedDomains emmaDeleted)
      (sortDirection emmaDeleted) = []
  ∧ (∀ button, button ∈ domainButtons emmaDeleted → snd button = false)
  ∧ ∀ page, render lower_string compare_units "" emmaDeleted = Rendered page →
      cards page = NoUsersFound
      ∧ ∀ buttons button,
          filterPanel page = Some buttons → button ∈ buttons → snd button = false.
Proof.
  assert (selectedDomains emmaDeleted = {[Named "example.org"]}) as Hsel
    by (cbn; apply (left_id_L ∅ (∪))).
  split; [done|]. split; [done|].
  apply (stale_domain_selection lower_string compare_units emmaDeleted "").
  - rewrite Hsel. apply non_empty_singleton_L.
  - intros d. rewrite Hsel. intros [= ->]%elem_of_singleton. cbn.
    intros Hin. apply elem_of_cons in Hin as [?|Hin]; [done|].
    by apply elem_of_nil in Hin.
  - rewrite Hsel. by intros ?%elem_of_singleton.
Defined.

Lemma narrowing_keeps_order_witness :
  let old := filteredUsers lower_string compare_units page "" "" ∅ desc in
  let new :=
    filteredUsers lower_string compare_units page "e" "J" {[Named "reqres.in"]} desc in
  new = List.filter (passes lower_string "e" "J" {[Named "reqres.in"]}) old
  ∧ new `sublist_of` old.
Proof.
  exact (narrowing_keeps_order lower_string compare_units
           compare_units_total compare_units_trans page "" "" ∅
           "e" "J" {[Named "reqres.in"]} desc (λ _ _, eq_refl)).
Defined.

Lemma filteredUsers_idempotent_witness :
  let shown := filteredUsers lower_string compare_units page "reqres" "" ∅ desc in
  filteredUsers lower_string compare_units shown "reqres" "" ∅ desc = shown.
Proof.
  exact (filteredUsers_idempotent lower_string compare_units
           compare_units_total compare_units_trans page "reqres" "" ∅ desc).
Defined.

Lemma saved_edit_keeps_ids_witness :
  let typed := run [EditClick janet; TypeFirstName "Jane"] listing in
  let s' := run [SubmitEdit; UpdateAnswer 0 (Resolved ())] typed in
  id <$> users (ui s') = id <$> users (ui typed)
  ∧ (∀ i user, users (ui typed) !! i = Some user →
       users (ui s') !! i = Some (if decide (id user = id jane) then jane else user))
  ∧ ((∀ user, user ∈ users (ui typed) → id user ≠ id jane) →
     users (ui s') = users (ui typed))
  ∧ isEditModalOpen (ui s') = false
  ∧ pending s' = pending typed.
Proof.
  exact (saved_edit_keeps_ids (run [EditClick janet; TypeFirstName "Jane"] listing)
           jane eq_refl).
Defined.

Example overlapping_deletes_on_page :
  let pressed := run [DeleteClick 1; DeleteClick 2] listing in
  users (ui (run [DeleteAnswer 0 (Resolved ()); DeleteAnswer 0 (Resolved ())] pressed))
  = [george; emma]
  ∧ users (ui (run [DeleteAnswer 1 (Resolved ()); DeleteAnswer 0 (Resolved ())] pressed))
    = [janet; emma].
Proof. split; reflexivity. Qed.

Lemma edit_lost_to_delete_in_flight_witness :
  let saved :=
    run [DeleteClick 3; EditClick janet; TypeFirstName "Jane"; SubmitEdit;
         UpdateAnswer 1 (Resolved ())] listing in
  users (ui saved) = replaced jane page
  ∧ isEditModalOpen (ui saved) = false
  ∧ users (ui (step saved (DeleteAnswer 0 (Resolved ()))))
    = filter (λ u, id u ≠ 3%Z) page.
Proof.
  apply (edit_lost_to_delete_in_flight listing 3 janet "Jane").
  apply list_elem_of_further, list_elem_of_here.
Defined.

Example edit_lost_on_page :
  users (ui (run [DeleteClick 3; EditClick janet; TypeFirstName "Jane"; SubmitEdit;
                  UpdateAnswer 1 (Resolved ())] listing))
  = [george; jane; emma]
  ∧ users (ui (run [DeleteClick 3; EditClick janet; TypeFirstName "Jane"; SubmitEdit;
                    UpdateAnswer 1 (Resolved ()); DeleteAnswer 0 (Resolved ())] listing))
    = [george; janet].
Proof. split; reflexivity. Qed.

Lemma open_modal_edits_received_user_witness :
  let s := run [FetchAnswer 0 firstPage; EditClick janet; TypeFirstName "Jane"] mounted in
  ∃ user r, editModal (ui s) = Some user
            ∧ r ∈ received s ∧ id user = id r ∧ avatar user = avatar r
            ∧ ∀ term page, render lower_string compare_units term (ui s) = Rendered page →
                           modal page = Some user.
Proof.
  exact (open_modal_edits_received_user lower_string compare_units
           [FetchAnswer 0 firstPage; EditClick janet; TypeFirstName "Jane"] eq_refl).
Defined.

Lemma spinner_only_until_first_answer_witness :
  loading (ui (run ([TypeSearch "e"] ++ FetchAnswer 0 (Rejected "Network Error")
                      :: [PageClick 2]) mounted)) = false
  ∧ (Forall (λ ev, answers_fetch ev = false) [TypeSearch "e"] →
     loading (ui (run [TypeSearch "e"] mounted)) = loading (ui mounted)).
Proof.
  exact (spinner_only_until_first_answer mounted [TypeSearch "e"] [PageClick 2] 0 1
           (Rejected "Network Error") eq_refl).
Defined.

Lemma failed_page_change_sticks_witness :
  let s' := run [PageClick 2; FetchAnswer 0 (Rejected "Network Error")] listing in
  currentPage (ui s') = 2%Z
  ∧ users (ui s') = users (ui listing)
  ∧ totalPages (ui s') = totalPages (ui listing)
  ∧ received s' = received listing
  ∧ pending s' = pending listing
  ∧ step s' (PageClick 2) = s'.
Proof.
  exact (failed_page_change_sticks listing 2 "Network Error" ltac:(done)).
Defined.

Lemma email_check_unanchored_witness :
  re_test Login.email_pattern ("write to " +:+ "a@b.c" +:+ ", please") = true
  ∧ occurs_in "@" "a@b.c" ∧ occurs_in "." "a@b.c"
  ∧ (5 ≤ String.length "a@b.c")%nat.
Proof. exact (email_check_unanchored "a@b.c" "write to " ", please" eq_refl). Defined.

Lemma stored_filters_determine_preferences_witness :
  let other := setUsers [] (setCurrentPage 2 emmaDeleted) in
  selectedLetter emmaDeleted = selectedLetter other
  ∧ sortDirection emmaDeleted = sortDirection other
  ∧ (∀ domain, Named domain ∈ selectedDomains emmaDeleted
               ↔ Named domain ∈ selectedDomains other)
  ∧ (Undefined ∈ selectedDomains emmaDeleted ∨ Null ∈ selectedDomains emmaDeleted
     ↔ Undefined ∈ selectedDomains other ∨ Null ∈ selectedDomains other)
  ∧ (Undefined ∉ selectedDomains emmaDeleted → Undefined ∉ selectedDomains other →
     selectedDomains emmaDeleted = selectedDomains other)
  ∧ saveFilters other (saveFilters emmaDeleted {["token" := "QpwL5tke4Pnpja7X4"]})
    = saveFilters other {["token" := "QpwL5tke4Pnpja7X4"]}.
Proof.
  apply (stored_filters_determine_preferences emmaDeleted
           (setUsers [] (setCurrentPage 2 emmaDeleted)) ∅
           {["token" := "QpwL5tke4Pnpja7X4"]}).
  unfold saveFilters, LocalStorage.setItem. by rewrite !lookup_insert_eq.
Defined.

(** The same text is stored for the blank option and for [null]. *)
Example blank_and_null_store_alike :
  saveFilters (setSelectedDomains {[Undefined]} initial) ∅
  = saveFilters (setSelectedDomains {[Null]} initial) ∅.
Proof. vm_compute. reflexivity. Qed.

Example routes_by_spelling :
  App.route {["token" := "QpwL5tke4Pnpja7X4"]} false "/Users/"
  = Some (App.UsersPage false)
  ∧ App.route ∅ false "/LOGIN" = Some App.LoginPage
  ∧ App.route ∅ false "//" = Some (App.Redirect "/users")
  ∧ App.route ∅ false "/users/1" = None.
Proof. repeat split; reflexivity. Qed.

Example tied_names_keep_fetched_order :
  filteredUsers lower_string compare_units [ann; ann'] "" "" ∅ asc = [ann; ann']
  ∧ filteredUsers lower_string compare_units [ann; ann'] "" "" ∅ desc = [ann; ann'].
Proof. split; vm_compute; reflexivity. Qed.

Lemma page_names_differ (a b : User) :
  a ∈ page → b ∈ page →
  name_ordered lower_string compare_units asc a b →
  name_ordered lower_string compare_units asc b a → a = b.
Proof.
  intros Ha Hb H1 H2.
  repeat (apply elem_of_cons in Ha as [->|Ha]); [..|by apply elem_of_nil in Ha];
    (repeat (apply elem_of_cons in Hb as [->|Hb]); [..|by apply elem_of_nil in Hb]);
    try done; vm_compute in H1, H2;
    first [by destruct H1 | by destruct H2].
Qed.

Lemma descending_is_ascending_reversed_witness :
  filteredUsers lower_string compare_units page "e" "" {[Named "reqres.in"]} desc
  = reverse (filteredUsers lower_string compare_units page "e" ""
               {[Named "reqres.in"]} asc).
Proof.
  exact (descending_is_ascending_reversed lower_string compare_units
           compare_units_total compare_units_trans page "e" "" {[Named "reqres.in"]}
           page_names_differ).
Defined.

Lemma filters_survive_page_changes_witness :
  let s := with_ui emmaDeleted listing in
  let events :=
    [PageClick 2;
     FetchAnswer 0 (Resolved {| Api.page_data := [ann; ann']; Api.total_pages := 2 |});
     EditClick ann; TypeEmail "ann@example.org"; SubmitEdit; DeleteClick 6;
     DeleteAnswer 1 (Rejected "Network Error"); UpdateAnswer 0 (Resolved ())] in
  selectedLetter (ui (run events s)) = selectedLetter (ui s)
  ∧ sortDirection (ui (run events s)) = sortDirection (ui s)
  ∧ selectedDomains (ui (run events s)) = selectedDomains (ui s).
Proof.
  apply (filters_survive_page_changes
           [PageClick 2;
            FetchAnswer 0
              (Resolved {| Api.page_data := [ann; ann']; Api.total_pages := 2 |});
            EditClick ann; TypeEmail "ann@example.org"; SubmitEdit; DeleteClick 6;
            DeleteAnswer 1 (Rejected "Network Error"); UpdateAnswer 0 (Resolved ())]
           (with_ui emmaDeleted listing)).
  repeat constructor.
Defined.

End FurtherExamples.
